(** * AdventureWorks MCP server: query guard, bounded executor, schema cache

    A shallow embedding of the TypeScript sources
      - [src/mcp/tools/queryTools.ts]  (the [db.select] tool),
      - [src/mcp/tools/schemaTools.ts] (the schema tools),
      - [src/mcp/tools/testTools.ts]   (the [sys.echo] tool),
      - [src/features/schema.ts]       (the [SchemaService] cache),
      - [src/mcp/server.ts]            (the server factory),
    followed by the properties established about them.

    Conventions of the embedding.
      - A JavaScript string is a [string]; a character stands for one
        UTF-16 code unit of the ASCII range.  Text with code units above
        127 is outside the model (its upper-casing and its white space
        need the Unicode tables): [JS.toUpperCase] and [JS.trim] are the
        functions of the engine on ASCII text, and a statement that is to
        hold of all text speaks of what these functions return, not of the
        letters of the text itself.
      - An integral JavaScript number is a [Z].
      - An [async] function is a computation in the monad [Async]: it
        threads the process state (the static caches of [SchemaService],
        the state of the database, the list of requests sent so far) and
        ends either resolved with a value or rejected with the message of
        the thrown [Error].  Such a computation is a call that runs to its
        end before the next one starts, and the list of requests follows
        the order of the calls.  The lookups of [SchemaService], which
        write the caches, are given a second time cut at their [await]s
        ([Overlapped]), for what depends on calls that overlap.
      - [Promise.all] runs its members side by side.  The model runs them
        in the order of the array; which of two failures comes first is
        decided as the event loop decides it where the sources fix it, and
        by the host where the timing of the database does.
      - Arrays are values.  The cached arrays are shared with the callers
        of [getTables] and [getTableSchema], but no caller writes to them
        ([slice] and [filter] copy, [sort] works on the copy).
      - The SDK's [McpServer] and the SQL driver are outside the sources:
        the first is a registry of named tools that validates the
        arguments of a call and turns what a handler throws into a result
        with the error flag, the second an oracle over an abstract state of
        the database. *)

From Stdlib Require Import ZArith Lia Bool List Ascii String Sorted Permutation.
From stdpp Require Import base gmap strings.
Import ListNotations.

Local Open Scope Z_scope.

(** ** JavaScript string primitives *)

Module JS.

(** White space and line terminators stripped by [String.prototype.trim]. *)
Definition isWhiteSpace (c : ascii) : bool :=
  let n := nat_of_ascii c in
  ((9 <=? n) && (n <=? 13) || (n =? 32))%nat.

(** The characters the regular-expression atom [.] refuses. *)
Definition isLineTerminator (c : ascii) : bool :=
  let n := nat_of_ascii c in
  ((n =? 10) || (n =? 13))%nat.

(** The characters of the class [\w], which decides [\b]. *)
Definition isWordChar (c : ascii) : bool :=
  let n := nat_of_ascii c in
  ((65 <=? n) && (n <=? 90) || (97 <=? n) && (n <=? 122)
   || (48 <=? n) && (n <=? 57) || (n =? 95))%nat.

Definition upperChar (c : ascii) : ascii :=
  let n := nat_of_ascii c in
  if ((97 <=? n) && (n <=? 122))%nat then ascii_of_nat (n - 32) else c.

(** [s.toUpperCase()] *)
Fixpoint toUpperCase (s : string) : string :=
  match s with
  | EmptyString => EmptyString
  | String c r => String (upperChar c) (toUpperCase r)
  end.

(** [s.startsWith(p)] *)
Fixpoint startsWith (s p : string) : bool :=
  match p, s with
  | EmptyString, _ => true
  | String _ _, EmptyString => false
  | String a p', String b s' => Ascii.eqb a b && startsWith s' p'
  end.

(** [s.indexOf(p)], [-1] when [p] does not occur. *)
Fixpoint indexOf (s p : string) : Z :=
  if startsWith s p then 0
  else match s with
       | EmptyString => -1
       | String _ r => let i := indexOf r p in if i <? 0 then -1 else i + 1
       end.

(** [s.includes(p)] *)
Definition includes (s p : string) : bool := negb (indexOf s p <? 0).

(** [s.endsWith(p)] for a one-character [p]. *)
Fixpoint endsWithChar (s : string) (c : ascii) : bool :=
  match s with
  | EmptyString => false
  | String a EmptyString => Ascii.eqb a c
  | String _ r => endsWithChar r c
  end.

(** [s.slice(0, -1)]: all but the last character. *)
Fixpoint sliceInit (s : string) : string :=
  match s with
  | EmptyString => EmptyString
  | String _ EmptyString => EmptyString
  | String a r => String a (sliceInit r)
  end.

Fixpoint trimStart (s : string) : string :=
  match s with
  | EmptyString => EmptyString
  | String c r => if isWhiteSpace c then trimStart r else s
  end.

Fixpoint trimEnd (s : string) : string :=
  match s with
  | EmptyString => EmptyString
  | String c r =>
      match trimEnd r with
      | EmptyString => if isWhiteSpace c then EmptyString else String c EmptyString
      | r' => String c r'
      end
  end.

(** [s.trim()] *)
Definition trim (s : string) : string := trimEnd (trimStart s).

(** [s.replace(re, " ")] for a global regular expression [re] whose matches
    are never empty.  [matchAt s] is the length of the match of [re] that
    starts at the first character of [s], if there is one.  The scan goes
    from left to right; after a match it resumes behind the match. *)
Fixpoint replaceAllGo (matchAt : string -> option nat) (skip : nat) (s : string) : string :=
  match s with
  | EmptyString => EmptyString
  | String c r =>
      match skip with
      | S k => replaceAllGo matchAt k r
      | O =>
          match matchAt s with
          | Some (S n) => String " " (replaceAllGo matchAt n r)
          | _ => String c (replaceAllGo matchAt O r)
          end
      end
  end.

Definition replaceAll (matchAt : string -> option nat) (s : string) : string :=
  replaceAllGo matchAt O s.

(** Number of characters before the first occurrence of [*/]. *)
Fixpoint findClose (s : string) : option nat :=
  match s with
  | EmptyString => None
  | String c r =>
      if startsWith s "*/" then Some O
      else option_map S (findClose r)
  end.

(** The match of [/\/\*[\s\S]*?\*\//] at the start of [s]: the opening
    [/*], the fewest characters possible, the closing [*/]. *)
Definition blockCommentAt (s : string) : option nat :=
  match s with
  | String "/" (String "*" r) => option_map (fun k => (2 + k + 2)%nat) (findClose r)
  | _ => None
  end.

(** Number of leading characters that [.] accepts. *)
Fixpoint lineRest (s : string) : nat :=
  match s with
  | EmptyString => O
  | String c r => if isLineTerminator c then O else S (lineRest r)
  end.

(** The match of [/--.*$/m] at the start of [s]: [--] and the rest of the
    line; the greedy [.*] stops in front of a line terminator or at the end
    of the text, where [$] holds under the [m] flag. *)
Definition lineCommentAt (s : string) : option nat :=
  match s with
  | String "-" (String "-" r) => Some (2 + lineRest r)%nat
  | _ => None
  end.

(** [\b] between the character before and the character after a position;
    outside the text there is no word character. *)
Definition wordBoundary (prev next : option ascii) : bool :=
  xorb (from_option isWordChar false prev) (from_option isWordChar false next).

Definition headChar (s : string) : option ascii :=
  match s with EmptyString => None | String c _ => Some c end.

(** The literal [w] followed by [\b], matched at the start of [s]; [prev] is
    the character in front of [s]. *)
Fixpoint literalThenBoundary (prev : option ascii) (w s : string) : bool :=
  match w with
  | EmptyString => wordBoundary prev (headChar s)
  | String a w' =>
      match s with
      | EmptyString => false
      | String b s' => Ascii.eqb a b && literalThenBoundary (Some b) w' s'
      end
  end.

(** [/\b(w1|...|wn)\b/] matched at the start of [s]. *)
Definition wordsAt (words : list string) (prev : option ascii) (s : string) : bool :=
  wordBoundary prev (headChar s) && existsb (fun w => literalThenBoundary prev w s) words.

Fixpoint testWordsGo (words : list string) (prev : option ascii) (s : string) : bool :=
  wordsAt words prev s ||
  match s with
  | EmptyString => false
  | String c r => testWordsGo words (Some c) r
  end.

(** [/\b(w1|...|wn)\b/.test(s)]: some position of [s] carries a match. *)
Definition testWords (words : list string) (s : string) : bool :=
  testWordsGo words None s.

End JS.

(** [Array.prototype.sort(cmp)]: the result is the stable ordering of the
    array under a consistent comparator, computed here by insertion. *)
Section Sort.
Context {A : Type} (cmp : A -> A -> Z).

Fixpoint sortInsert (x : A) (l : list A) : list A :=
  match l with
  | [] => [x]
  | y :: r => if cmp x y <=? 0 then x :: y :: r else y :: sortInsert x r
  end.

Definition sort (l : list A) : list A := fold_right sortInsert [] l.
End Sort.

(** [l.slice(0, e)] *)
Definition slice0 {A : Type} (l : list A) (e : Z) : list A :=
  if 0 <=? e then firstn (Z.to_nat e) l
  else firstn (Z.to_nat (Z.of_nat (List.length l) + e)) l.

(** ** Values crossing the tool boundary *)

Inductive JSValue :=
| JNull
| JBool (b : bool)
| JNum (n : Z)
| JStr (s : string).

(** One record of a dynamic result set: column name and value. *)
Definition Row : Type := list (string * JSValue).

(** ** Data model ([src/features/schema.ts], lines 12-40) *)

Module TableInfo.
Record t := mk { tableName : string; schema : string }.
End TableInfo.

Inductive Nullable := YES | NO.

Module ColumnInfo.
Record t := mk {
  columnName : string;
  dataType : string;
  isNullable : Nullable;
  maxLength : option Z;
  precision : option Z;
  scale : option Z }.
End ColumnInfo.

Module PrimaryKeyInfo.
Record t := mk { tableName : string; columnName : string; keyOrdinal : Z }.
End PrimaryKeyInfo.

Module ForeignKeyInfo.
Record t := mk {
  fkName : string;
  fromSchema : string;
  fromTable : string;
  fromColumn : string;
  toSchema : string;
  toTable : string;
  toColumn : string }.
End ForeignKeyInfo.

(** ** The SQL executor ([SQLClient.query], an external collaborator) *)

(** The text of a request.  The four metadata statements are constants of
    [schema.ts]; the batch of [db.select] is the template of
    [queryTools.ts] lines 88-100 with its two holes, the [SET ROWCOUNT]
    value and the guarded statement. *)
Inductive QueryText :=
| TablesQuery
| ColumnsQuery
| PrimaryKeysQuery
| ForeignKeysQuery
| CappedBatch (limit : Z) (q : string).

Record SqlRequest := mkRequest {
  queryText : QueryText;
  params : list (string * string) }.

Definition isColumnsRequest (r : SqlRequest) : bool :=
  match queryText r with ColumnsQuery => true | _ => false end.

(** What the process cannot decide by itself: the database behind
    [SQLClient.query<T>], one entry per row type [T] the sources use (a
    metadata [SELECT] always carries a record set; the batch of [db.select]
    may carry none), the environment variable [DB_SCHEMA] as read when
    [schema.ts] is loaded and as read by a handler, the clock, and the
    timing of failures: of two computations that [Promise.all] runs side by
    side and that both fail after waiting for the database, whether the
    first one fails first.  A failed request gives the message of the error
    it throws. *)
Record Host (World : Type) := mkHost {
  queryTableInfo : SqlRequest -> World -> (string + list TableInfo.t) * World;
  queryColumnInfo : SqlRequest -> World -> (string + list ColumnInfo.t) * World;
  queryPrimaryKeyInfo : SqlRequest -> World -> (string + list PrimaryKeyInfo.t) * World;
  queryForeignKeyInfo : SqlRequest -> World -> (string + list ForeignKeyInfo.t) * World;
  queryUnknown : SqlRequest -> World -> (string + option (list Row)) * World;
  envAtLoad : option string;
  envAtCall : option string;
  nowISOString : World -> string;
  leftFailsFirst : World -> bool }.

Arguments mkHost {World}.
Arguments queryTableInfo {World}.
Arguments queryColumnInfo {World}.
Arguments queryPrimaryKeyInfo {World}.
Arguments queryForeignKeyInfo {World}.
Arguments queryUnknown {World}.
Arguments envAtLoad {World}.
Arguments envAtCall {World}.
Arguments nowISOString {World}.
Arguments leftFailsFirst {World}.

(** ** Process state and asynchronous computations *)

(** The static fields of [SchemaService]. *)
Record Caches := mkCaches {
  tablesCache : option (list TableInfo.t);
  columnsCache : gmap string (list ColumnInfo.t) }.

Record Process (World : Type) := mkProcess {
  caches : Caches;
  world : World;
  sent : list SqlRequest }.

Arguments mkProcess {World}.
Arguments caches {World}.
Arguments world {World}.
Arguments sent {World}.

Inductive Settled (A : Type) :=
| Resolved (a : A)
| Rejected (message : string).

Arguments Resolved {A}.
Arguments Rejected {A}.

Definition Async (World A : Type) : Type := Process World -> Settled A * Process World.

Definition ret {World A} (a : A) : Async World A := fun p => (Resolved a, p).

Definition throw {World A} (message : string) : Async World A := fun p => (Rejected message, p).

Definition bind {World A B} (m : Async World A) (k : A -> Async World B) : Async World B :=
  fun p =>
    match m p with
    | (Resolved a, p') => k a p'
    | (Rejected e, p') => (Rejected e, p')
    end.

(** [try { m } catch (err) { h err }] *)
Definition tryCatch {World A} (m : Async World A) (h : string -> Async World A) : Async World A :=
  fun p =>
    match m p with
    | (Resolved a, p') => (Resolved a, p')
    | (Rejected e, p') => h e p'
    end.

(** The computation that took the process from [p] to [p'] sent no
    request: it ran without waiting for the database. *)
Definition quiet {World} (p p' : Process World) : bool :=
  (List.length (sent p') =? List.length (sent p))%nat.

(** [Promise.all([m1, m2])]: both computations are started, in this order,
    and both run to their end.  The result is rejected as soon as one of
    them is.  When both fail (in the sources the second one is a request to
    the database), the error is the one of [m1] if [m1] failed without
    waiting for the database, which is before any answer can arrive; if
    not, it is the error of the one that fails first, which the timing
    [first] of the host decides.  The requests of [m1] are logged before
    those of [m2]; the order in which the requests of the two members of
    [db.describeTable] leave the process is that of [startDescribeTable]. *)
Definition all2 {World A B} (first : World -> bool)
    (m1 : Async World A) (m2 : Async World B) : Async World (A * B) :=
  fun p =>
    let '(r1, p1) := m1 p in
    let '(r2, p2) := m2 p1 in
    match r1, r2 with
    | Resolved a, Resolved b => (Resolved (a, b), p2)
    | Rejected e1, Rejected e2 =>
        (Rejected (if quiet p p1 || first (world p2) then e1 else e2), p2)
    | Rejected e, Resolved _ => (Rejected e, p2)
    | Resolved _, Rejected e => (Rejected e, p2)
    end.

Definition all3 {World A B C} (first : World -> bool)
    (m1 : Async World A) (m2 : Async World B) (m3 : Async World C)
  : Async World (A * B * C) :=
  fun p =>
    let '(r12, p2) := all2 first m1 m2 p in
    let '(r3, p3) := m3 p2 in
    match r12, r3 with
    | Resolved ab, Resolved c => (Resolved (ab, c), p3)
    | Rejected e12, Rejected e3 =>
        (Rejected (if quiet p p2 || first (world p3) then e12 else e3), p3)
    | Rejected e, Resolved _ => (Rejected e, p3)
    | Resolved _, Rejected e => (Rejected e, p3)
    end.

Declare Scope async_scope.
Delimit Scope async_scope with async.
Notation "'do' x <- m ; k" := (bind m (fun x => k))
  (at level 10, x name, m at level 100, k at level 200) : async_scope.
Notation "'do' ' pat <- m ; k" := (bind m (fun x => match x with pat => k end))
  (at level 10, pat pattern, m at level 100, k at level 200) : async_scope.

Definition getCaches {World} : Async World Caches := fun p => (Resolved (caches p), p).

Definition setCaches {World} (c : Caches) : Async World unit :=
  fun p => (Resolved tt, mkProcess c (world p) (sent p)).

(** [SQLClient.query<T>(text, params)] against the entry [run] of the host:
    the request is sent, and its result or its error comes back. *)
Definition SQLClient_query {World T} (run : SqlRequest -> World -> (string + T) * World)
    (req : SqlRequest) : Async World T :=
  fun p =>
    let '(r, w) := run req (world p) in
    (match r with inl e => Rejected e | inr v => Resolved v end,
     mkProcess (caches p) w (sent p ++ [req])).

(** ** Tool results *)

(** The objects handed to [JSON.stringify(..., null, 2)]. *)
Inductive Payload :=
| SelectPayload (rowCount : Z) (cappedAt : Z) (data : list Row)
| DescribePayload (tableName : string) (columns : list ColumnInfo.t)
    (primaryKeys : list PrimaryKeyInfo.t)
| ContextPayload (schema : string) (tables : list TableInfo.t)
    (primaryKeys : list PrimaryKeyInfo.t) (foreignKeys : list ForeignKeyInfo.t)
    (note : string).

Inductive Text :=
| Plain (s : string)
| JSON_stringify (v : Payload).

(** [{ isError, content: [{ type: "text", text }] }]; a result without the
    flag has [isError = false]. *)
Record ToolResult := mkResult {
  isError : bool;
  content : list Text }.

Definition errorResult (text : string) : ToolResult := mkResult true [Plain text].
Definition textResult (text : Text) : ToolResult := mkResult false [text].

(** ** Schema discovery ([src/features/schema.ts]) *)

Definition DEFAULT_SCHEMA : string := "SalesLT".

(** The key of the column cache, line 95: [`${schema}.${tableName}`]. *)
Definition cacheKey (schema tableName : string) : string :=
  schema +:+ "." +:+ tableName.

(** The test of line 101:
    [tables.some((t) => t.tableName === tableName && t.schema === schema)]. *)
Definition listed (schema tableName : string) (tables : list TableInfo.t) : bool :=
  existsb (fun t => String.eqb (TableInfo.tableName t) tableName
                    && String.eqb (TableInfo.schema t) schema) tables.

(** The message of line 102. *)
Definition notFoundMessage (schema tableName : string) : string :=
  "Table not found or not allowed: " +:+ schema +:+ "." +:+ tableName.

Section SchemaService.
Context {World : Type} (host : Host World).

Local Open Scope async_scope.

Definition schemaNameFromEnv : string := default DEFAULT_SCHEMA (envAtLoad host).

Definition getTargetSchema : string := schemaNameFromEnv.

Definition getTables : Async World (list TableInfo.t) :=
  do c <- getCaches;
  match tablesCache c with
  | Some tables => ret tables
  | None =>
      let schema := getTargetSchema in
      do recordset <- SQLClient_query (queryTableInfo host)
                        (mkRequest TablesQuery [("schema", schema)]);
      do c <- getCaches;
      do _ <- setCaches (mkCaches (Some recordset) (columnsCache c));
      ret recordset
  end.

Definition getTableSchema (tableName : string) : Async World (list ColumnInfo.t) :=
  let schema := getTargetSchema in
  let key := cacheKey schema tableName in
  do c <- getCaches;
  match columnsCache c !! key with
  | Some cached => ret cached
  | None =>
      do tables <- getTables;
      if negb (listed schema tableName tables)
      then throw (notFoundMessage schema tableName)
      else
        do recordset <- SQLClient_query (queryColumnInfo host)
                          (mkRequest ColumnsQuery [("schema", schema); ("tableName", tableName)]);
        do c <- getCaches;
        do _ <- setCaches (mkCaches (tablesCache c) (<[key := recordset]> (columnsCache c)));
        ret recordset
  end.

Definition getPrimaryKeys : Async World (list PrimaryKeyInfo.t) :=
  let schema := getTargetSchema in
  SQLClient_query (queryPrimaryKeyInfo host) (mkRequest PrimaryKeysQuery [("schema", schema)]).

Definition getForeignKeys : Async World (list ForeignKeyInfo.t) :=
  let schema := getTargetSchema in
  SQLClient_query (queryForeignKeyInfo host) (mkRequest ForeignKeysQuery [("schema", schema)]).

Definition clearCache : Async World unit :=
  setCaches (mkCaches None ∅).

End SchemaService.

(** ** The query guard and the bounded executor ([src/mcp/tools/queryTools.ts]) *)

Definition stripComments (sql : string) : string :=
  JS.replaceAll JS.lineCommentAt (JS.replaceAll JS.blockCommentAt sql).

Definition forbiddenWords : list string :=
  ["INSERT"; "UPDATE"; "DELETE"; "DROP"; "ALTER"; "CREATE"; "TRUNCATE"; "MERGE";
   "EXEC"; "EXECUTE"; "GRANT"; "REVOKE"; "DENY"; "WAITFOR"; "DBCC"; "OPENROWSET";
   "OPENDATASOURCE"; "BULK"; "SHUTDOWN"].

Definition containsForbiddenTokens (sqlUpper : string) : bool :=
  JS.testWords forbiddenWords sqlUpper.

Definition MSG_MULTIPLE : string :=
  "Only a single SELECT statement is allowed (no multiple statements).".
Definition MSG_NOT_SELECT : string :=
  "Only SELECT queries are allowed (CTE starting with WITH is allowed).".
Definition MSG_FORBIDDEN : string :=
  "Query rejected: forbidden keyword detected (write/exec/dangerous feature).".

(** The outcome of lines 40-85 of the handler of [db.select]: an early
    return with an error text, or the statement [q] that goes on to the
    executor.  The handler is one function; it is cut here into the
    statement-count part, the keyword part and the execution. *)
Inductive Verdict :=
| Refused (text : string)
| Passed (q : string).

(** Lines 40-58: the comment-free, trimmed text without its one trailing
    semicolon; [None] stands for the early return of line 47. *)
Definition singleStatement (sql : string) : option string :=
  let q := JS.trim (stripComments sql) in
  if JS.includes q ";" then
    let onlyTrailing :=
      JS.endsWithChar q ";" && (JS.indexOf (JS.sliceInit q) ";" =? -1) in
    if negb onlyTrailing then None else Some (JS.trim (JS.sliceInit q))
  else Some q.

(** Lines 60-85: the statement-shape check and the forbidden-token check. *)
Definition checkStatement (q : string) : Verdict :=
  let upper := JS.toUpperCase q in
  if negb (JS.startsWith upper "SELECT" || JS.startsWith upper "WITH")
  then Refused MSG_NOT_SELECT
  else if containsForbiddenTokens upper || JS.testWords ["INTO"] upper
  then Refused MSG_FORBIDDEN
  else Passed q.

Definition guard (sql : string) : Verdict :=
  match singleStatement sql with
  | None => Refused MSG_MULTIPLE
  | Some q => checkStatement q
  end.

(** [Math.min(maxRows ?? 100, 200)] *)
Definition rowLimit (maxRows : option Z) : Z := Z.min (default 100 maxRows) 200.

Section QueryTools.
Context {World : Type} (host : Host World).

Local Open Scope async_scope.

(** The handler of [db.select]. *)
Definition db_select (sql : string) (maxRows : option Z) : Async World ToolResult :=
  let limit := rowLimit maxRows in
  match guard sql with
  | Refused text => ret (errorResult text)
  | Passed q =>
      let cappedBatch := mkRequest (CappedBatch limit q) [] in
      tryCatch
        (do recordset <- SQLClient_query (queryUnknown host) cappedBatch;
         ret (textResult (JSON_stringify
                (SelectPayload
                   (from_option (fun rs => Z.of_nat (List.length rs)) 0 recordset)
                   limit
                   (default [] recordset)))))
        (fun message => ret (errorResult ("SQL Error: " +:+ message)))
  end.

End QueryTools.

(** ** The schema tools ([src/mcp/tools/schemaTools.ts]) *)

Definition byKeyOrdinal (a b : PrimaryKeyInfo.t) : Z :=
  PrimaryKeyInfo.keyOrdinal a - PrimaryKeyInfo.keyOrdinal b.

(** Lines 45-47: the keys of one table, in key order. *)
Definition primaryKeysOf (tableName : string) (allPrimaryKeys : list PrimaryKeyInfo.t)
  : list PrimaryKeyInfo.t :=
  sort byKeyOrdinal
    (List.filter (fun pk => String.eqb (PrimaryKeyInfo.tableName pk) tableName) allPrimaryKeys).

Section SchemaTools.
Context {World : Type} (host : Host World).

Local Open Scope async_scope.

(** The handler of [db.describeTable]. *)
Definition db_describeTable (tableName : string) : Async World ToolResult :=
  do '(columns, allPrimaryKeys) <-
       all2 (leftFailsFirst host) (getTableSchema host tableName) (getPrimaryKeys host);
  let primaryKeys := primaryKeysOf tableName allPrimaryKeys in
  ret (textResult (JSON_stringify (DescribePayload tableName columns primaryKeys))).

(** The handler of [db.getDatabaseContext]; [maxTables ? a : b] takes
    [b] when [maxTables] is missing or zero. *)
Definition db_getDatabaseContext (maxTables : option Z) : Async World ToolResult :=
  let schema := default "SalesLT" (envAtCall host) in
  do '(tablesAll, primaryKeys, foreignKeys) <-
       all3 (leftFailsFirst host) (getTables host) (getPrimaryKeys host) (getForeignKeys host);
  let tables :=
    match maxTables with
    | Some n => if n =? 0 then tablesAll else slice0 tablesAll n
    | None => tablesAll
    end in
  ret (textResult (JSON_stringify
         (ContextPayload schema tables primaryKeys foreignKeys
            "All results are filtered to the configured schema."))).

End SchemaTools.

(** ** The diagnostic tool ([src/mcp/tools/testTools.ts]) *)

Section TestTools.
Context {World : Type} (host : Host World).

(** The handler of [sys.echo] (the text starts with a rocket emoji, left
    out here). *)
Definition sys_echo (message : string) : Async World ToolResult :=
  fun p =>
    ret (textResult (Plain (" Server is LIVE! Message: " +:+ message +:+ ". Time: "
                            +:+ nowISOString host (world p)))) p.

End TestTools.

(** ** The tool registration surface (the SDK's [McpServer], an external
    collaborator) *)

(** The input shapes the sources build with [zod]. *)
Inductive ZodType :=
| z_string (min : option nat)
| z_number_int (min max : Z)
| z_optional (t : ZodType).

Fixpoint zodAccepts (t : ZodType) (v : option JSValue) : bool :=
  match t, v with
  | z_optional _, None => true
  | z_optional t', Some _ => zodAccepts t' v
  | z_string min, Some (JStr s) => from_option (fun m => (m <=? String.length s)%nat) true min
  | z_number_int lo hi, Some (JNum n) => (lo <=? n) && (n <=? hi)
  | _, _ => false
  end.

Definition Args : Type := gmap string JSValue.

(** An arguments object, written as its list of properties. *)
Definition object (properties : list (string * JSValue)) : Args := list_to_map properties.

Definition validate (inputSchema : list (string * ZodType)) (args : Args) : bool :=
  forallb (fun '(k, t) => zodAccepts t (args !! k)) inputSchema.

(** Reading one property of validated arguments. *)
Definition argString (args : Args) (k : string) : string :=
  match args !! k with Some (JStr s) => s | _ => EmptyString end.

Definition argInt (args : Args) (k : string) : option Z :=
  match args !! k with Some (JNum n) => Some n | _ => None end.

Record Tool (World : Type) := mkTool {
  title : string;
  description : string;
  inputSchema : list (string * ZodType);
  readOnlyHint : bool;
  handler : Args -> Async World ToolResult }.

Arguments mkTool {World}.
Arguments title {World}.
Arguments description {World}.
Arguments inputSchema {World}.
Arguments readOnlyHint {World}.
Arguments handler {World}.

Record McpServer (World : Type) := mkServer {
  name : string;
  version : string;
  registeredTools : list (string * Tool World) }.

Arguments mkServer {World}.
Arguments name {World}.
Arguments version {World}.
Arguments registeredTools {World}.

Definition toolNames {World} (server : McpServer World) : list string :=
  map fst (registeredTools server).

Fixpoint findTool {World} (tools : list (string * Tool World)) (toolName : string)
  : option (Tool World) :=
  match tools with
  | [] => None
  | (n, t) :: r => if String.eqb n toolName then Some t else findTool r toolName
  end.

(** [server.registerTool(name, config, cb)]; a name can be taken once. *)
Definition registerTool {World} (toolName : string) (tool : Tool World)
    (server : McpServer World) : string + McpServer World :=
  match findTool (registeredTools server) toolName with
  | Some _ => inl ("Tool " +:+ toolName +:+ " is already registered")
  | None => inr (mkServer (name server) (version server)
                   (registeredTools server ++ [(toolName, tool)]))
  end.

Definition andThen {E A B} (r : E + A) (k : A -> E + B) : E + B :=
  match r with inl e => inl e | inr a => k a end.

(** What a tool call comes to: no tool of that name, arguments refused by
    the input shape, or a result.  The server awaits the handler inside a
    [try]: the error of a handler that throws comes back as a result with
    the error flag and the message of the error as its text. *)
Inductive CallOutcome :=
| UnknownTool
| InvalidArguments
| Returned (result : ToolResult).

Definition callTool {World} (server : McpServer World) (toolName : string) (args : Args)
  : Process World -> CallOutcome * Process World :=
  fun p =>
    match findTool (registeredTools server) toolName with
    | None => (UnknownTool, p)
    | Some tool =>
        if validate (inputSchema tool) args then
          match handler tool args p with
          | (Resolved r, p') => (Returned r, p')
          | (Rejected e, p') => (Returned (errorResult e), p')
          end
        else (InvalidArguments, p)
    end.

(** ** Registration of the tools and the server factory *)

Section Server.
Context {World : Type} (host : Host World).

(** [queryTools.ts], lines 17-35 *)
Definition registerQueryTools (server : McpServer World) : string + McpServer World :=
  registerTool "db.select"
    (mkTool "Execute dynamic SELECT query"
       "Executes a read-only SELECT (or WITH..SELECT) query. Rows capped server-side. Single statement only."
       [("sql", z_string (Some 1%nat)); ("maxRows", z_optional (z_number_int 1 200))]
       true
       (fun args => db_select host (argString args "sql") (argInt args "maxRows")))
    server.

(** [schemaTools.ts], lines 10-125 *)
Definition registerSchemaTools (server : McpServer World) : string + McpServer World :=
  andThen
    (registerTool "db.describeTable"
       (mkTool "Describe table structure"
          "Returns columns and primary keys for a specific table. Use before writing queries."
          [("tableName", z_string (Some 1%nat))]
          true
          (fun args => db_describeTable host (argString args "tableName")))
       server)
    (registerTool "db.getDatabaseContext"
       (mkTool "Get complete database schema context"
          "Returns tables, primary keys, and foreign key relationships. Use at the start to understand the DB structure."
          [("maxTables", z_optional (z_number_int 1 200))]
          true
          (fun args => db_getDatabaseContext host (argInt args "maxTables")))).

(** [testTools.ts], lines 9-31 *)
Definition registerTestTools (server : McpServer World) : string + McpServer World :=
  registerTool "sys.echo"
    (mkTool "Echo Test"
       "Returns the input string to verify the connection is working."
       [("message", z_string None)]
       true
       (fun args => sys_echo host (argString args "message")))
    server.

(** [server.ts], lines 27-42 *)
Definition createAdventureWorksServer : string + McpServer World :=
  let server := mkServer "adventureworks-manager" "1.0.0" [] in
  andThen (registerSchemaTools server) registerTestTools.

(** A server on which [registerQueryTools] has been called, as a caller of
    that exported function would build it. *)
Definition serverWithQueryTools : string + McpServer World :=
  registerQueryTools (mkServer "adventureworks-manager" "1.0.0" []).

End Server.

(** ** Runs of the process *)

(** What can happen to the process, one event at a time: a call of a method
    of [SchemaService], a call of a tool handler, or a change of the
    database made by somebody else. *)
Inductive Op (World : Type) :=
| GetTables
| GetTableSchema (tableName : string)
| GetPrimaryKeys
| GetForeignKeys
| ClearCache
| DescribeTable (tableName : string)
| GetDatabaseContext (maxTables : option Z)
| Select (sql : string) (maxRows : option Z)
| Echo (message : string)
| DatabaseChanges (w : World).

Arguments GetTables {World}.
Arguments GetTableSchema {World}.
Arguments GetPrimaryKeys {World}.
Arguments GetForeignKeys {World}.
Arguments ClearCache {World}.
Arguments DescribeTable {World}.
Arguments GetDatabaseContext {World}.
Arguments Select {World}.
Arguments Echo {World}.
Arguments DatabaseChanges {World}.

Definition isClearCache {World} (op : Op World) : bool :=
  match op with ClearCache => true | _ => false end.

Section Runs.
Context {World : Type} (host : Host World).

Definition step (p : Process World) (op : Op World) : Process World :=
  match op with
  | GetTables => snd (getTables host p)
  | GetTableSchema t => snd (getTableSchema host t p)
  | GetPrimaryKeys => snd (getPrimaryKeys host p)
  | GetForeignKeys => snd (getForeignKeys host p)
  | ClearCache => snd (clearCache p)
  | DescribeTable t => snd (db_describeTable host t p)
  | GetDatabaseContext n => snd (db_getDatabaseContext host n p)
  | Select sql n => snd (db_select host sql n p)
  | Echo m => snd (sys_echo host m p)
  | DatabaseChanges w => mkProcess (caches p) w (sent p)
  end.

Definition run (ops : list (Op World)) (p : Process World) : Process World :=
  fold_left step ops p.

(** The process as it starts: static initialisers of [SchemaService],
    nothing sent yet. *)
Definition initial (w : World) : Process World :=
  mkProcess (mkCaches None ∅) w [].

Definition reachable (p : Process World) : Prop :=
  exists w ops, p = run ops (initial w).

End Runs.

(** ** Notions the properties are stated with *)

Fixpoint lastChar (s : string) : option ascii :=
  match s with
  | EmptyString => None
  | String c EmptyString => Some c
  | String _ r => lastChar r
  end.

Fixpoint countChar (c : ascii) (s : string) : nat :=
  match s with
  | EmptyString => O
  | String a r => ((if Ascii.eqb a c then 1 else 0) + countChar c r)%nat
  end.

Definition nonWord (c : option ascii) : Prop :=
  from_option JS.isWordChar false c = false.

(** [w] stands in [s] as a whole word: no word character touches it. *)
Definition occursAsWord (w s : string) : Prop :=
  exists pre post,
    s = pre +:+ w +:+ post /\ nonWord (lastChar pre) /\ nonWord (JS.headChar post).

(** The entries of [c] are still in [c'], unchanged. *)
Definition cachesKept (c c' : Caches) : Prop :=
  (forall v, tablesCache c = Some v -> tablesCache c' = Some v) /\
  (forall k v, columnsCache c !! k = Some v -> columnsCache c' !! k = Some v).

(** Every table with cached columns is in the cached table list. *)
Definition cachesConsistent (schema : string) (c : Caches) : Prop :=
  forall t, is_Some (columnsCache c !! cacheKey schema t) ->
    exists tables, tablesCache c = Some tables /\ listed schema t tables = true.

(** The requests the metadata lookups send. *)
Definition tablesRequest (schema : string) : SqlRequest :=
  mkRequest TablesQuery [("schema", schema)].

Definition columnsRequest (schema tableName : string) : SqlRequest :=
  mkRequest ColumnsQuery [("schema", schema); ("tableName", tableName)].

(** Ascending order of a numeric key. *)
Definition keyLe {A : Type} (key : A -> Z) (a b : A) : Prop := key a <= key b.

(** The first keyword of a text: its leading run of word characters. *)
Fixpoint firstKeyword (s : string) : string :=
  match s with
  | EmptyString => EmptyString
  | String c r => if JS.isWordChar c then String c (firstKeyword r) else EmptyString
  end.

(** Text made of word characters only. *)
Fixpoint allWordChars (s : string) : bool :=
  match s with
  | EmptyString => true
  | String c r => JS.isWordChar c && allWordChars r
  end.

(** A keyword of the guard's lists: not empty, word characters only,
    already in upper case. *)
Definition isKeyword (w : string) : bool :=
  negb (String.eqb w EmptyString) && allWordChars w && String.eqb (JS.toUpperCase w) w.

(** The words the guard refuses: the forbidden list and [INTO]. *)
Definition refusedWords : list string := forbiddenWords ++ ["INTO"].

(** ** A small database for the examples *)

Module Fixture.

Definition tables (w : nat) : list TableInfo.t :=
  TableInfo.mk "Customer" "SalesLT" :: TableInfo.mk "Detail" "SalesLT"
  :: TableInfo.mk "Product" "SalesLT"
  :: match w with O => [] | S _ => [TableInfo.mk "Late" "SalesLT"] end.

Definition productColumns : list ColumnInfo.t :=
  [ColumnInfo.mk "ProductID" "int" NO None (Some 10) (Some 0);
   ColumnInfo.mk "Name" "nvarchar" NO (Some 50) None None].

Definition primaryKeys : list PrimaryKeyInfo.t :=
  [PrimaryKeyInfo.mk "Detail" "DetailID" 2;
   PrimaryKeyInfo.mk "Product" "ProductID" 1;
   PrimaryKeyInfo.mk "Detail" "OrderID" 1].

Definition rows : list Row := [[("one", JNum 1)]].

(** The database answers every request and counts them; a later table
    list has one more table; the batch of [db.select] knows two
    statements. *)
Definition host : Host nat :=
  mkHost
    (fun _ w => (inr (tables w), S w))
    (fun _ w => (inr productColumns, S w))
    (fun _ w => (inr primaryKeys, S w))
    (fun _ w => (inr [], S w))
    (fun req w =>
       (match queryText req with
        | CappedBatch _ q =>
            if String.eqb q "SELECT 1" then inr (Some rows)
            else if String.eqb q "WITH nothing" then inr None
            else inl "Invalid object name."
        | _ => inl "Not a batch."
        end, S w))
    None
    None
    (fun _ => "2026-01-01T00:00:00.000Z")
    (fun _ => true).

Definition start : Process nat := initial 0%nat.

End Fixture.

(** ** Start-up ([src/index.ts], lines 49-63) *)

(** What [bootstrap] comes to: [app.listen] is reached, or the [catch]
    logs the error and the server never listens. *)
Inductive Startup :=
| Listening
| NotStarted (error : string).

Section Startup.
Context {World : Type} (host : Host World).

(** [bootstrap]: prime the table cache, then listen. *)
Definition bootstrap (p : Process World) : Startup * Process World :=
  match getTables host p with
  | (Resolved _, p') => (Listening, p')
  | (Rejected e, p') => (NotStarted e, p')
  end.

End Startup.

(** ** Further notions *)

(** The text behind the first [n] characters. *)
Fixpoint dropStr (n : nat) (s : string) : string :=
  match n, s with
  | O, _ => s
  | S _, EmptyString => EmptyString
  | S k, String _ r => dropStr k r
  end.

(** Some position of the text carries a match of the expression. *)
Fixpoint matchesSomewhere (matchAt : string -> option nat) (s : string) : bool :=
  match matchAt s with Some (S _) => true | _ => false end
  || match s with
     | EmptyString => false
     | String _ r => matchesSomewhere matchAt r
     end.

Definition isTablesRequest (r : SqlRequest) : bool :=
  match queryText r with TablesQuery => true | _ => false end.

Definition primaryKeysRequest (schema : string) : SqlRequest :=
  mkRequest PrimaryKeysQuery [("schema", schema)].

Definition foreignKeysRequest (schema : string) : SqlRequest :=
  mkRequest ForeignKeysQuery [("schema", schema)].

(** The outcome of a request as the caller of [SQLClient.query] sees it. *)
Definition settle {T : Type} (r : string + T) : Settled T :=
  match r with inl e => Rejected e | inr v => Resolved v end.

(** The schema does not change: the answer to a table or column request
    does not depend on when it is asked. *)
Definition stableSchema {World : Type} (host : Host World) : Prop :=
  (forall req w w', fst (queryTableInfo host req w) = fst (queryTableInfo host req w')) /\
  (forall req w w', fst (queryColumnInfo host req w) = fst (queryColumnInfo host req w')).

(** What the caches hold is what the database answers, whenever asked. *)
Definition cachesCoherent {World : Type} (host : Host World) (c : Caches) : Prop :=
  (forall v, tablesCache c = Some v ->
     forall w, fst (queryTableInfo host (tablesRequest (getTargetSchema host)) w) = inr v) /\
  (forall t v, columnsCache c !! cacheKey (getTargetSchema host) t = Some v ->
     forall w, fst (queryColumnInfo host (columnsRequest (getTargetSchema host) t) w) = inr v).

(** A request the tools are meant to send: one of the four metadata
    statements with the configured schema as parameter, or a capped batch
    around a statement that passes the guard. *)
Definition guardedRequest (schema : string) (r : SqlRequest) : Prop :=
  match queryText r with
  | CappedBatch limit q => guard q = Passed q /\ limit <= 200 /\ params r = []
  | ColumnsQuery => exists t, params r = [("schema", schema); ("tableName", t)]
  | _ => params r = [("schema", schema)]
  end.

(** The process with both caches emptied. *)
Definition cleared {World : Type} (p : Process World) : Process World :=
  mkProcess (mkCaches None ∅) (world p) (sent p).

(** ** Two more databases for the examples *)

(** A database that is out of reach: every request fails. *)
Module Outage.

Definition host : Host nat :=
  mkHost
    (fun _ w => (inl "Connection lost.", S w))
    (fun _ w => (inl "Connection lost.", S w))
    (fun _ w => (inl "Connection lost.", S w))
    (fun _ w => (inl "Connection lost.", S w))
    (fun _ w => (inl "Connection lost.", S w))
    None
    None
    (fun _ => "2026-01-01T00:00:00.000Z")
    (fun _ => true).

End Outage.

(** A database whose schema stays as it is; its column request fails for
    the table [Detail]. *)
Module Steady.

Definition host : Host nat :=
  mkHost
    (fun _ w => (inr (Fixture.tables 0), S w))
    (fun req w =>
       (if String.eqb (default EmptyString (snd <$> List.nth_error (params req) 1)) "Detail"
        then inl "Timeout."
        else inr Fixture.productColumns, S w))
    (fun _ w => (inr Fixture.primaryKeys, S w))
    (fun _ w => (inr [], S w))
    (fun _ w => (inr (Some Fixture.rows), S w))
    (Some "SalesLT")
    (Some "SalesLT")
    (fun _ => "2026-01-01T00:00:00.000Z")
    (fun _ => true).

End Steady.

(** ** Text of the ASCII range *)

(** Every code unit of the text is below 128.  On such text [toUpperCase]
    and [trim] of the engine are the functions of [JS]. *)
Fixpoint isAsciiText (s : string) : bool :=
  match s with
  | EmptyString => true
  | String c r => (nat_of_ascii c <? 128)%nat && isAsciiText r
  end.

Definition isPrimaryKeysRequest (r : SqlRequest) : bool :=
  match queryText r with PrimaryKeysQuery => true | _ => false end.

(** ** Overlapping lookups ([src/features/schema.ts], the [await] of lines
    82, 100 and 119) *)

(** A lookup of [SchemaService] that has reached an [await] and waits
    there, with what it holds on to:
      - in [getTables] at line 82, for the rows of the table list, on
        behalf of [getTableSchema caller] waiting at line 100 when there
        is a [caller];
      - in [getTableSchema] at line 100, for a [getTables] that found the
        list in the cache;
      - in [getTableSchema] at line 119, for the rows of the columns.
    The answer of the database is fixed when the request is sent and is
    held until the lookup resumes. *)
Inductive Waiting :=
| AtLine82 (answer : string + list TableInfo.t) (caller : option string)
| AtLine100 (tableName : string) (tables : list TableInfo.t)
| AtLine119 (tableName : string) (answer : string + list ColumnInfo.t).

(** The process together with the lookups in flight. *)
Record Overlapped (World : Type) := mkOverlapped {
  process : Process World;
  waiting : list Waiting }.

Arguments mkOverlapped {World}.
Arguments process {World}.
Arguments waiting {World}.

Section Overlap.
Context {World : Type} (host : Host World).

(** [SQLClient.query] up to its answer: the request leaves the process. *)
Definition sendRequest {T : Type} (exec : SqlRequest -> World -> (string + T) * World)
    (req : SqlRequest) (p : Process World) : (string + T) * Process World :=
  let '(answer, w) := exec req (world p) in
  (answer, mkProcess (caches p) w (sent p ++ [req])).

(** Line 83: [this.tablesCache = result.recordset]. *)
Definition storeTables (tables : list TableInfo.t) (p : Process World) : Process World :=
  mkProcess (mkCaches (Some tables) (columnsCache (caches p))) (world p) (sent p).

(** Line 123: [this.columnsCache.set(key, result.recordset)]. *)
Definition storeColumns (tableName : string) (columns : list ColumnInfo.t)
    (p : Process World) : Process World :=
  mkProcess
    (mkCaches (tablesCache (caches p))
       (<[cacheKey (getTargetSchema host) tableName := columns]> (columnsCache (caches p))))
    (world p) (sent p).

(** [getTables] up to its first [await] (lines 68-82): the cached list, or
    the request is sent and the lookup waits. *)
Definition startGetTables (s : Overlapped World)
  : option (list TableInfo.t) * Overlapped World :=
  match tablesCache (caches (process s)) with
  | Some tables => (Some tables, s)
  | None =>
      let '(answer, p) :=
        sendRequest (queryTableInfo host) (tablesRequest (getTargetSchema host)) (process s) in
      (None, mkOverlapped p (waiting s ++ [AtLine82 answer None]))
  end.

(** [getTableSchema] up to its first [await] (lines 91-100): the cached
    columns, or the lookup waits for [getTables]. *)
Definition startGetTableSchema (tableName : string) (s : Overlapped World)
  : option (list ColumnInfo.t) * Overlapped World :=
  match columnsCache (caches (process s)) !! cacheKey (getTargetSchema host) tableName with
  | Some cached => (Some cached, s)
  | None =>
      match tablesCache (caches (process s)) with
      | Some tables =>
          (None, mkOverlapped (process s) (waiting s ++ [AtLine100 tableName tables]))
      | None =>
          let '(answer, p) :=
            sendRequest (queryTableInfo host) (tablesRequest (getTargetSchema host))
              (process s) in
          (None, mkOverlapped p (waiting s ++ [AtLine82 answer (Some tableName)]))
      end
  end.

(** The lookup at position [i] goes on to its next [await] or to its end:
    lines 83-84 and 100 after the table list, lines 101-119 after
    [getTables], lines 123-124 after the columns.  A failed request ends the
    lookup. *)
Definition resume (i : nat) (s : Overlapped World) : Overlapped World :=
  match waiting s !! i with
  | None => s
  | Some (AtLine82 (inl _) _) => mkOverlapped (process s) (delete i (waiting s))
  | Some (AtLine82 (inr tables) None) =>
      mkOverlapped (storeTables tables (process s)) (delete i (waiting s))
  | Some (AtLine82 (inr tables) (Some tableName)) =>
      mkOverlapped (storeTables tables (process s))
        (<[i := AtLine100 tableName tables]> (waiting s))
  | Some (AtLine100 tableName tables) =>
      if listed (getTargetSchema host) tableName tables then
        let '(answer, p) :=
          sendRequest (queryColumnInfo host)
            (columnsRequest (getTargetSchema host) tableName) (process s) in
        mkOverlapped p (<[i := AtLine119 tableName answer]> (waiting s))
      else mkOverlapped (process s) (delete i (waiting s))
  | Some (AtLine119 _ (inl _)) => mkOverlapped (process s) (delete i (waiting s))
  | Some (AtLine119 tableName (inr columns)) =>
      mkOverlapped (storeColumns tableName columns (process s)) (delete i (waiting s))
  end.

(** The handler of [db.describeTable] up to its first [await]
    ([schemaTools.ts], lines 40-43): the two members of [Promise.all] are
    started, the lookup first, and the primary-key request leaves while the
    lookup waits. *)
Definition startDescribeTable (tableName : string) (s : Overlapped World)
  : Overlapped World :=
  let s1 := snd (startGetTableSchema tableName s) in
  mkOverlapped
    (snd (sendRequest (queryPrimaryKeyInfo host)
            (primaryKeysRequest (getTargetSchema host)) (process s1)))
    (waiting s1).

End Overlap.

(** What can happen while lookups are in flight: a whole call that runs to
    its end (an event of [step]), the start of a lookup, or the next stretch
    of a lookup that waits.  For the caches, a tool handler in flight is the
    lookup it has started; its key requests do not touch them. *)
Inductive Event (World : Type) :=
| Calls (op : Op World)
| StartsGetTables
| StartsGetTableSchema (tableName : string)
| Resumes (i : nat).

Arguments Calls {World}.
Arguments StartsGetTables {World}.
Arguments StartsGetTableSchema {World}.
Arguments Resumes {World}.

Definition isClearCacheEvent {World} (ev : Event World) : bool :=
  match ev with Calls op => isClearCache op | _ => false end.

Section OverlappedRuns.
Context {World : Type} (host : Host World).

Definition stepOverlapped (s : Overlapped World) (ev : Event World) : Overlapped World :=
  match ev with
  | Calls op => mkOverlapped (step host (process s) op) (waiting s)
  | StartsGetTables => snd (startGetTables host s)
  | StartsGetTableSchema t => snd (startGetTableSchema host t s)
  | Resumes i => resume host i s
  end.

Definition runOverlapped (events : list (Event World)) (s : Overlapped World)
  : Overlapped World :=
  fold_left stepOverlapped events s.

End OverlappedRuns.

(** The lookup waits in [getTables] and will store a table list. *)
Definition awaitsTableList (w : Waiting) : bool :=
  match w with AtLine82 _ _ => true | _ => false end.

(** The lookup is a [getTableSchema tableName] that missed the cache. *)
Definition awaitsColumnsOf (tableName : string) (w : Waiting) : bool :=
  match w with
  | AtLine82 _ (Some t) | AtLine100 t _ | AtLine119 t _ => String.eqb t tableName
  | AtLine82 _ None => false
  end.

(** ** Two more databases, for the races *)

(** A database that loses the primary-key request, and loses it before
    anything else fails. *)
Module Racing.

Definition host : Host nat :=
  mkHost
    (fun _ w => (inr (Fixture.tables 0), S w))
    (fun _ w => (inr Fixture.productColumns, S w))
    (fun _ w => (inl "Connection lost.", S w))
    (fun _ w => (inr [], S w))
    (fun _ w => (inr (Some Fixture.rows), S w))
    None
    None
    (fun _ => "2026-01-01T00:00:00.000Z")
    (fun _ => false).

End Racing.

(** A database whose table [Product] gains a column: from state 5 on the
    column request answers with three columns. *)
Module Migration.

Definition columns (w : nat) : list ColumnInfo.t :=
  Fixture.productColumns
  ++ (if (w <? 5)%nat then [] else [ColumnInfo.mk "Color" "nvarchar" YES (Some 15) None None]).

Definition host : Host nat :=
  mkHost
    (fun _ w => (inr (Fixture.tables 0), S w))
    (fun _ w => (inr (columns w), S w))
    (fun _ w => (inr Fixture.primaryKeys, S w))
    (fun _ w => (inr [], S w))
    (fun _ w => (inr (Some Fixture.rows), S w))
    None
    None
    (fun _ => "2026-01-01T00:00:00.000Z")
    (fun _ => true).

(** Two lookups of the columns of [Product] overlap while the table gains
    its column: with the table list cached, the first sends its request
    before the change and the second after it, and the first answer comes
    back first. *)
Definition lookups : list (Event nat) :=
  [Calls GetTables;
   StartsGetTableSchema "Product"; Resumes 0;
   Calls (DatabaseChanges 9%nat);
   StartsGetTableSchema "Product"; Resumes 1;
   Resumes 0].

Definition afterFirstAnswer : Overlapped nat :=
  runOverlapped host lookups (mkOverlapped (initial 0%nat) []).

Definition afterSecondAnswer : Overlapped nat :=
  runOverlapped host [Resumes 0%nat] afterFirstAnswer.

End Migration.

(** Case analysis on the 256 characters. *)
Ltac each_char c := destruct c as [[] [] [] [] [] [] [] []]; try reflexivity; try discriminate.

(** * Properties *)

(** ** Sorting *)

Section SortFacts.
Context {A : Type} (cmp : A -> A -> Z).

Lemma sortInsert_Permutation (x : A) (l : list A) :
  Permutation (sortInsert cmp x l) (x :: l).
Proof.
  induction l as [|y r IH]; simpl; [reflexivity|].
  destruct (cmp x y <=? 0); [reflexivity|].
  rewrite IH. apply perm_swap.
Qed.

Lemma sort_Permutation (l : list A) : Permutation (sort cmp l) l.
Proof.
  induction l as [|x r IH]; simpl; [constructor|].
  rewrite sortInsert_Permutation. now constructor.
Qed.

Context (key : A -> Z) (cmp_key : forall a b, cmp a b = key a - key b).

Lemma sortInsert_sorted (x : A) (l : list A) :
  StronglySorted (keyLe key) l -> StronglySorted (keyLe key) (sortInsert cmp x l).
Proof.
  induction 1 as [|y r Hr IH Hy]; simpl.
  - repeat constructor.
  - rewrite cmp_key. destruct (Z.leb_spec (key x - key y) 0) as [Hle|Hgt].
    + constructor; [now constructor|].
      constructor; [unfold keyLe; lia|].
      eapply List.Forall_impl; [|exact Hy]. unfold keyLe. intros; lia.
    + constructor; [exact IH|].
      eapply Permutation_Forall; [symmetry; apply sortInsert_Permutation|].
      constructor; [unfold keyLe; lia | exact Hy].
Qed.

Lemma sort_sorted (l : list A) : StronglySorted (keyLe key) (sort cmp l).
Proof.
  induction l as [|x r IH]; simpl; [constructor | now apply sortInsert_sorted].
Qed.

End SortFacts.

(** Two orderings of the same elements agree when the order tells the
    elements apart. *)
Lemma sorted_Permutation_eq {A : Type} (R : A -> A -> Prop) (l1 l2 : list A) :
  (forall a b, In a l1 -> In b l1 -> R a b -> R b a -> a = b) ->
  StronglySorted R l1 -> StronglySorted R l2 -> Permutation l1 l2 -> l1 = l2.
Proof.
  revert l2. induction l1 as [|a r1 IH]; intros l2 Hanti H1 H2 HP.
  - apply Permutation_nil in HP. now subst.
  - destruct l2 as [|b r2]; [apply Permutation_sym, Permutation_nil in HP; discriminate|].
    inversion H1 as [|? ? Hs1 Ha]; subst. inversion H2 as [|? ? Hs2 Hb]; subst.
    assert (a = b) as ->.
    { assert (In b (a :: r1)) as Hin by (eapply Permutation_in; [symmetry; exact HP | now left]).
      assert (In a (b :: r2)) as Hin' by (eapply Permutation_in; [exact HP | now left]).
      destruct Hin as [?|Hin]; [assumption|].
      destruct Hin' as [?|Hin']; [congruence|].
      rewrite List.Forall_forall in Ha, Hb.
      apply Hanti; [now left | now right | now apply Ha | now apply Hb]. }
    f_equal. apply IH; try assumption.
    + intros x y Hx Hy. apply Hanti; now right.
    + eapply Permutation_cons_inv; exact HP.
Qed.

(** ** Asynchronous computations *)

Section AsyncFacts.
Context {World : Type}.

Lemma all2_Resolved {A B : Type} (first : World -> bool)
    (m1 : Async World A) (m2 : Async World B)
    (p p' : Process World) (a : A) (b : B) :
  all2 first m1 m2 p = (Resolved (a, b), p') ->
  m1 p = (Resolved a, snd (m1 p)) /\ m2 (snd (m1 p)) = (Resolved b, p').
Proof.
  unfold all2. destruct (m1 p) as [r1 p1]. simpl. destruct (m2 p1) as [r2 p2].
  destruct r1, r2; intros H; inversion H; subst; auto.
Qed.

(** A rejected [Promise.all] carries the error of one of its members: of
    the first one when the second does not fail, and when the first one
    failed without sending a request. *)
Lemma all2_Rejected_left {A B : Type} (first : World -> bool)
    (m1 : Async World A) (m2 : Async World B) (p : Process World) (e : string) :
  fst (m1 p) = Rejected e ->
  exists reason,
    all2 first m1 m2 p = (Rejected reason, snd (m2 (snd (m1 p)))) /\
    (reason = e \/ fst (m2 (snd (m1 p))) = Rejected reason) /\
    (forall b, fst (m2 (snd (m1 p))) = Resolved b -> reason = e) /\
    (sent (snd (m1 p)) = sent p -> reason = e).
Proof.
  unfold all2. destruct (m1 p) as [r1 p1]. simpl. intros ->.
  destruct (m2 p1) as [[b|e2] p2]; simpl.
  - exists e. auto.
  - exists (if quiet p p1 || first (world p2) then e else e2). split; [reflexivity|].
    split; [destruct (quiet p p1 || first (world p2)); auto|].
    split; [discriminate|].
    intros S. unfold quiet. now rewrite S, Nat.eqb_refl.
Qed.

Lemma all2_snd {A B : Type} (first : World -> bool)
    (m1 : Async World A) (m2 : Async World B) (p : Process World) :
  snd (all2 first m1 m2 p) = snd (m2 (snd (m1 p))).
Proof.
  unfold all2. destruct (m1 p) as [r1 p1]. simpl. destruct (m2 p1) as [r2 p2].
  now destruct r1, r2.
Qed.

Lemma all3_snd {A B C : Type} (first : World -> bool)
    (m1 : Async World A) (m2 : Async World B)
    (m3 : Async World C) (p : Process World) :
  snd (all3 first m1 m2 m3 p) = snd (m3 (snd (m2 (snd (m1 p))))).
Proof.
  unfold all3. rewrite <- (all2_snd first m1 m2 p).
  destruct (all2 first m1 m2 p) as [r12 p2]. simpl.
  destruct (m3 p2) as [r3 p3]. now destruct r12, r3.
Qed.

Lemma SQLClient_query_caches {T : Type}
    (exec : SqlRequest -> World -> (string + T) * World) (req : SqlRequest)
    (p : Process World) :
  caches (snd (SQLClient_query exec req p)) = caches p.
Proof. unfold SQLClient_query. now destruct (exec req (world p)). Qed.

End AsyncFacts.

(** ** The bounded executor *)

Section QueryToolsFacts.
Context {World : Type} (host : Host World).

Lemma db_select_refused sql maxRows text (p : Process World) :
  guard sql = Refused text ->
  db_select host sql maxRows p = (Resolved (errorResult text), p).
Proof. intros H. unfold db_select. now rewrite H. Qed.

Lemma db_select_passed sql maxRows q (p : Process World) :
  guard sql = Passed q ->
  let req := mkRequest (CappedBatch (rowLimit maxRows) q) [] in
  db_select host sql maxRows p =
    (Resolved
       match fst (queryUnknown host req (world p)) with
       | inl e => errorResult ("SQL Error: " +:+ e)
       | inr recordset =>
           textResult (JSON_stringify
             (SelectPayload (Z.of_nat (List.length (default [] recordset)))
                (rowLimit maxRows) (default [] recordset)))
       end,
     mkProcess (caches p) (snd (queryUnknown host req (world p))) (sent p ++ [req])).
Proof.
  intros H req. unfold db_select. rewrite H. fold req.
  unfold tryCatch, bind, SQLClient_query, ret.
  destruct (queryUnknown host req (world p)) as [[e|[rs|]] w]; reflexivity.
Qed.

Lemma db_select_resolves sql maxRows (p : Process World) :
  exists r, fst (db_select host sql maxRows p) = Resolved r.
Proof.
  destruct (guard sql) as [text|q] eqn:G.
  - rewrite (db_select_refused _ _ _ _ G). eauto.
  - rewrite (db_select_passed _ _ _ _ G). eauto.
Qed.

Lemma db_select_caches sql maxRows (p : Process World) :
  caches (snd (db_select host sql maxRows p)) = caches p.
Proof.
  destruct (guard sql) as [text|q] eqn:G.
  - now rewrite (db_select_refused _ _ _ _ G).
  - now rewrite (db_select_passed _ _ _ _ G).
Qed.

End QueryToolsFacts.

Lemma rowLimit_le_200 (maxRows : option Z) : rowLimit maxRows <= 200.
Proof. unfold rowLimit. lia. Qed.

Lemma rowLimit_valid (maxRows : option Z) :
  zodAccepts (z_optional (z_number_int 1 200)) (JNum <$> maxRows) = true ->
  rowLimit maxRows = default 100 maxRows /\ 1 <= rowLimit maxRows <= 200.
Proof.
  unfold rowLimit. destruct maxRows as [n|]; simpl; [|lia].
  rewrite andb_true_iff, !Z.leb_le. lia.
Qed.

(** A result of [db.select] without the error flag is the payload built
    from what the executor returned for the capped batch. *)
Lemma db_select_success
    {World : Type} (host : Host World) (sql : string) (maxRows : option Z)
    (p p' : Process World) (r : ToolResult) :
  db_select host sql maxRows p = (Resolved r, p') ->
  isError r = false ->
  exists q recordset,
    guard sql = Passed q /\
    fst (queryUnknown host (mkRequest (CappedBatch (rowLimit maxRows) q) []) (world p))
      = inr recordset /\
    r = textResult (JSON_stringify
          (SelectPayload (Z.of_nat (List.length (default [] recordset)))
             (rowLimit maxRows) (default [] recordset))).
Proof.
  intros Hrun Hok.
  destruct (guard sql) as [text|q] eqn:G.
  - rewrite (db_select_refused host _ _ _ _ G) in Hrun.
    injection Hrun as <- _. discriminate Hok.
  - rewrite (db_select_passed host _ _ _ _ G) in Hrun.
    injection Hrun as Hr _.
    destruct (fst (queryUnknown host _ (world p))) as [e|recordset] eqn:Q.
    + subst r. discriminate Hok.
    + now exists q, recordset.
Qed.

(** C10.  In every successful response of [db.select] the reported
    [rowCount] is the number of records of [data]; when the executor gives
    no record set, [rowCount] is 0 and [data] is the empty list. *)
Theorem db_select_rowCount_is_data_length
    {World : Type} (host : Host World) (sql : string) (maxRows : option Z)
    (p p' : Process World) (r : ToolResult) :
  db_select host sql maxRows p = (Resolved r, p') ->
  isError r = false ->
  exists q recordset,
    guard sql = Passed q /\
    fst (queryUnknown host (mkRequest (CappedBatch (rowLimit maxRows) q) []) (world p))
      = inr recordset /\
    (exists data,
        r = textResult (JSON_stringify
              (SelectPayload (Z.of_nat (List.length data)) (rowLimit maxRows) data)) /\
        data = default [] recordset) /\
    (recordset = None ->
     r = textResult (JSON_stringify (SelectPayload 0 (rowLimit maxRows) []))).
Proof.
  intros Hrun Hok.
  destruct (db_select_success host sql maxRows p p' r Hrun Hok) as (q & recordset & G & Q & ->).
  exists q, recordset. repeat split; trivial.
  - now exists (default [] recordset).
  - now intros ->.
Qed.

(** The statement [WITH nothing] of the example database gives no record
    set: the response counts 0 rows and carries the empty list. *)
Lemma db_select_rowCount_witness :
  exists q recordset,
    guard "WITH nothing" = Passed q /\
    fst (queryUnknown Fixture.host
           (mkRequest (CappedBatch (rowLimit None) q) []) (world Fixture.start))
      = inr recordset /\
    (exists data,
        textResult (JSON_stringify (SelectPayload 0 100 []))
        = textResult (JSON_stringify
              (SelectPayload (Z.of_nat (List.length data)) (rowLimit None) data)) /\
        data = default [] recordset) /\
    (recordset = None ->
     textResult (JSON_stringify (SelectPayload 0 100 []))
     = textResult (JSON_stringify (SelectPayload 0 (rowLimit None) []))).
Proof.
  apply (db_select_rowCount_is_data_length Fixture.host "WITH nothing" None
           Fixture.start (snd (db_select Fixture.host "WITH nothing" None Fixture.start))).
  - vm_compute. reflexivity.
  - reflexivity.
Defined.

(** ** The schema tools *)

Lemma filter_Permutation_bool {A : Type} (f : A -> bool) (l l' : list A) :
  Permutation l l' -> Permutation (List.filter f l) (List.filter f l').
Proof.
  induction 1 as [|x l l' _ IH|x y l|l l' l'' _ IH1 _ IH2]; simpl.
  - constructor.
  - destruct (f x); [now constructor | exact IH].
  - destruct (f x), (f y); try reflexivity. apply perm_swap.
  - now transitivity (List.filter f l').
Qed.

Lemma byKeyOrdinal_key (a b : PrimaryKeyInfo.t) :
  byKeyOrdinal a b = PrimaryKeyInfo.keyOrdinal a - PrimaryKeyInfo.keyOrdinal b.
Proof. reflexivity. Qed.

Lemma primaryKeysOf_Permutation (t : string) (all : list PrimaryKeyInfo.t) :
  Permutation (primaryKeysOf t all)
    (List.filter (fun pk => String.eqb (PrimaryKeyInfo.tableName pk) t) all).
Proof. apply sort_Permutation. Qed.

Lemma primaryKeysOf_sorted (t : string) (all : list PrimaryKeyInfo.t) :
  StronglySorted (keyLe PrimaryKeyInfo.keyOrdinal) (primaryKeysOf t all).
Proof. apply sort_sorted, byKeyOrdinal_key. Qed.

Lemma primaryKeysOf_order_independent (t : string) (all other : list PrimaryKeyInfo.t) :
  Permutation other all ->
  (forall a b, In a (primaryKeysOf t all) -> In b (primaryKeysOf t all) ->
               PrimaryKeyInfo.keyOrdinal a = PrimaryKeyInfo.keyOrdinal b -> a = b) ->
  primaryKeysOf t other = primaryKeysOf t all.
Proof.
  intros HP Hdistinct. symmetry.
  apply (sorted_Permutation_eq (keyLe PrimaryKeyInfo.keyOrdinal)).
  - intros a b Ha Hb Hab Hba. apply Hdistinct; trivial. unfold keyLe in *. lia.
  - apply primaryKeysOf_sorted.
  - apply primaryKeysOf_sorted.
  - rewrite !primaryKeysOf_Permutation. apply filter_Permutation_bool. now symmetry.
Qed.

Section SchemaToolsFacts.
Context {World : Type} (host : Host World).

Lemma db_describeTable_Resolved (t : string) (p p' : Process World) (r : ToolResult) :
  db_describeTable host t p = (Resolved r, p') ->
  exists columns allPrimaryKeys,
    getTableSchema host t p = (Resolved columns, snd (getTableSchema host t p)) /\
    getPrimaryKeys host (snd (getTableSchema host t p)) = (Resolved allPrimaryKeys, p') /\
    r = textResult (JSON_stringify
          (DescribePayload t columns (primaryKeysOf t allPrimaryKeys))).
Proof.
  unfold db_describeTable, bind.
  destruct (all2 _ _ _ p) as [[[columns allPrimaryKeys]|e] p2] eqn:H; [|discriminate].
  unfold ret. intros E. injection E as <- <-.
  apply all2_Resolved in H as [H1 H2]. now exists columns, allPrimaryKeys.
Qed.

(** The handler has no [catch]: a rejected lookup leaves it as a
    rejection, with the error of the lookup unless the lookup had sent a
    request and the primary-key request fails as well, and first. *)
Lemma db_describeTable_Rejected (t e : string) (p : Process World) :
  fst (getTableSchema host t p) = Rejected e ->
  exists reason,
    db_describeTable host t p
      = (Rejected reason, snd (getPrimaryKeys host (snd (getTableSchema host t p)))) /\
    (reason = e \/
     fst (getPrimaryKeys host (snd (getTableSchema host t p))) = Rejected reason) /\
    (forall keys, fst (getPrimaryKeys host (snd (getTableSchema host t p))) = Resolved keys ->
       reason = e) /\
    (sent (snd (getTableSchema host t p)) = sent p -> reason = e).
Proof.
  intros H. unfold db_describeTable, bind.
  destruct (all2_Rejected_left (leftFailsFirst host) (getTableSchema host t)
              (getPrimaryKeys host) p e H) as (reason & -> & D & S & Q).
  now exists reason.
Qed.

Lemma db_describeTable_snd (t : string) (p : Process World) :
  snd (db_describeTable host t p) = snd (getPrimaryKeys host (snd (getTableSchema host t p))).
Proof.
  unfold db_describeTable, bind.
  rewrite <- (all2_snd (leftFailsFirst host) (getTableSchema host t) (getPrimaryKeys host) p).
  destruct (all2 _ _ _ p) as [[[c k]|e] p2]; reflexivity.
Qed.

Lemma db_getDatabaseContext_snd (n : option Z) (p : Process World) :
  snd (db_getDatabaseContext host n p)
    = snd (getForeignKeys host (snd (getPrimaryKeys host (snd (getTables host p))))).
Proof.
  unfold db_getDatabaseContext, bind.
  rewrite <- (all3_snd (leftFailsFirst host) (getTables host) (getPrimaryKeys host)
                (getForeignKeys host) p).
  destruct (all3 _ _ _ _ p) as [[[[a b] c]|e] p2]; reflexivity.
Qed.

End SchemaToolsFacts.

(** C9.  The [primaryKeys] of a response of [db.describeTable] for table
    [t] are the rows of the primary-key list the database returned whose
    [tableName] is [t], in ascending [keyOrdinal]; the order in which the
    database returned the rows does not show in the key order of the
    result. *)
Theorem db_describeTable_primaryKeys_filtered_sorted
    {World : Type} (host : Host World) (t : string) (p p' : Process World)
    (r : ToolResult) :
  db_describeTable host t p = (Resolved r, p') ->
  exists columns allPrimaryKeys primaryKeys,
    r = textResult (JSON_stringify (DescribePayload t columns primaryKeys)) /\
    fst (queryPrimaryKeyInfo host
           (mkRequest PrimaryKeysQuery [("schema", getTargetSchema host)])
           (world (snd (getTableSchema host t p))))
      = inr allPrimaryKeys /\
    Permutation primaryKeys
      (List.filter (fun pk => String.eqb (PrimaryKeyInfo.tableName pk) t) allPrimaryKeys) /\
    StronglySorted (keyLe PrimaryKeyInfo.keyOrdinal) primaryKeys /\
    (forall other, Permutation other allPrimaryKeys ->
       map PrimaryKeyInfo.keyOrdinal (primaryKeysOf t other)
         = map PrimaryKeyInfo.keyOrdinal primaryKeys /\
       ((forall a b, In a primaryKeys -> In b primaryKeys ->
                     PrimaryKeyInfo.keyOrdinal a = PrimaryKeyInfo.keyOrdinal b -> a = b) ->
        primaryKeysOf t other = primaryKeys)).
Proof.
  intros H. apply db_describeTable_Resolved in H as (columns & all & _ & Hpk & ->).
  exists columns, all, (primaryKeysOf t all). split; [reflexivity|].
  split.
  { unfold getPrimaryKeys, SQLClient_query in Hpk.
    destruct (queryPrimaryKeyInfo host _ _) as [[e|v] w]; simpl in *; congruence. }
  split; [apply primaryKeysOf_Permutation|].
  split; [apply primaryKeysOf_sorted|].
  intros other HP. split; [|now apply primaryKeysOf_order_independent].
  apply (sorted_Permutation_eq Z.le).
  - intros a b _ _. lia.
  - clear HP. generalize (primaryKeysOf_sorted t other).
    induction 1 as [|x l _ IH Hx]; simpl; constructor; trivial.
    clear IH. induction Hx; simpl; constructor; trivial.
  - generalize (primaryKeysOf_sorted t all).
    induction 1 as [|x l _ IH Hx]; simpl; constructor; trivial.
    clear IH. induction Hx; simpl; constructor; trivial.
  - apply Permutation_map. rewrite !primaryKeysOf_Permutation.
    now apply filter_Permutation_bool.
Qed.

(** The example database returns the two keys of [Detail] in descending
    order, around a key of another table. *)
Lemma db_describeTable_primaryKeys_witness :
  exists columns allPrimaryKeys primaryKeys,
    textResult (JSON_stringify
      (DescribePayload "Detail" Fixture.productColumns
         [PrimaryKeyInfo.mk "Detail" "OrderID" 1; PrimaryKeyInfo.mk "Detail" "DetailID" 2]))
    = textResult (JSON_stringify (DescribePayload "Detail" columns primaryKeys)) /\
    fst (queryPrimaryKeyInfo Fixture.host
           (mkRequest PrimaryKeysQuery [("schema", getTargetSchema Fixture.host)])
           (world (snd (getTableSchema Fixture.host "Detail" Fixture.start))))
      = inr allPrimaryKeys /\
    Permutation primaryKeys
      (List.filter (fun pk => String.eqb (PrimaryKeyInfo.tableName pk) "Detail")
         allPrimaryKeys) /\
    StronglySorted (keyLe PrimaryKeyInfo.keyOrdinal) primaryKeys /\
    (forall other, Permutation other allPrimaryKeys ->
       map PrimaryKeyInfo.keyOrdinal (primaryKeysOf "Detail" other)
         = map PrimaryKeyInfo.keyOrdinal primaryKeys /\
       ((forall a b, In a primaryKeys -> In b primaryKeys ->
                     PrimaryKeyInfo.keyOrdinal a = PrimaryKeyInfo.keyOrdinal b -> a = b) ->
        primaryKeysOf "Detail" other = primaryKeys)).
Proof.
  apply (db_describeTable_primaryKeys_filtered_sorted Fixture.host "Detail" Fixture.start
           (snd (db_describeTable Fixture.host "Detail" Fixture.start))).
  vm_compute. reflexivity.
Defined.

(** ** The schema cache *)

Lemma append_inj_r (s a b : string) : s +:+ a = s +:+ b -> a = b.
Proof. induction s as [|c s IH]; simpl; intros H; [exact H | injection H as H; auto]. Qed.

Lemma cacheKey_inj (schema t t' : string) :
  cacheKey schema t = cacheKey schema t' -> t = t'.
Proof. unfold cacheKey. intros H. now apply append_inj_r, append_inj_r in H. Qed.

Lemma cachesKept_refl (c : Caches) : cachesKept c c.
Proof. split; auto. Qed.

Lemma cachesKept_trans (c1 c2 c3 : Caches) :
  cachesKept c1 c2 -> cachesKept c2 c3 -> cachesKept c1 c3.
Proof. intros [H1 H2] [H3 H4]. split; auto. Qed.

Section SchemaServiceFacts.
Context {World : Type} (host : Host World).

Local Abbreviation schema := (getTargetSchema host).

Lemma getTables_hit (p : Process World) (v : list TableInfo.t) :
  tablesCache (caches p) = Some v -> getTables host p = (Resolved v, p).
Proof. intros H. unfold getTables, bind, getCaches. now rewrite H. Qed.

Lemma getTables_miss (p : Process World) :
  tablesCache (caches p) = None ->
  getTables host p =
    match queryTableInfo host (tablesRequest schema) (world p) with
    | (inl e, w) => (Rejected e, mkProcess (caches p) w (sent p ++ [tablesRequest schema]))
    | (inr v, w) =>
        (Resolved v,
         mkProcess (mkCaches (Some v) (columnsCache (caches p))) w
           (sent p ++ [tablesRequest schema]))
    end.
Proof.
  intros H. unfold getTables, bind, getCaches. rewrite H.
  unfold SQLClient_query, tablesRequest.
  now destruct (queryTableInfo host _ (world p)) as [[e|v] w].
Qed.

Lemma getTables_populates (p p' : Process World) (v : list TableInfo.t) :
  getTables host p = (Resolved v, p') -> tablesCache (caches p') = Some v.
Proof.
  destruct (tablesCache (caches p)) as [v0|] eqn:C.
  - rewrite (getTables_hit _ _ C). intros H. injection H as <- <-. exact C.
  - rewrite (getTables_miss _ C).
    destruct (queryTableInfo host _ (world p)) as [[e|v1] w]; intros H;
      inversion H; subst; reflexivity.
Qed.

Lemma getTables_sent (p : Process World) :
  sent (snd (getTables host p)) = sent p \/
  sent (snd (getTables host p)) = sent p ++ [tablesRequest schema].
Proof.
  destruct (tablesCache (caches p)) as [v0|] eqn:C.
  - rewrite (getTables_hit _ _ C). now left.
  - rewrite (getTables_miss _ C). right.
    now destruct (queryTableInfo host _ (world p)) as [[e|v1] w].
Qed.

Lemma getTables_kept (p : Process World) :
  cachesKept (caches p) (caches (snd (getTables host p))).
Proof.
  destruct (tablesCache (caches p)) as [v0|] eqn:C.
  - rewrite (getTables_hit _ _ C). apply cachesKept_refl.
  - rewrite (getTables_miss _ C).
    destruct (queryTableInfo host _ (world p)) as [[e|v1] w]; simpl.
    + apply cachesKept_refl.
    + split; simpl; [congruence | auto].
Qed.

Lemma getTables_consistent (p : Process World) :
  cachesConsistent schema (caches p) ->
  cachesConsistent schema (caches (snd (getTables host p))).
Proof.
  intros I. destruct (tablesCache (caches p)) as [v0|] eqn:C.
  - now rewrite (getTables_hit _ _ C).
  - rewrite (getTables_miss _ C).
    destruct (queryTableInfo host _ (world p)) as [[e|v1] w]; simpl; trivial.
    intros t Ht. simpl in Ht. destruct (I t Ht) as (tables & E & _). congruence.
Qed.

Lemma getTableSchema_hit (t : string) (p : Process World) (v : list ColumnInfo.t) :
  columnsCache (caches p) !! cacheKey schema t = Some v ->
  getTableSchema host t p = (Resolved v, p).
Proof. intros H. unfold getTableSchema, bind, getCaches. now rewrite H. Qed.

Lemma getTableSchema_miss (t : string) (p : Process World) :
  columnsCache (caches p) !! cacheKey schema t = None ->
  getTableSchema host t p =
    match getTables host p with
    | (Rejected e, p1) => (Rejected e, p1)
    | (Resolved tables, p1) =>
        if listed schema t tables then
          match queryColumnInfo host (columnsRequest schema t) (world p1) with
          | (inl e, w) =>
              (Rejected e, mkProcess (caches p1) w (sent p1 ++ [columnsRequest schema t]))
          | (inr v, w) =>
              (Resolved v,
               mkProcess
                 (mkCaches (tablesCache (caches p1))
                    (<[cacheKey schema t := v]> (columnsCache (caches p1))))
                 w (sent p1 ++ [columnsRequest schema t]))
          end
        else (Rejected (notFoundMessage schema t), p1)
    end.
Proof.
  intros H. unfold getTableSchema, bind at 1, getCaches at 1. rewrite H.
  unfold bind at 1. destruct (getTables host p) as [[tables|e] p1]; [|reflexivity].
  destruct (listed schema t tables); [|reflexivity]. simpl.
  unfold bind, SQLClient_query, columnsRequest.
  now destruct (queryColumnInfo host _ (world p1)) as [[e|v] w].
Qed.

Lemma getTableSchema_populates (t : string) (p p' : Process World) (v : list ColumnInfo.t) :
  getTableSchema host t p = (Resolved v, p') ->
  columnsCache (caches p') !! cacheKey schema t = Some v.
Proof.
  destruct (columnsCache (caches p) !! cacheKey schema t) as [v0|] eqn:C.
  - rewrite (getTableSchema_hit _ _ _ C). intros H. injection H as <- <-. exact C.
  - rewrite (getTableSchema_miss _ _ C).
    destruct (getTables host p) as [[tables|e] p1]; [|discriminate].
    destruct (listed schema t tables); [|discriminate].
    destruct (queryColumnInfo host _ (world p1)) as [[e|v1] w]; intros H;
      inversion H; subst; simpl. apply lookup_insert_eq.
Qed.

Lemma getTables_columnsCache (p : Process World) :
  columnsCache (caches (snd (getTables host p))) = columnsCache (caches p).
Proof.
  destruct (tablesCache (caches p)) as [v0|] eqn:C.
  - now rewrite (getTables_hit _ _ C).
  - rewrite (getTables_miss _ C).
    now destruct (queryTableInfo host _ (world p)) as [[e|v1] w].
Qed.

Lemma getTableSchema_kept (t : string) (p : Process World) :
  cachesKept (caches p) (caches (snd (getTableSchema host t p))).
Proof.
  destruct (columnsCache (caches p) !! cacheKey schema t) as [v0|] eqn:C.
  - rewrite (getTableSchema_hit _ _ _ C). apply cachesKept_refl.
  - rewrite (getTableSchema_miss _ _ C).
    pose proof (getTables_kept p) as K. pose proof (getTables_columnsCache p) as E.
    destruct (getTables host p) as [[tables|e] p1]; simpl in K, E; [|exact K].
    destruct (listed schema t tables); [|exact K].
    destruct (queryColumnInfo host _ (world p1)) as [[e|v1] w]; simpl; [exact K|].
    eapply cachesKept_trans; [exact K|]. split; simpl; [auto|].
    intros k v Hk. rewrite lookup_insert_ne; [exact Hk|].
    intros <-. rewrite E in Hk. congruence.
Qed.

Lemma getTableSchema_consistent (t : string) (p : Process World) :
  cachesConsistent schema (caches p) ->
  cachesConsistent schema (caches (snd (getTableSchema host t p))).
Proof.
  intros I. destruct (columnsCache (caches p) !! cacheKey schema t) as [v0|] eqn:C.
  - now rewrite (getTableSchema_hit _ _ _ C).
  - rewrite (getTableSchema_miss _ _ C).
    pose proof (getTables_consistent p I) as I1.
    pose proof (getTables_populates p) as P.
    destruct (getTables host p) as [[tables|e] p1]; simpl in I1; [|exact I1].
    specialize (P p1 tables eq_refl).
    destruct (listed schema t tables) eqn:L; [|exact I1].
    destruct (queryColumnInfo host _ (world p1)) as [[e|v1] w]; simpl; [exact I1|].
    intros t' Ht'. simpl in *. destruct (decide (t = t')) as [<-|Hne].
    + now exists tables.
    + rewrite lookup_insert_ne in Ht'; [now apply I1|].
      intros E. now apply cacheKey_inj in E.
Qed.

Lemma getTableSchema_sent (t : string) (p : Process World) :
  exists extra,
    sent (snd (getTableSchema host t p)) = sent p ++ extra.
Proof.
  destruct (columnsCache (caches p) !! cacheKey schema t) as [v0|] eqn:C.
  - rewrite (getTableSchema_hit _ _ _ C). exists []. now rewrite app_nil_r.
  - rewrite (getTableSchema_miss _ _ C).
    destruct (getTables_sent p) as [S|S];
      destruct (getTables host p) as [[tables|e] p1]; simpl in S;
      try destruct (listed schema t tables);
      try destruct (queryColumnInfo host _ (world p1)) as [[e|v1] w]; simpl;
      rewrite S, <- ?app_assoc; eauto; exists []; now rewrite app_nil_r.
Qed.

Lemma getPrimaryKeys_caches (p : Process World) :
  caches (snd (getPrimaryKeys host p)) = caches p.
Proof. apply SQLClient_query_caches. Qed.

Lemma getForeignKeys_caches (p : Process World) :
  caches (snd (getForeignKeys host p)) = caches p.
Proof. apply SQLClient_query_caches. Qed.

Lemma step_kept (p : Process World) (op : Op World) :
  isClearCache op = false -> cachesKept (caches p) (caches (step host p op)).
Proof.
  destruct op; simpl; intros H; try discriminate H.
  - apply getTables_kept.
  - apply getTableSchema_kept.
  - rewrite getPrimaryKeys_caches. apply cachesKept_refl.
  - rewrite getForeignKeys_caches. apply cachesKept_refl.
  - rewrite db_describeTable_snd, getPrimaryKeys_caches. apply getTableSchema_kept.
  - rewrite db_getDatabaseContext_snd, getForeignKeys_caches, getPrimaryKeys_caches.
    apply getTables_kept.
  - rewrite db_select_caches. apply cachesKept_refl.
  - apply cachesKept_refl.
  - apply cachesKept_refl.
Qed.

Lemma run_kept (ops : list (Op World)) (p : Process World) :
  forallb (fun op => negb (isClearCache op)) ops = true ->
  cachesKept (caches p) (caches (run host ops p)).
Proof.
  revert p. induction ops as [|op ops IH]; simpl; intros p H.
  - apply cachesKept_refl.
  - apply andb_true_iff in H as [H1 H2]. apply negb_true_iff in H1.
    eapply cachesKept_trans; [apply step_kept, H1 | apply IH, H2].
Qed.

Lemma step_consistent (p : Process World) (op : Op World) :
  cachesConsistent schema (caches p) -> cachesConsistent schema (caches (step host p op)).
Proof.
  intros I. destruct op; simpl.
  - now apply getTables_consistent.
  - now apply getTableSchema_consistent.
  - now rewrite getPrimaryKeys_caches.
  - now rewrite getForeignKeys_caches.
  - intros t Ht. simpl in Ht. rewrite lookup_empty in Ht. now destruct Ht.
  - rewrite db_describeTable_snd, getPrimaryKeys_caches. now apply getTableSchema_consistent.
  - rewrite db_getDatabaseContext_snd, getForeignKeys_caches, getPrimaryKeys_caches.
    now apply getTables_consistent.
  - now rewrite db_select_caches.
  - exact I.
  - exact I.
Qed.

Lemma reachable_consistent (p : Process World) :
  reachable host p -> cachesConsistent schema (caches p).
Proof.
  intros (w & ops & ->). unfold run.
  assert (cachesConsistent schema (caches (initial w))) as I.
  { intros t Ht. simpl in Ht. rewrite lookup_empty in Ht. now destruct Ht. }
  revert I. generalize (initial w). induction ops as [|op ops IH]; simpl; intros p I.
  - exact I.
  - apply IH. now apply step_consistent.
Qed.

End SchemaServiceFacts.

(** With consistent caches, a table outside the table list misses the
    column cache and stops at the test of line 101. *)
Lemma getTableSchema_unlisted
    {World : Type} (host : Host World) (t : string) (p p1 : Process World)
    (tables : list TableInfo.t) :
  cachesConsistent (getTargetSchema host) (caches p) ->
  getTables host p = (Resolved tables, p1) ->
  listed (getTargetSchema host) t tables = false ->
  getTableSchema host t p = (Rejected (notFoundMessage (getTargetSchema host) t), p1).
Proof.
  intros I G L.
  destruct (columnsCache (caches p) !! cacheKey (getTargetSchema host) t) as [v0|] eqn:C.
  - destruct (I t) as (tables' & E & L'); [now rewrite C|].
    rewrite (getTables_hit host p tables' E) in G. injection G as <- <-. congruence.
  - rewrite (getTableSchema_miss host t p C), G, L. reflexivity.
Qed.

(** C7.  In every state the process can reach, [getTableSchema] of a table
    that is not in the table list of the configured schema (the list
    [getTables] gives in that state) is rejected with a message that names
    the schema and the table, and sends no column request: the only request
    it can send is the one for the table list. *)
Theorem getTableSchema_unlisted_table_not_found
    {World : Type} (host : Host World) (t : string) (p p1 : Process World)
    (tables : list TableInfo.t) :
  reachable host p ->
  getTables host p = (Resolved tables, p1) ->
  listed (getTargetSchema host) t tables = false ->
  getTableSchema host t p
    = (Rejected ("Table not found or not allowed: " +:+ getTargetSchema host +:+ "." +:+ t),
       p1) /\
  (sent p1 = sent p \/ sent p1 = sent p ++ [tablesRequest (getTargetSchema host)]) /\
  List.filter isColumnsRequest (sent p1) = List.filter isColumnsRequest (sent p).
Proof.
  intros R G L. pose proof (reachable_consistent host p R) as I.
  assert (sent p1 = sent p \/ sent p1 = sent p ++ [tablesRequest (getTargetSchema host)]) as S.
  { pose proof (getTables_sent host p) as S. now rewrite G in S. }
  split; [|split; [exact S|]].
  - exact (getTableSchema_unlisted host t p p1 tables I G L).
  - destruct S as [-> | ->]; [reflexivity|].
    rewrite List.filter_app. simpl. apply app_nil_r.
Qed.

(** [Person] is not a table of the example database. *)
Lemma getTableSchema_unlisted_table_witness :
  getTableSchema Fixture.host "Person"
    (run Fixture.host [GetTableSchema "Product"; ClearCache] Fixture.start)
    = (Rejected ("Table not found or not allowed: " +:+ getTargetSchema Fixture.host
                 +:+ "." +:+ "Person"),
       snd (getTables Fixture.host
              (run Fixture.host [GetTableSchema "Product"; ClearCache] Fixture.start))) /\
  (sent (snd (getTables Fixture.host
                (run Fixture.host [GetTableSchema "Product"; ClearCache] Fixture.start)))
   = sent (run Fixture.host [GetTableSchema "Product"; ClearCache] Fixture.start) \/
   sent (snd (getTables Fixture.host
                (run Fixture.host [GetTableSchema "Product"; ClearCache] Fixture.start)))
   = sent (run Fixture.host [GetTableSchema "Product"; ClearCache] Fixture.start)
     ++ [tablesRequest (getTargetSchema Fixture.host)]) /\
  List.filter isColumnsRequest
    (sent (snd (getTables Fixture.host
                  (run Fixture.host [GetTableSchema "Product"; ClearCache] Fixture.start))))
  = List.filter isColumnsRequest
      (sent (run Fixture.host [GetTableSchema "Product"; ClearCache] Fixture.start)).
Proof.
  apply (getTableSchema_unlisted_table_not_found Fixture.host "Person"
           (run Fixture.host [GetTableSchema "Product"; ClearCache] Fixture.start) _
           (Fixture.tables 2)).
  - exists 0%nat, [GetTableSchema "Product"; ClearCache]. reflexivity.
  - vm_compute. reflexivity.
  - reflexivity.
Defined.

(** ** Overlapping lookups *)

Lemma forallb_Forall_true {A : Type} (f : A -> bool) (l : list A) :
  forallb f l = true <-> List.Forall (fun x => f x = true) l.
Proof.
  induction l as [|x l IH]; simpl.
  - split; [constructor | reflexivity].
  - rewrite andb_true_iff, IH. split.
    + intros [H1 H2]. now constructor.
    + intros H. inversion H; subst. now split.
Qed.

Lemma insert_snoc {A : Type} (l : list A) (x y : A) :
  <[List.length l := y]> (l ++ [x]) = l ++ [y].
Proof. induction l as [|a l IH]; simpl; [reflexivity | now rewrite IH]. Qed.

Lemma delete_snoc {A : Type} (l : list A) (x : A) :
  delete (List.length l) (l ++ [x]) = l.
Proof. rewrite delete_middle. apply app_nil_r. Qed.

Lemma lookup_snoc {A : Type} (l : list A) (x : A) :
  (l ++ [x]) !! List.length l = Some x.
Proof. now apply list_lookup_middle. Qed.

Section OverlapFacts.
Context {World : Type} (host : Host World).

Local Abbreviation schema := (getTargetSchema host).

(** *** A lookup that is not interrupted is the call *)

Lemma startGetTables_hit (s : Overlapped World) (tables : list TableInfo.t) :
  tablesCache (caches (process s)) = Some tables ->
  startGetTables host s = (Some tables, s).
Proof. intros H. unfold startGetTables. now rewrite H. Qed.

Lemma startGetTableSchema_hit (t : string) (s : Overlapped World)
    (columns : list ColumnInfo.t) :
  columnsCache (caches (process s)) !! cacheKey schema t = Some columns ->
  startGetTableSchema host t s = (Some columns, s).
Proof. intros H. unfold startGetTableSchema. now rewrite H. Qed.

Lemma resume_done (p : Process World) (l : list Waiting) :
  resume host (List.length l) (mkOverlapped p l) = mkOverlapped p l.
Proof.
  unfold resume. simpl. rewrite (lookup_ge_None_2 l); [reflexivity | lia].
Qed.

(** The lookup started last goes on. *)
Lemma resume_last (p : Process World) (l : list Waiting) (w : Waiting) :
  resume host (List.length l) (mkOverlapped p (l ++ [w])) =
    match w with
    | AtLine82 (inl _) _ => mkOverlapped p l
    | AtLine82 (inr tables) None => mkOverlapped (storeTables tables p) l
    | AtLine82 (inr tables) (Some t) =>
        mkOverlapped (storeTables tables p) (l ++ [AtLine100 t tables])
    | AtLine100 t tables =>
        if listed schema t tables then
          mkOverlapped (snd (sendRequest (queryColumnInfo host) (columnsRequest schema t) p))
            (l ++ [AtLine119 t
                     (fst (sendRequest (queryColumnInfo host) (columnsRequest schema t) p))])
        else mkOverlapped p l
    | AtLine119 _ (inl _) => mkOverlapped p l
    | AtLine119 t (inr columns) => mkOverlapped (storeColumns host t columns p) l
    end.
Proof.
  unfold resume. simpl. rewrite lookup_snoc.
  destruct w as [[e|tables] [t|] | t tables | t [e|columns]];
    rewrite ?delete_snoc, ?insert_snoc; try reflexivity.
  destruct (listed schema t tables); [|reflexivity].
  destruct (sendRequest _ _ p). now rewrite insert_snoc.
Qed.

(** Calls that run one after the other leave nothing in flight. *)
Lemma runOverlapped_calls (ops : list (Op World)) (s : Overlapped World) :
  runOverlapped host (map Calls ops) s
  = mkOverlapped (run host ops (process s)) (waiting s).
Proof.
  revert s. induction ops as [|op ops IH]; intros [p l]; simpl; [reflexivity|].
  apply (IH (mkOverlapped (step host p op) l)).
Qed.

End OverlapFacts.

Section OverlapStability.
Context {World : Type} (host : Host World).

Local Abbreviation schema := (getTargetSchema host).

(** *** What a stretch of a lookup does to the caches *)

Lemma sendRequest_caches {T : Type} (exec : SqlRequest -> World -> (string + T) * World)
    (req : SqlRequest) (p : Process World) :
  caches (snd (sendRequest exec req p)) = caches p.
Proof. unfold sendRequest. now destruct (exec req (world p)). Qed.

(** No lookup in flight will store a table list; none will store columns
    for the table. *)
Local Abbreviation noTableListAwaited :=
  (List.Forall (fun w => negb (awaitsTableList w) = true)).
Local Abbreviation noColumnsAwaited t :=
  (List.Forall (fun w => negb (awaitsColumnsOf t w) = true)).

Lemma Forall_snoc {A : Type} (P : A -> Prop) (l : list A) (x : A) :
  List.Forall P l -> P x -> List.Forall P (l ++ [x]).
Proof. intros H Hx. apply List.Forall_app. split; [exact H | now constructor]. Qed.

Lemma awaitsColumnsOf_other (t t' : string) :
  t' <> t -> String.eqb t' t = false.
Proof. intros N. now apply String.eqb_neq. Qed.

Lemma stepOverlapped_tables (s : Overlapped World) (ev : Event World)
    (tables : list TableInfo.t) :
  isClearCacheEvent ev = false ->
  tablesCache (caches (process s)) = Some tables ->
  noTableListAwaited (waiting s) ->
  tablesCache (caches (process (stepOverlapped host s ev))) = Some tables /\
  noTableListAwaited (waiting (stepOverlapped host s ev)).
Proof.
  intros N C F. destruct ev as [op| |t|i]; simpl.
  - split; [|exact F]. now apply (step_kept host (process s) op N).
  - now rewrite (startGetTables_hit host s tables C).
  - unfold startGetTableSchema. rewrite C.
    destruct (columnsCache _ !! _); simpl; [now split|].
    split; [exact C|]. now apply Forall_snoc.
  - unfold resume. destruct (waiting s !! i) as [w|] eqn:L; [|now split].
    pose proof (Forall_lookup_1 _ _ _ _ F L) as Hw. simpl in Hw.
    destruct w as [a c | t tables' | t [e|columns]]; simpl in Hw; try discriminate Hw.
    + destruct (listed schema t tables'); simpl.
      * pose proof (sendRequest_caches (queryColumnInfo host) (columnsRequest schema t)
                      (process s)) as K.
        destruct (sendRequest _ _ (process s)) as [answer p]. simpl in *.
        split; [now rewrite K|]. now apply Forall_insert.
      * split; [exact C|]. now apply Forall_delete.
    + simpl. split; [exact C|]. now apply Forall_delete.
    + simpl. split; [exact C|]. now apply Forall_delete.
Qed.

Lemma stepOverlapped_columns (s : Overlapped World) (ev : Event World)
    (t : string) (columns : list ColumnInfo.t) :
  isClearCacheEvent ev = false ->
  columnsCache (caches (process s)) !! cacheKey schema t = Some columns ->
  noColumnsAwaited t (waiting s) ->
  columnsCache (caches (process (stepOverlapped host s ev))) !! cacheKey schema t
    = Some columns /\
  noColumnsAwaited t (waiting (stepOverlapped host s ev)).
Proof.
  intros N C F. destruct ev as [op| |t'|i]; simpl.
  - split; [|exact F]. now apply (step_kept host (process s) op N).
  - unfold startGetTables. destruct (tablesCache _); simpl; [now split|].
    pose proof (sendRequest_caches (queryTableInfo host) (tablesRequest schema) (process s))
      as K.
    destruct (sendRequest _ _ (process s)) as [answer p]. simpl in *.
    split; [now rewrite K|]. now apply Forall_snoc.
  - destruct (String.eqb_spec t' t) as [->|Ne].
    + now rewrite (startGetTableSchema_hit host t s columns C).
    + unfold startGetTableSchema.
      destruct (columnsCache _ !! cacheKey schema t'); simpl; [now split|].
      destruct (tablesCache _); simpl.
      * split; [exact C|]. apply Forall_snoc; [exact F|]. simpl.
        now rewrite (awaitsColumnsOf_other t t' Ne).
      * pose proof (sendRequest_caches (queryTableInfo host) (tablesRequest schema)
                      (process s)) as K.
        destruct (sendRequest _ _ (process s)) as [answer p]. simpl in *.
        split; [now rewrite K|]. apply Forall_snoc; [exact F|]. simpl.
        now rewrite (awaitsColumnsOf_other t t' Ne).
  - unfold resume. destruct (waiting s !! i) as [w|] eqn:L; [|now split].
    pose proof (Forall_lookup_1 _ _ _ _ F L) as Hw. simpl in Hw.
    destruct w as [[e|tables] [t'|] | t' tables | t' [e|columns']]; simpl in Hw |- *.
    + split; [exact C|]. now apply Forall_delete.
    + split; [exact C|]. now apply Forall_delete.
    + split; [exact C|]. now apply Forall_insert.
    + split; [exact C|]. now apply Forall_delete.
    + destruct (listed schema t' tables); simpl.
      * pose proof (sendRequest_caches (queryColumnInfo host) (columnsRequest schema t')
                      (process s)) as K.
        destruct (sendRequest _ _ (process s)) as [answer p]. simpl in *.
        split; [now rewrite K|]. now apply Forall_insert.
      * split; [exact C|]. now apply Forall_delete.
    + split; [exact C|]. now apply Forall_delete.
    + split; [|now apply Forall_delete].
      rewrite lookup_insert_ne; [exact C|].
      intros E. apply cacheKey_inj in E. subst t'.
      rewrite String.eqb_refl in Hw. discriminate Hw.
Qed.

Lemma stepOverlapped_populated (s : Overlapped World) (ev : Event World) :
  isClearCacheEvent ev = false ->
  (is_Some (tablesCache (caches (process s))) ->
   is_Some (tablesCache (caches (process (stepOverlapped host s ev))))) /\
  (forall key, is_Some (columnsCache (caches (process s)) !! key) ->
     is_Some (columnsCache (caches (process (stepOverlapped host s ev))) !! key)).
Proof.
  intros N.
  assert (forall p : Process World,
            caches p = caches (process s) ->
            (is_Some (tablesCache (caches (process s))) -> is_Some (tablesCache (caches p))) /\
            (forall key, is_Some (columnsCache (caches (process s)) !! key) ->
               is_Some (columnsCache (caches p) !! key))) as Same.
  { intros p ->. now split. }
  destruct ev as [op| |t|i]; simpl.
  - destruct (step_kept host (process s) op N) as [K1 K2]. split.
    + intros [v Hv]. exists v. now apply K1.
    + intros key [v Hv]. exists v. now apply K2.
  - unfold startGetTables. destruct (tablesCache _) eqn:C; simpl; [now apply Same|].
    pose proof (sendRequest_caches (queryTableInfo host) (tablesRequest schema) (process s))
      as K.
    destruct (sendRequest _ _ (process s)) as [answer p]. simpl in *. now apply Same.
  - unfold startGetTableSchema.
    destruct (columnsCache _ !! _); simpl; [now apply Same|].
    destruct (tablesCache _) eqn:C; simpl; [now apply Same|].
    pose proof (sendRequest_caches (queryTableInfo host) (tablesRequest schema) (process s))
      as K.
    destruct (sendRequest _ _ (process s)) as [answer p]. simpl in *. now apply Same.
  - unfold resume. destruct (waiting s !! i) as [w|]; [|now apply Same].
    destruct w as [[e|tables] [t'|] | t' tables | t' [e|columns']]; simpl.
    + now apply Same.
    + now apply Same.
    + split; [eauto | trivial].
    + split; [eauto | trivial].
    + destruct (listed schema t' tables); simpl; [|now apply Same].
      pose proof (sendRequest_caches (queryColumnInfo host) (columnsRequest schema t')
                    (process s)) as K.
      destruct (sendRequest _ _ (process s)) as [answer p]. simpl in *. now apply Same.
    + now apply Same.
    + split; [trivial|]. intros key H. apply lookup_insert_is_Some'. now right.
Qed.

Lemma runOverlapped_tables (events : list (Event World)) (s : Overlapped World)
    (tables : list TableInfo.t) :
  forallb (fun ev => negb (isClearCacheEvent ev)) events = true ->
  tablesCache (caches (process s)) = Some tables ->
  noTableListAwaited (waiting s) ->
  tablesCache (caches (process (runOverlapped host events s))) = Some tables.
Proof.
  revert s. induction events as [|ev events IH]; simpl; intros s N C F; [exact C|].
  apply andb_true_iff in N as [N1 N2]. apply negb_true_iff in N1.
  destruct (stepOverlapped_tables s ev tables N1 C F) as [C' F']. now apply IH.
Qed.

Lemma runOverlapped_columns (events : list (Event World)) (s : Overlapped World)
    (t : string) (columns : list ColumnInfo.t) :
  forallb (fun ev => negb (isClearCacheEvent ev)) events = true ->
  columnsCache (caches (process s)) !! cacheKey schema t = Some columns ->
  noColumnsAwaited t (waiting s) ->
  columnsCache (caches (process (runOverlapped host events s))) !! cacheKey schema t
    = Some columns.
Proof.
  revert s. induction events as [|ev events IH]; simpl; intros s N C F; [exact C|].
  apply andb_true_iff in N as [N1 N2]. apply negb_true_iff in N1.
  destruct (stepOverlapped_columns s ev t columns N1 C F) as [C' F']. now apply IH.
Qed.

Lemma runOverlapped_populated (events : list (Event World)) (s : Overlapped World) :
  forallb (fun ev => negb (isClearCacheEvent ev)) events = true ->
  (is_Some (tablesCache (caches (process s))) ->
   is_Some (tablesCache (caches (process (runOverlapped host events s))))) /\
  (forall key, is_Some (columnsCache (caches (process s)) !! key) ->
     is_Some (columnsCache (caches (process (runOverlapped host events s))) !! key)).
Proof.
  revert s. induction events as [|ev events IH]; simpl; intros s N; [now split|].
  apply andb_true_iff in N as [N1 N2]. apply negb_true_iff in N1.
  destruct (stepOverlapped_populated s ev N1) as [A1 A2].
  destruct (IH (stepOverlapped host s ev) N2) as [B1 B2]. split; auto.
Qed.

End OverlapStability.

(** C8, as amended.  A hit answers from the cache: it returns the stored
    value and leaves the process as it is, so no request is sent.  Calls may
    overlap at their [await]s.  While [clearCache] is not called, a
    populated table cache (column cache entry) stays populated, and it keeps
    its value as long as no lookup that missed it is in flight: from a
    state with the entry populated and no such lookup waiting, after any
    events other than [clearCache], every [getTables] ([getTableSchema] for
    that table) returns that very value and sends nothing.  Calls that run
    one after the other leave no lookup in flight.  [clearCache] empties
    both caches. *)
Theorem cache_stable_while_no_lookup_in_flight
    {World : Type} (host : Host World) (s : Overlapped World)
    (events : list (Event World)) :
  forallb (fun ev => negb (isClearCacheEvent ev)) events = true ->
  (forall tables,
     tablesCache (caches (process s)) = Some tables ->
     forallb (fun w => negb (awaitsTableList w)) (waiting s) = true ->
     startGetTables host (runOverlapped host events s)
       = (Some tables, runOverlapped host events s) /\
     getTables host (process (runOverlapped host events s))
       = (Resolved tables, process (runOverlapped host events s))) /\
  (forall t columns,
     columnsCache (caches (process s)) !! cacheKey (getTargetSchema host) t = Some columns ->
     forallb (fun w => negb (awaitsColumnsOf t w)) (waiting s) = true ->
     startGetTableSchema host t (runOverlapped host events s)
       = (Some columns, runOverlapped host events s) /\
     getTableSchema host t (process (runOverlapped host events s))
       = (Resolved columns, process (runOverlapped host events s))) /\
  (is_Some (tablesCache (caches (process s))) ->
   is_Some (tablesCache (caches (process (runOverlapped host events s))))) /\
  (forall key,
     is_Some (columnsCache (caches (process s)) !! key) ->
     is_Some (columnsCache (caches (process (runOverlapped host events s))) !! key)) /\
  (forall ops p,
     runOverlapped host (map Calls ops) (mkOverlapped p [])
       = mkOverlapped (run host ops p) []) /\
  caches (process (stepOverlapped host (runOverlapped host events s) (Calls ClearCache)))
    = mkCaches None ∅.
Proof.
  intros N. split; [|split; [|split; [|split; [|split]]]].
  - intros tables C F. apply forallb_Forall_true in F.
    pose proof (runOverlapped_tables host events s tables N C F) as C'.
    split; [now apply startGetTables_hit | now apply getTables_hit].
  - intros t columns C F. apply forallb_Forall_true in F.
    pose proof (runOverlapped_columns host events s t columns N C F) as C'.
    split; [now apply startGetTableSchema_hit | now apply getTableSchema_hit].
  - apply (runOverlapped_populated host events s N).
  - apply (runOverlapped_populated host events s N).
  - intros ops p. apply (runOverlapped_calls host ops (mkOverlapped p [])).
  - reflexivity.
Qed.

(** The columns of [Product] are stored and no lookup is in flight; other
    lookups come and go and the table gains a column: the stored columns
    still come back. *)
Lemma cache_stable_overlapping_witness :
  getTableSchema Migration.host "Product"
    (process
       (runOverlapped Migration.host
          [StartsGetTableSchema "Detail"; Calls (DatabaseChanges 9%nat);
           StartsGetTableSchema "Customer"; Resumes 0; Calls (Select "SELECT 1" None);
           Resumes 1; Resumes 0; StartsGetTableSchema "Product"; Resumes 0]
          (mkOverlapped (run Migration.host [GetTableSchema "Product"] (initial 0%nat)) [])))
  = (Resolved (Migration.columns 1),
     process
       (runOverlapped Migration.host
          [StartsGetTableSchema "Detail"; Calls (DatabaseChanges 9%nat);
           StartsGetTableSchema "Customer"; Resumes 0; Calls (Select "SELECT 1" None);
           Resumes 1; Resumes 0; StartsGetTableSchema "Product"; Resumes 0]
          (mkOverlapped (run Migration.host [GetTableSchema "Product"] (initial 0%nat)) []))) /\
  Migration.columns 1 <> Migration.columns 9.
Proof.
  split; [|discriminate].
  refine (proj2 (proj1 (proj2
            (cache_stable_while_no_lookup_in_flight Migration.host
               (mkOverlapped (run Migration.host [GetTableSchema "Product"] (initial 0%nat)) [])
               [StartsGetTableSchema "Detail"; Calls (DatabaseChanges 9%nat);
                StartsGetTableSchema "Customer"; Resumes 0; Calls (Select "SELECT 1" None);
                Resumes 1; Resumes 0; StartsGetTableSchema "Product"; Resumes 0] _))
            "Product" (Migration.columns 1) _ _)).
  - reflexivity.
  - reflexivity.
  - reflexivity.
Defined.

(** C8, as stated, fails: with two lookups of the same table in flight the
    second answer replaces what the first has stored.  No [clearCache] is
    called, the column cache is populated for [Product] after the first
    answer, and a hit after the first answer gives two columns where a hit
    after the second gives three. *)
Lemma cache_overwritten_counterexample :
  forallb (fun ev => negb (isClearCacheEvent ev)) (Migration.lookups ++ [Resumes 0%nat]) = true /\
  getTableSchema Migration.host "Product" (process Migration.afterFirstAnswer)
    = (Resolved (Migration.columns 1), process Migration.afterFirstAnswer) /\
  getTableSchema Migration.host "Product" (process Migration.afterSecondAnswer)
    = (Resolved (Migration.columns 9), process Migration.afterSecondAnswer) /\
  sent (process Migration.afterSecondAnswer) = sent (process Migration.afterFirstAnswer) /\
  List.length (Migration.columns 1) = 2%nat /\
  List.length (Migration.columns 9) = 3%nat /\
  Migration.columns 1 <> Migration.columns 9.
Proof.
  split; [reflexivity|]. split; [vm_compute; reflexivity|].
  split; [vm_compute; reflexivity|]. split; [vm_compute; reflexivity|].
  split; [reflexivity|]. split; [reflexivity|]. discriminate.
Qed.

(** ** Characters and strings *)

Lemma isWhiteSpace_upperChar (c : ascii) :
  JS.isWhiteSpace (JS.upperChar c) = JS.isWhiteSpace c.
Proof. each_char c. Qed.

Lemma isWordChar_upperChar (c : ascii) :
  JS.isWordChar (JS.upperChar c) = JS.isWordChar c.
Proof. each_char c. Qed.

Lemma isWordChar_not_space (c : ascii) :
  JS.isWordChar c = true -> JS.isWhiteSpace c = false.
Proof. each_char c. Qed.

Lemma append_cons (x : ascii) (a b : string) : String x a +:+ b = String x (a +:+ b).
Proof. reflexivity. Qed.

Lemma append_assoc (a b c : string) : (a +:+ b) +:+ c = a +:+ b +:+ c.
Proof.
  induction a as [|x a IH]; [reflexivity|]. rewrite !append_cons. f_equal. exact IH.
Qed.

Lemma append_empty_r (a : string) : a +:+ "" = a.
Proof.
  induction a as [|x a IH]; [reflexivity|]. rewrite append_cons. f_equal. exact IH.
Qed.

Lemma toUpperCase_append (a b : string) :
  JS.toUpperCase (a +:+ b) = JS.toUpperCase a +:+ JS.toUpperCase b.
Proof.
  induction a as [|x a IH]; [reflexivity|].
  rewrite append_cons. simpl JS.toUpperCase. rewrite append_cons. f_equal. exact IH.
Qed.

Lemma lastChar_cons (c : ascii) (s : string) :
  lastChar (String c s) = Some (default c (lastChar s)).
Proof.
  revert c. induction s as [|x s IH]; intros c; [reflexivity|].
  change (lastChar (String c (String x s))) with (lastChar (String x s)).
  now rewrite IH.
Qed.

Lemma lastChar_append (a b : string) :
  b <> EmptyString -> lastChar (a +:+ b) = lastChar b.
Proof.
  intros Hb. induction a as [|x a IH]; [reflexivity|].
  rewrite append_cons, lastChar_cons, IH. destruct b as [|y b]; [congruence|].
  now rewrite lastChar_cons.
Qed.

Lemma lastChar_toUpperCase (s : string) :
  lastChar (JS.toUpperCase s) = JS.upperChar <$> lastChar s.
Proof.
  induction s as [|x s IH]; [reflexivity|].
  simpl JS.toUpperCase. rewrite !lastChar_cons, IH. now destruct (lastChar s).
Qed.

Lemma headChar_toUpperCase (s : string) :
  JS.headChar (JS.toUpperCase s) = JS.upperChar <$> JS.headChar s.
Proof. now destruct s. Qed.

Lemma nonWord_upper (c : option ascii) : nonWord c -> nonWord (JS.upperChar <$> c).
Proof. unfold nonWord. destruct c as [c|]; simpl; [now rewrite isWordChar_upperChar | trivial]. Qed.

(** ** The word test of the guard *)

Lemma isKeyword_cons (w : string) :
  isKeyword w = true ->
  exists a r, w = String a r /\ JS.isWordChar a = true /\ allWordChars r = true.
Proof.
  unfold isKeyword. destruct w as [|a r]; [discriminate|]. simpl.
  rewrite !andb_true_iff. intros [[Ha Hr] _]. now exists a, r.
Qed.

Lemma isKeyword_upper (w : string) : isKeyword w = true -> JS.toUpperCase w = w.
Proof.
  unfold isKeyword. rewrite !andb_true_iff. intros [_ H]. now apply String.eqb_eq.
Qed.

Lemma allWordChars_last (c : ascii) (r : string) :
  JS.isWordChar c = true -> allWordChars r = true ->
  JS.isWordChar (default c (lastChar r)) = true.
Proof.
  revert c. induction r as [|x r IH]; intros c Hc Hr; [exact Hc|].
  simpl in Hr. apply andb_true_iff in Hr as [Hx Hr].
  rewrite lastChar_cons. simpl. now apply IH.
Qed.

(** The literal, then the boundary: the text goes on with the literal, and
    what follows is no word character. *)
Lemma literalThenBoundary_spec (w s : string) (c prev : ascii) :
  JS.isWordChar c = true -> allWordChars w = true ->
  JS.literalThenBoundary (Some prev) w s = true ->
  JS.isWordChar prev = true ->
  exists post, s = w +:+ post /\ nonWord (JS.headChar post).
Proof.
  intros _ Hw. revert s prev. induction w as [|a w IH]; intros s prev H Hp.
  - exists s. split; [reflexivity|]. simpl in H. unfold JS.wordBoundary in H.
    simpl in H. rewrite Hp in H. unfold nonWord.
    now destruct (from_option JS.isWordChar false (JS.headChar s)).
  - simpl in Hw. apply andb_true_iff in Hw as [Ha Hw].
    destruct s as [|b s]; [discriminate|]. simpl in H.
    apply andb_true_iff in H as [E H]. apply Ascii.eqb_eq in E. subst b.
    destruct (IH Hw s a H Ha) as (post & -> & Hpost). now exists post.
Qed.

Lemma literalThenBoundary_intro (w post : string) (prev : ascii) :
  allWordChars w = true -> JS.isWordChar prev = true -> nonWord (JS.headChar post) ->
  JS.literalThenBoundary (Some prev) w (w +:+ post) = true.
Proof.
  revert prev. induction w as [|a w IH]; intros prev Hw Hp Hpost.
  - simpl. unfold JS.wordBoundary. simpl. rewrite Hp. unfold nonWord in Hpost.
    change ("" +:+ post) with post. now rewrite Hpost.
  - simpl in Hw. apply andb_true_iff in Hw as [Ha Hw].
    rewrite append_cons. simpl. rewrite Ascii.eqb_refl. simpl. now apply IH.
Qed.

Lemma keywordAt_spec (w s : string) (prev : option ascii) :
  isKeyword w = true ->
  JS.literalThenBoundary prev w s = true <->
  exists post, s = w +:+ post /\ nonWord (JS.headChar post).
Proof.
  intros K. destruct (isKeyword_cons w K) as (a & r & -> & Ha & Hr). split.
  - destruct s as [|b s]; [discriminate|]. simpl.
    intros H. apply andb_true_iff in H as [E H]. apply Ascii.eqb_eq in E. subst b.
    destruct (literalThenBoundary_spec r s a a Ha Hr H Ha) as (post & -> & Hpost).
    now exists post.
  - intros (post & -> & Hpost). rewrite append_cons. simpl.
    rewrite Ascii.eqb_refl. simpl. now apply literalThenBoundary_intro.
Qed.

Lemma wordsAt_spec (words : list string) (prev : option ascii) (s : string) :
  forallb isKeyword words = true ->
  JS.wordsAt words prev s = true <->
  nonWord prev /\
  exists w, In w words /\ exists post, s = w +:+ post /\ nonWord (JS.headChar post).
Proof.
  intros K. rewrite List.forallb_forall in K. unfold JS.wordsAt.
  rewrite andb_true_iff, List.existsb_exists. split.
  - intros [B (w & Hin & L)]. apply (keywordAt_spec w s prev (K w Hin)) in L as L'.
    destruct L' as (post & -> & Hpost).
    destruct (isKeyword_cons w (K w Hin)) as (a & r & -> & Ha & _).
    split; [|exists (String a r); eauto].
    rewrite append_cons in B. unfold JS.wordBoundary in B. simpl in B. rewrite Ha in B.
    unfold nonWord. now destruct (from_option JS.isWordChar false prev).
  - intros [Hp (w & Hin & post & -> & Hpost)]. split.
    + destruct (isKeyword_cons w (K w Hin)) as (a & r & -> & Ha & _).
      rewrite append_cons. unfold JS.wordBoundary. simpl. rewrite Ha.
      unfold nonWord in Hp. now rewrite Hp.
    + exists w. split; [exact Hin|]. apply keywordAt_spec; eauto.
Qed.

Lemma testWordsGo_spec (words : list string) (prev : option ascii) (s : string) :
  forallb isKeyword words = true ->
  JS.testWordsGo words prev s = true <->
  exists w, In w words /\ exists pre post,
    s = pre +:+ w +:+ post /\
    nonWord (from_option Some prev (lastChar pre)) /\ nonWord (JS.headChar post).
Proof.
  intros K. revert prev. induction s as [|c s IH]; intros prev.
  - simpl. rewrite orb_false_r, (wordsAt_spec words prev "" K). split.
    + intros [Hp (w & Hin & post & E & Hpost)]. exists w. split; [exact Hin|].
      now exists "", post.
    + intros (w & Hin & pre & post & E & Hp & Hpost).
      destruct pre as [|x pre]; [|discriminate E].
      split; [exact Hp|]. exists w. split; [exact Hin|]. now exists post.
  - simpl. rewrite orb_true_iff, (wordsAt_spec words prev _ K), IH. split.
    + intros [[Hp (w & Hin & post & E & Hpost)] | (w & Hin & pre & post & E & Hp & Hpost)].
      * exists w. split; [exact Hin|]. now exists "", post.
      * exists w. split; [exact Hin|]. exists (String c pre), post.
        rewrite append_cons, E. split; [reflexivity|]. split; [|exact Hpost].
        rewrite lastChar_cons. simpl. now destruct (lastChar pre).
    + intros (w & Hin & pre & post & E & Hp & Hpost).
      destruct pre as [|x pre].
      * left. split; [exact Hp|]. exists w. split; [exact Hin|]. now exists post.
      * right. rewrite append_cons in E. injection E as <- E.
        exists w. split; [exact Hin|]. exists pre, post. split; [exact E|].
        split; [|exact Hpost]. rewrite lastChar_cons in Hp. simpl in Hp.
        now destruct (lastChar pre).
Qed.

(** The word test holds exactly when one of the words stands in the text
    as a whole word. *)
Lemma testWords_spec (words : list string) (s : string) :
  forallb isKeyword words = true ->
  JS.testWords words s = true <-> exists w, In w words /\ occursAsWord w s.
Proof.
  intros K. unfold JS.testWords. rewrite (testWordsGo_spec words None s K).
  unfold occursAsWord. split.
  - intros (w & Hin & pre & post & E & Hp & Hpost). exists w. split; [exact Hin|].
    exists pre, post. repeat split; trivial. now destruct (lastChar pre).
  - intros (w & Hin & pre & post & E & Hp & Hpost). exists w. split; [exact Hin|].
    exists pre, post. repeat split; trivial. now destruct (lastChar pre).
Qed.

Lemma refusedWords_keywords : forallb isKeyword refusedWords = true.
Proof. reflexivity. Qed.

Lemma refused_test (upper : string) :
  containsForbiddenTokens upper || JS.testWords ["INTO"] upper = true <->
  exists w, In w refusedWords /\ occursAsWord w upper.
Proof.
  unfold containsForbiddenTokens. rewrite orb_true_iff.
  rewrite (testWords_spec forbiddenWords upper eq_refl).
  rewrite (testWords_spec ["INTO"] upper eq_refl). unfold refusedWords. split.
  - intros [(w & Hin & H) | (w & Hin & H)]; exists w; split; trivial;
      apply List.in_or_app; auto.
  - intros (w & Hin & H). apply List.in_app_or in Hin as [Hin|Hin]; eauto.
Qed.

(** ** Whole words under the normalisation steps *)

Lemma keyword_lastChar (w : string) :
  isKeyword w = true ->
  exists c, lastChar w = Some c /\ JS.isWordChar c = true.
Proof.
  intros K. destruct (isKeyword_cons w K) as (a & r & -> & Ha & Hr).
  exists (default a (lastChar r)). split; [apply lastChar_cons | now apply allWordChars_last].
Qed.

Lemma occursAsWord_upper (w s : string) :
  isKeyword w = true -> occursAsWord w s -> occursAsWord w (JS.toUpperCase s).
Proof.
  intros K (pre & post & -> & Hp & Hpost).
  exists (JS.toUpperCase pre), (JS.toUpperCase post).
  rewrite !toUpperCase_append, (isKeyword_upper w K), lastChar_toUpperCase,
    headChar_toUpperCase.
  split; [reflexivity|]. split; now apply nonWord_upper.
Qed.

(** The same for a word in any letter case: upper-casing text of the model
    keeps the boundaries of its words. *)
Lemma occursAsWord_upper_spelling (v s : string) :
  occursAsWord v s -> occursAsWord (JS.toUpperCase v) (JS.toUpperCase s).
Proof.
  intros (pre & post & -> & Hp & Hpost).
  exists (JS.toUpperCase pre), (JS.toUpperCase post).
  rewrite !toUpperCase_append, lastChar_toUpperCase, headChar_toUpperCase.
  split; [reflexivity|]. split; now apply nonWord_upper.
Qed.

Lemma toUpperCase_trimStart (s : string) :
  JS.toUpperCase (JS.trimStart s) = JS.trimStart (JS.toUpperCase s).
Proof.
  induction s as [|c s IH]; [reflexivity|]. simpl.
  rewrite isWhiteSpace_upperChar. now destruct (JS.isWhiteSpace c).
Qed.

Lemma toUpperCase_trimEnd (s : string) :
  JS.toUpperCase (JS.trimEnd s) = JS.trimEnd (JS.toUpperCase s).
Proof.
  induction s as [|c s IH]; [reflexivity|]. simpl.
  rewrite <- IH, isWhiteSpace_upperChar.
  destruct (JS.trimEnd s); simpl; [now destruct (JS.isWhiteSpace c) | reflexivity].
Qed.

Lemma toUpperCase_trim (s : string) :
  JS.toUpperCase (JS.trim s) = JS.trim (JS.toUpperCase s).
Proof. unfold JS.trim. now rewrite toUpperCase_trimEnd, toUpperCase_trimStart. Qed.

Lemma toUpperCase_sliceInit (s : string) :
  JS.toUpperCase (JS.sliceInit s) = JS.sliceInit (JS.toUpperCase s).
Proof.
  induction s as [|c s IH]; [reflexivity|].
  destruct s as [|d s]; [reflexivity|].
  change (JS.toUpperCase (JS.sliceInit (String c (String d s))))
    with (String (JS.upperChar c) (JS.toUpperCase (JS.sliceInit (String d s)))).
  rewrite IH. reflexivity.
Qed.

Lemma occursAsWord_trimStart (w s : string) :
  isKeyword w = true -> occursAsWord w s -> occursAsWord w (JS.trimStart s).
Proof.
  intros K (pre & post & -> & Hp & Hpost).
  destruct (isKeyword_cons w K) as (a & r & -> & Ha & _).
  induction pre as [|c pre IH].
  - change ("" +:+ String a r +:+ post) with (String a (r +:+ post)). simpl.
    rewrite (isWordChar_not_space a Ha). now exists "", post.
  - rewrite append_cons. simpl. destruct (JS.isWhiteSpace c).
    + apply IH. rewrite lastChar_cons in Hp. now destruct pre; [|rewrite lastChar_cons in *].
    + exists (String c pre), post. now rewrite append_cons.
Qed.

Lemma trimEnd_cons (c : ascii) (s : string) :
  JS.trimEnd s <> EmptyString -> JS.trimEnd (String c s) = String c (JS.trimEnd s).
Proof. simpl. now destruct (JS.trimEnd s). Qed.

Lemma trimEnd_append (pre s : string) :
  JS.trimEnd s <> EmptyString -> JS.trimEnd (pre +:+ s) = pre +:+ JS.trimEnd s.
Proof.
  intros H. induction pre as [|c pre IH]; [reflexivity|].
  rewrite !append_cons, trimEnd_cons; rewrite IH; [reflexivity|].
  destruct pre; [exact H | discriminate].
Qed.

Lemma trimEnd_word (w post : string) :
  allWordChars w = true -> w <> EmptyString ->
  JS.trimEnd (w +:+ post) = w +:+ JS.trimEnd post.
Proof.
  induction w as [|a w IH]; intros Hw Hne; [congruence|].
  simpl in Hw. apply andb_true_iff in Hw as [Ha Hw].
  destruct w as [|b w].
  - change (String a "" +:+ post) with (String a post). simpl.
    rewrite (isWordChar_not_space a Ha). now destruct (JS.trimEnd post).
  - rewrite append_cons, trimEnd_cons; rewrite IH; trivial; discriminate.
Qed.

Lemma headChar_trimEnd (s : string) :
  JS.headChar (JS.trimEnd s) = None \/ JS.headChar (JS.trimEnd s) = JS.headChar s.
Proof.
  destruct s as [|c s]; [now left|]. simpl.
  destruct (JS.trimEnd s); [destruct (JS.isWhiteSpace c)|]; auto.
Qed.

Lemma occursAsWord_trimEnd (w s : string) :
  isKeyword w = true -> occursAsWord w s -> occursAsWord w (JS.trimEnd s).
Proof.
  intros K (pre & post & -> & Hp & Hpost).
  destruct (isKeyword_cons w K) as (a & r & E & Ha & Hr).
  assert (allWordChars w = true) as Hw by (subst w; simpl; now rewrite Ha).
  assert (w <> EmptyString) as Hne by (subst w; discriminate).
  exists pre, (JS.trimEnd post).
  rewrite trimEnd_append; rewrite (trimEnd_word w post Hw Hne).
  - split; [reflexivity|]. split; [exact Hp|].
    destruct (headChar_trimEnd post) as [-> | ->]; [reflexivity | exact Hpost].
  - subst w. discriminate.
Qed.

Lemma occursAsWord_trim (w s : string) :
  isKeyword w = true -> occursAsWord w s -> occursAsWord w (JS.trim s).
Proof. intros K H. now apply occursAsWord_trimEnd, occursAsWord_trimStart. Qed.

Lemma sliceInit_append (a b : string) :
  b <> EmptyString -> JS.sliceInit (a +:+ b) = a +:+ JS.sliceInit b.
Proof.
  intros Hb. induction a as [|x a IH]; [reflexivity|].
  rewrite !append_cons, <- IH.
  destruct (a +:+ b) eqn:E; [|reflexivity].
  destruct a; [now subst | discriminate E].
Qed.

Lemma headChar_sliceInit (s : string) :
  JS.headChar (JS.sliceInit s) = None \/ JS.headChar (JS.sliceInit s) = JS.headChar s.
Proof. destruct s as [|c [|d s]]; auto. Qed.

Lemma occursAsWord_sliceInit (w s : string) (c : ascii) :
  isKeyword w = true -> lastChar s = Some c -> JS.isWordChar c = false ->
  occursAsWord w s -> occursAsWord w (JS.sliceInit s).
Proof.
  intros K L Hc (pre & post & -> & Hp & Hpost).
  assert (w <> EmptyString) as Hne
    by (destruct (isKeyword_cons w K) as (a & r & -> & _); discriminate).
  assert (post <> EmptyString) as Hpne.
  { intros ->. rewrite append_empty_r, (lastChar_append pre w Hne) in L.
    destruct (keyword_lastChar w K) as (c' & L' & Hc'). congruence. }
  exists pre, (JS.sliceInit post).
  rewrite sliceInit_append, sliceInit_append; trivial.
  - split; [reflexivity|]. split; [exact Hp|].
    destruct (headChar_sliceInit post) as [-> | ->]; [reflexivity | exact Hpost].
  - destruct w; [congruence | discriminate].
Qed.

Lemma endsWithChar_lastChar (s : string) (c : ascii) :
  JS.endsWithChar s c = true <-> lastChar s = Some c.
Proof.
  induction s as [|x s IH]; [split; discriminate|].
  destruct s as [|y s].
  - simpl. rewrite Ascii.eqb_eq. split; congruence.
  - exact IH.
Qed.

(** A refused word that stands in the comment-free text, in either case,
    still stands in the upper-cased statement the keyword checks read. *)
Lemma occursAsWord_statement (sql q w : string) :
  isKeyword w = true ->
  occursAsWord w (JS.toUpperCase (stripComments sql)) ->
  singleStatement sql = Some q ->
  occursAsWord w (JS.toUpperCase q).
Proof.
  intros K H. apply (occursAsWord_trim w _ K) in H. rewrite <- toUpperCase_trim in H.
  unfold singleStatement. destruct (JS.includes _ ";"); [|congruence].
  destruct (JS.endsWithChar _ ";") eqn:E; [|discriminate].
  destruct (JS.indexOf _ ";" =? -1); [|discriminate]. simpl.
  intros Q. injection Q as <-.
  rewrite toUpperCase_trim, toUpperCase_sliceInit. apply (occursAsWord_trim w _ K).
  apply (occursAsWord_sliceInit w _ ";" K); trivial.
  apply endsWithChar_lastChar in E. now rewrite lastChar_toUpperCase, E.
Qed.

(** ** The query guard *)

Lemma guard_statement (sql q : string) :
  singleStatement sql = Some q -> guard sql = checkStatement q.
Proof. unfold guard. now intros ->. Qed.

Lemma guard_no_statement (sql : string) :
  singleStatement sql = None -> guard sql = Refused MSG_MULTIPLE.
Proof. unfold guard. now intros ->. Qed.

Lemma checkStatement_cases (q : string) :
  let upper := JS.toUpperCase q in
  (JS.startsWith upper "SELECT" || JS.startsWith upper "WITH" = false /\
   checkStatement q = Refused MSG_NOT_SELECT) \/
  (JS.startsWith upper "SELECT" || JS.startsWith upper "WITH" = true /\
   containsForbiddenTokens upper || JS.testWords ["INTO"] upper = true /\
   checkStatement q = Refused MSG_FORBIDDEN) \/
  (JS.startsWith upper "SELECT" || JS.startsWith upper "WITH" = true /\
   containsForbiddenTokens upper || JS.testWords ["INTO"] upper = false /\
   checkStatement q = Passed q).
Proof.
  unfold checkStatement. simpl.
  destruct (JS.startsWith _ "SELECT" || JS.startsWith _ "WITH"); simpl; [|now left].
  destruct (containsForbiddenTokens _ || JS.testWords ["INTO"] _); auto.
Qed.

(** The guard on the inputs of the specification's test list. *)
Example guard_comment_hides_keyword :
  guard "SELECT 1 /* DELETE */" = Passed "SELECT 1".
Proof. reflexivity. Qed.

Example guard_unclosed_comment_stays :
  stripComments "SELECT 1 /* DROP" = "SELECT 1 /* DROP" /\
  guard "SELECT 1 /* DROP" = Refused MSG_FORBIDDEN.
Proof. split; reflexivity. Qed.

Example guard_line_comment_ends_at_newline :
  guard ("SELECT 1 -- note" +:+ String (ascii_of_nat 10) "FROM t; ") = Passed
    ("SELECT 1  " +:+ String (ascii_of_nat 10) "FROM t").
Proof. reflexivity. Qed.

Example guard_semicolon_in_literal_refused :
  guard "SELECT ';' AS c" = Refused MSG_MULTIPLE.
Proof. reflexivity. Qed.

(** C5, as amended.  An input whose comment-free text, upper-cased as
    [toUpperCase] does it, holds one of the refused words as a whole word is
    always refused; so is, in particular, every input of ASCII characters
    whose comment-free text holds one of them as a whole word in any letter
    case.  The reason is the forbidden-keyword one when the input passes
    the statement-count and the statement-shape checks (an earlier check
    gives its own reason otherwise).  The forbidden-keyword refusal is given
    only when a refused word stands as a whole word in the upper-cased
    statement: inside a longer identifier it does not count.  (The word
    test reads the upper-cased text, line 60: outside ASCII, where
    [toUpperCase] can turn a neighbour of the word into a letter, a word of
    the text itself need not be one of the text the test reads.) *)
Theorem guard_refuses_forbidden_words (sql : string) :
  (forall w, In w refusedWords ->
     occursAsWord w (JS.toUpperCase (stripComments sql))
     \/ (isAsciiText sql = true /\
         exists spelling,
           JS.toUpperCase spelling = w /\ occursAsWord spelling (stripComments sql)) ->
     (exists text, guard sql = Refused text) /\
     (forall q, singleStatement sql = Some q ->
        JS.startsWith (JS.toUpperCase q) "SELECT"
        || JS.startsWith (JS.toUpperCase q) "WITH" = true ->
        guard sql = Refused MSG_FORBIDDEN)) /\
  (guard sql = Refused MSG_FORBIDDEN ->
   exists q w, singleStatement sql = Some q /\ In w refusedWords /\
               occursAsWord w (JS.toUpperCase q)) /\
  guard "WITH x AS (SELECT 1) DELETE FROM x" = Refused MSG_FORBIDDEN /\
  guard "SELECT * INTO NewTable FROM Product" = Refused MSG_FORBIDDEN /\
  guard "select 1 from t; drop table t" = Refused MSG_MULTIPLE /\
  guard "SELECT updated_at, DropOff FROM into_log"
    = Passed "SELECT updated_at, DropOff FROM into_log".
Proof.
  split; [|split; [|repeat split]].
  - intros w Hin Hocc.
    assert (isKeyword w = true) as K.
    { pose proof refusedWords_keywords as F. rewrite List.forallb_forall in F. now apply F. }
    assert (occursAsWord w (JS.toUpperCase (stripComments sql))) as U.
    { destruct Hocc as [H | (_ & spelling & <- & H)];
        [exact H | now apply occursAsWord_upper_spelling]. }
    assert (forall q, singleStatement sql = Some q ->
              containsForbiddenTokens (JS.toUpperCase q)
              || JS.testWords ["INTO"] (JS.toUpperCase q) = true) as T.
    { intros q Q. apply refused_test. exists w. split; [exact Hin|].
      exact (occursAsWord_statement sql q w K U Q). }
    destruct (singleStatement sql) as [q|] eqn:Q.
    + rewrite (guard_statement sql q Q). specialize (T q eq_refl).
      destruct (checkStatement_cases q) as [[S0 ->] | [(_ & _ & ->) | (_ & F & _)]].
      * split; [eauto|]. intros q' E S. injection E as <-.
        simpl in S0. congruence.
      * split; [eauto | reflexivity].
      * simpl in F. congruence.
    + rewrite (guard_no_statement sql Q). split; [eauto | discriminate].
  - intros G. destruct (singleStatement sql) as [q|] eqn:Q.
    + rewrite (guard_statement sql q Q) in G.
      destruct (checkStatement_cases q) as [[_ E] | [(_ & T & _) | (_ & _ & E)]].
      * rewrite E in G. discriminate G.
      * apply refused_test in T as (w & Hin & Hocc). now exists q, w.
      * rewrite E in G. discriminate G.
    + rewrite (guard_no_statement sql Q) in G. discriminate G.
Qed.

(** C5, as stated, fails on the reason: a refused word in a text that does
    not start with SELECT or WITH, or in a second statement, is refused by
    the earlier check, with that check's reason. *)
Lemma guard_forbidden_reason_counterexample :
  In "DELETE" refusedWords /\
  occursAsWord "DELETE" (stripComments "DELETE FROM x") /\
  guard "DELETE FROM x" = Refused MSG_NOT_SELECT /\
  MSG_NOT_SELECT <> MSG_FORBIDDEN /\
  In "DROP" refusedWords /\
  occursAsWord "DROP" (stripComments "SELECT 1; DROP TABLE x") /\
  guard "SELECT 1; DROP TABLE x" = Refused MSG_MULTIPLE /\
  MSG_MULTIPLE <> MSG_FORBIDDEN.
Proof.
  repeat split; try discriminate.
  - vm_compute. tauto.
  - exists "", " FROM x". repeat split.
  - vm_compute. tauto.
  - exists "SELECT 1; ", " TABLE x". repeat split.
Qed.

Lemma startsWith_firstKeyword (w s : string) :
  allWordChars w = true ->
  JS.startsWith (firstKeyword s) w = JS.startsWith s w.
Proof.
  revert s. induction w as [|a w IH]; intros s Hw.
  - destruct (firstKeyword s); destruct s; reflexivity.
  - simpl in Hw. apply andb_true_iff in Hw as [Ha Hw].
    destruct s as [|b s]; [reflexivity|]. simpl.
    destruct (JS.isWordChar b) eqn:Hb.
    + simpl. now rewrite IH.
    + simpl. destruct (Ascii.eqb_spec a b) as [->|]; [congruence | reflexivity].
Qed.

(** C4, as amended.  For an input that passes the statement-count check,
    the guard gives the only-SELECT reason exactly when the first keyword
    of the normalised text, in upper case, does not begin with the letters
    SELECT or WITH: the test is on the leading characters, so that a
    keyword which merely begins with them passes it.  An input that fails
    the statement-count check is refused with that check's reason. *)
Theorem guard_statement_shape (sql : string) :
  (singleStatement sql = None -> guard sql = Refused MSG_MULTIPLE) /\
  (forall q, singleStatement sql = Some q ->
     let keyword := firstKeyword (JS.toUpperCase q) in
     (JS.startsWith keyword "SELECT" = false /\ JS.startsWith keyword "WITH" = false
      <-> guard sql = Refused MSG_NOT_SELECT) /\
     JS.startsWith keyword "SELECT" = JS.startsWith (JS.toUpperCase q) "SELECT" /\
     JS.startsWith keyword "WITH" = JS.startsWith (JS.toUpperCase q) "WITH") /\
  guard "drop table x" = Refused MSG_NOT_SELECT /\
  guard "  /* cte */ with t as (select 1) select * from t ;"
    = Passed "with t as (select 1) select * from t".
Proof.
  split; [apply guard_no_statement|]. split; [|split; reflexivity].
  intros q Q. simpl.
  rewrite !(startsWith_firstKeyword _ (JS.toUpperCase q)) by reflexivity.
  split; [|split; reflexivity].
  rewrite (guard_statement sql q Q). rewrite <- orb_false_iff.
  destruct (checkStatement_cases q) as [[S ->] | [(S & _ & ->) | (S & _ & ->)]];
    simpl in S; rewrite S; split; trivial; discriminate.
Qed.

(** C4, as stated, fails: the first keyword of [SELECTX 1] is neither
    SELECT nor WITH, and the guard lets the text pass; and a text with two
    statements is refused with the multiple-statements reason, whatever its
    first keyword. *)
Lemma guard_first_keyword_counterexample :
  singleStatement "SELECTX 1" = Some "SELECTX 1" /\
  firstKeyword (JS.toUpperCase "SELECTX 1") = "SELECTX" /\
  "SELECTX" <> "SELECT" /\ "SELECTX" <> "WITH" /\
  guard "SELECTX 1" = Passed "SELECTX 1" /\
  firstKeyword (JS.toUpperCase (JS.trim (stripComments "DELETE FROM a; DELETE FROM b")))
    = "DELETE" /\
  guard "DELETE FROM a; DELETE FROM b" = Refused MSG_MULTIPLE /\
  MSG_MULTIPLE <> MSG_NOT_SELECT.
Proof. repeat split; discriminate. Qed.

(** ** The statement-count check *)

Lemma startsWith_char (s : string) (c : ascii) :
  JS.startsWith s (String c "") = from_option (Ascii.eqb c) false (JS.headChar s).
Proof. destruct s as [|a [|b s]]; simpl; trivial; apply andb_true_r. Qed.

Lemma indexOf_char (s : string) (c : ascii) :
  (JS.indexOf s (String c "") = -1 /\ countChar c s = 0%nat) \/
  (0 <= JS.indexOf s (String c "") /\ countChar c s <> 0%nat).
Proof.
  induction s as [|a s IH].
  - left. split; reflexivity.
  - cbn [JS.indexOf countChar]. rewrite startsWith_char. simpl.
    rewrite (Ascii.eqb_sym a c). destruct (Ascii.eqb c a).
    + right. split; [lia | discriminate].
    + destruct IH as [[-> E] | [H E]].
      * left. now split.
      * right. split; [|exact E]. destruct (Z.ltb_spec (JS.indexOf s (String c "")) 0); lia.
Qed.

Lemma includes_char (s : string) (c : ascii) :
  JS.includes s (String c "") = negb (countChar c s =? 0)%nat.
Proof.
  unfold JS.includes. destruct (indexOf_char s c) as [[-> ->] | [H E]]; [reflexivity|].
  destruct (Z.ltb_spec (JS.indexOf s (String c "")) 0); [lia|].
  symmetry. apply negb_true_iff, Nat.eqb_neq, E.
Qed.

Lemma indexOf_char_absent (s : string) (c : ascii) :
  (JS.indexOf s (String c "") =? -1) = (countChar c s =? 0)%nat.
Proof.
  destruct (indexOf_char s c) as [[-> ->] | [H E]]; [reflexivity|].
  apply Nat.eqb_neq in E. rewrite E. apply Z.eqb_neq. lia.
Qed.

Lemma sliceInit_lastChar (s : string) (c : ascii) :
  lastChar s = Some c -> s = JS.sliceInit s +:+ String c "".
Proof.
  induction s as [|a s IH]; [discriminate|].
  destruct s as [|b s].
  - simpl. now intros [= ->].
  - intros L. change (lastChar (String a (String b s))) with (lastChar (String b s)) in L.
    change (JS.sliceInit (String a (String b s))) with (String a (JS.sliceInit (String b s))).
    rewrite append_cons. f_equal. now apply IH.
Qed.

Lemma countChar_append (c : ascii) (a b : string) :
  countChar c (a +:+ b) = (countChar c a + countChar c b)%nat.
Proof.
  induction a as [|x a IH]; [reflexivity|].
  rewrite append_cons. simpl. rewrite IH. lia.
Qed.

Lemma countChar_sliceInit (s : string) (c : ascii) :
  lastChar s = Some c -> countChar c s = S (countChar c (JS.sliceInit s)).
Proof.
  intros L. rewrite (sliceInit_lastChar s c L) at 1.
  rewrite countChar_append. simpl. rewrite Ascii.eqb_refl. lia.
Qed.

Lemma lastChar_trimEnd (s : string) :
  from_option JS.isWhiteSpace false (lastChar (JS.trimEnd s)) = false.
Proof.
  induction s as [|c s IH]; [reflexivity|]. simpl.
  destruct (JS.trimEnd s) as [|d r] eqn:E.
  - destruct (JS.isWhiteSpace c) eqn:W; [reflexivity | exact W].
  - exact IH.
Qed.

(** The test of lines 44-45 holds exactly for one semicolon, at the end. *)
Lemma onlyTrailing_spec (q : string) :
  JS.endsWithChar q ";" && (JS.indexOf (JS.sliceInit q) ";" =? -1) = true <->
  countChar ";" q = 1%nat /\ lastChar q = Some ";"%char.
Proof.
  rewrite andb_true_iff, endsWithChar_lastChar, indexOf_char_absent, Nat.eqb_eq. split.
  - intros [L C]. split; [|exact L]. rewrite (countChar_sliceInit q _ L). lia.
  - intros [C L]. split; [exact L|]. rewrite (countChar_sliceInit q _ L) in C. lia.
Qed.

(** C6.  The statement-count check reads the comment-free, trimmed text,
    whose last character is its last character that is no white space.  A
    text without semicolon goes on as it is; a text whose only semicolon is
    its last character goes on without it, trimmed again; any other text
    with a semicolon is refused with the multiple-statements reason, and
    nothing is sent.  The keyword checks read what goes on, so that a
    statement followed by a semicolon and a comment is accepted. *)
Theorem guard_statement_count (sql : string) :
  let q := JS.trim (stripComments sql) in
  from_option JS.isWhiteSpace false (lastChar q) = false /\
  (countChar ";" q = 0%nat -> singleStatement sql = Some q) /\
  (countChar ";" q = 1%nat -> lastChar q = Some ";"%char ->
   q = JS.sliceInit q +:+ ";" /\
   singleStatement sql = Some (JS.trim (JS.sliceInit q))) /\
  (countChar ";" q <> 0%nat ->
   ~ (countChar ";" q = 1%nat /\ lastChar q = Some ";"%char) ->
   singleStatement sql = None /\
   guard sql = Refused MSG_MULTIPLE /\
   forall (World : Type) (host : Host World) (maxRows : option Z) (p : Process World),
     db_select host sql maxRows p = (Resolved (errorResult MSG_MULTIPLE), p)) /\
  (forall s, singleStatement sql = Some s -> guard sql = checkStatement s) /\
  guard "SELECT 1; -- DROP TABLE x" = Passed "SELECT 1" /\
  guard "SELECT 1; SELECT 2" = Refused MSG_MULTIPLE /\
  guard "SELECT 1;;" = Refused MSG_MULTIPLE.
Proof.
  intros q. split; [apply lastChar_trimEnd|].
  assert (singleStatement sql =
            if JS.includes q ";" then
              if negb (JS.endsWithChar q ";" && (JS.indexOf (JS.sliceInit q) ";" =? -1))
              then None else Some (JS.trim (JS.sliceInit q))
            else Some q) as E by reflexivity.
  rewrite includes_char in E.
  split; [|split; [|split; [|split; [|repeat split]]]].
  - intros C. rewrite E, C. reflexivity.
  - intros C L. split; [now apply sliceInit_lastChar|].
    rewrite E, C. simpl. now rewrite (proj2 (onlyTrailing_spec q)).
  - intros C N.
    assert (singleStatement sql = None) as S.
    { rewrite E. apply Nat.eqb_neq in C. rewrite C. simpl.
      destruct (JS.endsWithChar q ";" && _) eqn:T; [|reflexivity].
      now apply onlyTrailing_spec in T. }
    split; [exact S|]. split; [now apply guard_no_statement|].
    intros World host maxRows p. apply db_select_refused. now apply guard_no_statement.
  - apply guard_statement.
Qed.

(** ** The tool surface *)

Lemma callTool_db_select {World : Type} (host : Host World) (server : McpServer World)
    (args : Args) (p : Process World) :
  serverWithQueryTools host = inr server ->
  callTool server "db.select" args p =
    if zodAccepts (z_string (Some 1%nat)) (args !! "sql")
       && zodAccepts (z_optional (z_number_int 1 200)) (args !! "maxRows")
    then match db_select host (argString args "sql") (argInt args "maxRows") p with
         | (Resolved r, p') => (Returned r, p')
         | (Rejected e, p') => (Returned (errorResult e), p')
         end
    else (InvalidArguments, p).
Proof.
  intros H. injection H as <-. unfold callTool, validate. simpl.
  now rewrite andb_true_r.
Qed.

Lemma argInt_valid (args : Args) (k : string) :
  zodAccepts (z_optional (z_number_int 1 200)) (args !! k) = true ->
  zodAccepts (z_optional (z_number_int 1 200)) (JNum <$> argInt args k) = true.
Proof.
  unfold argInt. destruct (args !! k) as [[| |n|]|]; simpl; trivial.
Qed.

(** C2, as amended.  A call of [db.select] whose arguments have the declared
    input shape ([maxRows] left out, or an integer from 1 to 200) is capped
    at [maxRows] when it is given and at 100 when it is not, which lies
    between 1 and 200.  (The handler takes the minimum of [maxRows ?? 100]
    and 200 and has no lower clamp.) *)
Theorem db_select_cap_for_declared_input
    {World : Type} (host : Host World) (server : McpServer World)
    (args : Args) (p p' : Process World) (r : ToolResult) :
  serverWithQueryTools host = inr server ->
  callTool server "db.select" args p = (Returned r, p') ->
  isError r = false ->
  exists rowCount cappedAt data,
    r = textResult (JSON_stringify (SelectPayload rowCount cappedAt data)) /\
    cappedAt = rowLimit (argInt args "maxRows") /\
    cappedAt = default 100 (argInt args "maxRows") /\
    1 <= cappedAt <= 200.
Proof.
  intros Hs Hcall Hok. rewrite (callTool_db_select host server args p Hs) in Hcall.
  destruct (zodAccepts (z_string _) _ && zodAccepts (z_optional _) _) eqn:V;
    [|discriminate Hcall].
  apply andb_true_iff in V as [_ V]. apply argInt_valid, rowLimit_valid in V as [Hd Hr].
  destruct (db_select host _ _ p) as [[r0|e] p0] eqn:Hrun;
    [|injection Hcall as <- _; discriminate Hok].
  injection Hcall as -> ->.
  destruct (db_select_success host _ _ _ _ _ Hrun Hok) as (q & recordset & _ & _ & ->).
  now exists (Z.of_nat (List.length (default [] recordset))),
    (rowLimit (argInt args "maxRows")), (default [] recordset).
Qed.

(** A call with [maxRows = 7] on the example database is capped at 7. *)
Lemma db_select_cap_witness :
  exists rowCount cappedAt data,
    textResult (JSON_stringify (SelectPayload 1 7 Fixture.rows))
    = textResult (JSON_stringify (SelectPayload rowCount cappedAt data)) /\
    cappedAt = rowLimit (argInt (object [("sql", JStr "SELECT 1"); ("maxRows", JNum 7)]) "maxRows") /\
    cappedAt = default 100 (argInt (object [("sql", JStr "SELECT 1"); ("maxRows", JNum 7)]) "maxRows") /\
    1 <= cappedAt <= 200.
Proof.
  refine (db_select_cap_for_declared_input Fixture.host
            (mkServer "adventureworks-manager" "1.0.0" _)
            (object [("sql", JStr "SELECT 1"); ("maxRows", JNum 7)])
            Fixture.start _ _ _ _ _).
  - reflexivity.
  - vm_compute. reflexivity.
  - reflexivity.
Defined.

(** C2, as stated, fails: with [maxRows = 0] the handler caps at 0, not at
    100, and the tool surface refuses such arguments (as it refuses 5000)
    before the handler runs. *)
Lemma db_select_cap_counterexample :
  fst (db_select Fixture.host "SELECT 1" (Some 0) Fixture.start)
    = Resolved (textResult (JSON_stringify (SelectPayload 1 0 Fixture.rows))) /\
  rowLimit (Some 0) <> 100 /\
  ~ (1 <= rowLimit (Some 0) <= 200) /\
  rowLimit (Some 5000) = 200 /\
  rowLimit None = 100 /\
  exists server,
    serverWithQueryTools Fixture.host = inr server /\
    fst (callTool server "db.select"
           (object [("sql", JStr "SELECT 1"); ("maxRows", JNum 0)]) Fixture.start)
      = InvalidArguments /\
    fst (callTool server "db.select"
           (object [("sql", JStr "SELECT 1"); ("maxRows", JNum 5000)]) Fixture.start)
      = InvalidArguments.
Proof.
  repeat split; try (vm_compute; congruence).
  - vm_compute. intros [H _]. now apply H.
  - eexists. repeat split.
Qed.

(** C1.  The server factory registers the two schema tools and the echo
    tool; [db.select] is not among the tools of the server it returns, and
    a call of that name finds no tool. *)
Theorem createAdventureWorksServer_registered_tools {World : Type} (host : Host World) :
  exists server,
    createAdventureWorksServer host = inr server /\
    toolNames server = ["db.describeTable"; "db.getDatabaseContext"; "sys.echo"] /\
    findTool (registeredTools server) "db.select" = None /\
    forall args p, callTool server "db.select" args p = (UnknownTool, p).
Proof.
  eexists. split; [reflexivity|]. repeat split.
Qed.

Lemma object_lookup (k : string) (v : JSValue) : object [(k, v)] !! k = Some v.
Proof. unfold object. simpl. apply lookup_insert_eq. Qed.

(** A call of [db.describeTable] with a table name of the declared shape
    runs the handler; what the handler throws comes back as a result. *)
Lemma callTool_db_describeTable {World : Type} (host : Host World)
    (server : McpServer World) (t : string) (p : Process World) :
  createAdventureWorksServer host = inr server ->
  t <> EmptyString ->
  callTool server "db.describeTable" (object [("tableName", JStr t)]) p =
    match db_describeTable host t p with
    | (Resolved r, p') => (Returned r, p')
    | (Rejected e, p') => (Returned (errorResult e), p')
    end.
Proof.
  intros H N. injection H as <-.
  remember (object [("tableName", JStr t)]) as args eqn:A.
  unfold callTool, validate, argString. simpl. subst args.
  rewrite object_lookup.
  destruct t as [|c t]; [congruence|]. reflexivity.
Qed.

(** C3.  In every state the process can reach, a call of
    [db.describeTable] for a table that is not in the table list comes back
    from the server as a result with the error flag, never as a thrown
    error, and no column request is sent.  (The handler itself has no
    [catch] and ends rejected; the server turns the rejection into the
    result.)  With the table list in the cache, as it is once [bootstrap]
    has primed it, the reason is the message of [getTableSchema], which
    names the schema and the table.  So it is when the list has to be
    fetched first, unless the primary-key request that runs beside the
    lookup fails as well and fails first: then the reason is the message of
    that failure. *)
Theorem db_describeTable_unknown_table_is_tool_error
    {World : Type} (host : Host World) (server : McpServer World) (t : string)
    (p p1 : Process World) (tables : list TableInfo.t) :
  createAdventureWorksServer host = inr server ->
  reachable host p ->
  getTables host p = (Resolved tables, p1) ->
  listed (getTargetSchema host) t tables = false ->
  t <> EmptyString ->
  exists reason,
    fst (db_describeTable host t p) = Rejected reason /\
    callTool server "db.describeTable" (object [("tableName", JStr t)]) p
      = (Returned (errorResult reason), snd (getPrimaryKeys host p1)) /\
    isError (errorResult reason) = true /\
    (tablesCache (caches p) = Some tables ->
     reason = "Table not found or not allowed: " +:+ getTargetSchema host +:+ "." +:+ t) /\
    (forall keys,
       fst (queryPrimaryKeyInfo host (primaryKeysRequest (getTargetSchema host)) (world p1))
         = inr keys ->
       reason = "Table not found or not allowed: " +:+ getTargetSchema host +:+ "." +:+ t) /\
    (reason = "Table not found or not allowed: " +:+ getTargetSchema host +:+ "." +:+ t \/
     fst (queryPrimaryKeyInfo host (primaryKeysRequest (getTargetSchema host)) (world p1))
       = inl reason) /\
    List.filter isColumnsRequest (sent (snd (getPrimaryKeys host p1)))
      = List.filter isColumnsRequest (sent p).
Proof.
  intros Hs R G L N.
  pose proof (getTableSchema_unlisted host t p p1 tables (reachable_consistent host p R) G L)
    as U.
  destruct (db_describeTable_Rejected host t (notFoundMessage (getTargetSchema host) t) p)
    as (reason & E & D & S & Q); [now rewrite U|].
  rewrite U in E, D, S, Q. simpl in E, D, S, Q.
  exists reason. split; [now rewrite E|]. split.
  { rewrite (callTool_db_describeTable host server t p Hs N). now rewrite E. }
  split; [reflexivity|]. split; [|split; [|split]].
  - intros C. apply Q. rewrite (getTables_hit host p tables C) in G. congruence.
  - intros keys K. apply (S keys).
    unfold getPrimaryKeys, SQLClient_query, primaryKeysRequest in *.
    destruct (queryPrimaryKeyInfo host _ (world p1)) as [[e|v] w]; simpl in *; congruence.
  - destruct D as [->|D]; [now left | right].
    unfold getPrimaryKeys, SQLClient_query, primaryKeysRequest in *.
    destruct (queryPrimaryKeyInfo host _ (world p1)) as [[e|v] w]; simpl in *; congruence.
  - assert (sent (snd (getPrimaryKeys host p1))
            = sent p1 ++ [primaryKeysRequest (getTargetSchema host)]) as ->.
    { unfold getPrimaryKeys, SQLClient_query.
      now destruct (queryPrimaryKeyInfo host _ (world p1)). }
    rewrite List.filter_app. simpl. rewrite app_nil_r.
    pose proof (getTables_sent host p) as T. rewrite G in T. simpl in T.
    destruct T as [-> | ->]; [reflexivity|].
    rewrite List.filter_app. simpl. apply app_nil_r.
Qed.

(** The primary-key request of this database fails, and fails first.  The
    server has primed the table list; [Person] is not in it, and the reason
    names the schema and the table. *)
Lemma db_describeTable_unknown_table_witness :
  exists server,
    createAdventureWorksServer Racing.host = inr server /\
    fst (bootstrap Racing.host (initial 0%nat)) = Listening /\
    fst (callTool server "db.describeTable" (object [("tableName", JStr "Person")])
           (snd (bootstrap Racing.host (initial 0%nat))))
      = Returned (errorResult "Table not found or not allowed: SalesLT.Person") /\
    isError (errorResult "Table not found or not allowed: SalesLT.Person") = true.
Proof.
  eexists. split; [reflexivity|]. split; [reflexivity|]. split; [|reflexivity].
  destruct (db_describeTable_unknown_table_is_tool_error Racing.host _ "Person"
              (snd (bootstrap Racing.host (initial 0%nat)))
              (snd (bootstrap Racing.host (initial 0%nat))) (Fixture.tables 0)
              eq_refl (ex_intro _ 0%nat (ex_intro _ [GetTables] eq_refl)) eq_refl eq_refl
              ltac:(discriminate))
    as (reason & _ & C & _ & W & _).
  rewrite C. simpl. f_equal. f_equal.
  exact (W eq_refl).
Defined.

(** On a cold cache, where the table list and the keys are asked for side
    by side, the reason is the one of the request that fails first. *)
Example db_describeTable_cold_cache_race :
  exists server,
    createAdventureWorksServer Racing.host = inr server /\
    fst (callTool server "db.describeTable" (object [("tableName", JStr "Person")])
           (initial 0%nat))
      = Returned (errorResult "Connection lost.").
Proof. eexists. split; [reflexivity|]. vm_compute. reflexivity. Qed.

(** * Further properties *)

(** ** The handler of [db.select] *)

(** X1.  When the guard lets a statement pass and the executor fails, the
    handler does not throw: it returns a result with the error flag whose
    text is [SQL Error: ] followed by the message of the executor.  The one
    request sent is the capped batch; there is no second attempt. *)
Theorem db_select_reports_executor_failure
    {World : Type} (host : Host World) (sql q e : string) (maxRows : option Z)
    (p : Process World) :
  guard sql = Passed q ->
  fst (queryUnknown host (mkRequest (CappedBatch (rowLimit maxRows) q) []) (world p))
    = inl e ->
  fst (db_select host sql maxRows p) = Resolved (errorResult ("SQL Error: " +:+ e)) /\
  isError (errorResult ("SQL Error: " +:+ e)) = true /\
  sent (snd (db_select host sql maxRows p))
    = sent p ++ [mkRequest (CappedBatch (rowLimit maxRows) q) []].
Proof.
  intros G Q. rewrite (db_select_passed host sql maxRows q p G). simpl.
  now rewrite Q.
Qed.

(** On the example database the table [Person] does not exist. *)
Lemma db_select_reports_executor_failure_witness :
  fst (db_select Fixture.host "select * from Person;" (Some 10) Fixture.start)
    = Resolved (errorResult ("SQL Error: " +:+ "Invalid object name.")) /\
  isError (errorResult ("SQL Error: " +:+ "Invalid object name.")) = true /\
  sent (snd (db_select Fixture.host "select * from Person;" (Some 10) Fixture.start))
    = sent Fixture.start ++ [mkRequest (CappedBatch (rowLimit (Some 10)) "select * from Person") []].
Proof.
  apply (db_select_reports_executor_failure Fixture.host "select * from Person;"
           "select * from Person" "Invalid object name." (Some 10) Fixture.start);
    reflexivity.
Defined.

(** X2.  The handler of [db.select] never throws and never touches the
    caches.  A refused text leaves the process as it was: nothing reaches
    the executor.  An accepted text sends exactly one request, the capped
    batch with the normalised statement and a row limit of at most 200. *)
Theorem db_select_sends_only_guarded_batches
    {World : Type} (host : Host World) (sql : string) (maxRows : option Z)
    (p : Process World) :
  (exists r, fst (db_select host sql maxRows p) = Resolved r) /\
  caches (snd (db_select host sql maxRows p)) = caches p /\
  (forall text, guard sql = Refused text ->
     db_select host sql maxRows p = (Resolved (errorResult text), p)) /\
  (forall q, guard sql = Passed q ->
     exists limit,
       sent (snd (db_select host sql maxRows p))
         = sent p ++ [mkRequest (CappedBatch limit q) []] /\
       limit = rowLimit maxRows /\ limit <= 200).
Proof.
  split; [apply db_select_resolves|]. split; [apply db_select_caches|]. split.
  - intros text G. now apply db_select_refused.
  - intros q G. exists (rowLimit maxRows).
    rewrite (db_select_passed host sql maxRows q p G). simpl.
    split; [reflexivity|]. split; [reflexivity | apply rowLimit_le_200].
Qed.

(** ** What the guard lets pass *)

Lemma countChar_trimStart (c : ascii) (s : string) :
  countChar c s = 0%nat -> countChar c (JS.trimStart s) = 0%nat.
Proof.
  induction s as [|a s IH]; [trivial|]. simpl.
  destruct (JS.isWhiteSpace a); [|trivial].
  intros H. apply IH. lia.
Qed.

Lemma countChar_trimEnd (c : ascii) (s : string) :
  countChar c s = 0%nat -> countChar c (JS.trimEnd s) = 0%nat.
Proof.
  induction s as [|a s IH]; [trivial|]. simpl. intros H.
  assert (countChar c s = 0%nat) as Hs by lia. specialize (IH Hs).
  destruct (JS.trimEnd s) as [|b r].
  - destruct (JS.isWhiteSpace a); [reflexivity|]. simpl. lia.
  - simpl in *. lia.
Qed.

Lemma countChar_trim (c : ascii) (s : string) :
  countChar c s = 0%nat -> countChar c (JS.trim s) = 0%nat.
Proof. intros H. now apply countChar_trimEnd, countChar_trimStart. Qed.

Lemma headChar_trimStart (s : string) :
  from_option JS.isWhiteSpace false (JS.headChar (JS.trimStart s)) = false.
Proof.
  induction s as [|a s IH]; [reflexivity|]. simpl.
  destruct (JS.isWhiteSpace a) eqn:W; [exact IH | exact W].
Qed.

Lemma trimStart_fixed (s : string) :
  from_option JS.isWhiteSpace false (JS.headChar s) = false -> JS.trimStart s = s.
Proof. destruct s as [|a s]; [trivial|]. simpl. now intros ->. Qed.

Lemma trimEnd_fixed (s : string) :
  from_option JS.isWhiteSpace false (lastChar s) = false -> JS.trimEnd s = s.
Proof.
  induction s as [|a s IH]; [trivial|]. rewrite lastChar_cons. simpl.
  destruct s as [|b s].
  - simpl. now intros ->.
  - intros H. rewrite IH; [reflexivity|]. rewrite lastChar_cons in *. exact H.
Qed.

Lemma trim_idempotent (s : string) : JS.trim (JS.trim s) = JS.trim s.
Proof.
  unfold JS.trim at 1. rewrite trimStart_fixed.
  - apply trimEnd_fixed, lastChar_trimEnd.
  - unfold JS.trim. destruct (headChar_trimEnd (JS.trimStart s)) as [-> | ->];
      [reflexivity | apply headChar_trimStart].
Qed.

Lemma singleStatement_shape (sql q : string) :
  singleStatement sql = Some q -> countChar ";" q = 0%nat /\ JS.trim q = q.
Proof.
  unfold singleStatement. rewrite includes_char.
  destruct (countChar ";" (JS.trim (stripComments sql)) =? 0)%nat eqn:C; simpl.
  - intros [= <-]. apply Nat.eqb_eq in C. split; [exact C | apply trim_idempotent].
  - destruct (JS.endsWithChar _ ";" && _) eqn:T; [|discriminate]. simpl.
    intros [= <-]. apply onlyTrailing_spec in T as [N L].
    rewrite (countChar_sliceInit _ _ L) in N.
    split; [apply countChar_trim; lia | apply trim_idempotent].
Qed.

(** X3.  A statement the guard lets pass holds no semicolon and is left
    as it is by [trim]; upper-cased as [toUpperCase] does it, it begins with
    SELECT or WITH and holds none of the refused words as a whole word. *)
Theorem guard_passed_statement_is_single_read (sql q : string) :
  guard sql = Passed q ->
  singleStatement sql = Some q /\
  countChar ";" q = 0%nat /\
  JS.includes q ";" = false /\
  JS.trim q = q /\
  JS.startsWith (JS.toUpperCase q) "SELECT" || JS.startsWith (JS.toUpperCase q) "WITH" = true /\
  (forall w, In w refusedWords -> ~ occursAsWord w (JS.toUpperCase q)).
Proof.
  intros G. destruct (singleStatement sql) as [q0|] eqn:Q.
  - rewrite (guard_statement sql q0 Q) in G.
    destruct (checkStatement_cases q0) as [[_ E] | [(_ & _ & E) | (S & T & E)]];
      rewrite E in G; try discriminate G.
    injection G as <-. destruct (singleStatement_shape sql q0 Q) as [C R].
    split; [reflexivity|]. split; [exact C|]. split.
    { rewrite includes_char, C. reflexivity. }
    split; [exact R|]. split; [exact S|].
    intros w Hin Hocc. assert (containsForbiddenTokens (JS.toUpperCase q0)
      || JS.testWords ["INTO"] (JS.toUpperCase q0) = true) as T'
      by (apply refused_test; eauto).
    simpl in T. congruence.
  - rewrite (guard_no_statement sql Q) in G. discriminate G.
Qed.

Lemma guard_passed_statement_witness :
  singleStatement "  select Name, updated_at from Product ; -- DROP it"
    = Some "select Name, updated_at from Product" /\
  countChar ";" "select Name, updated_at from Product" = 0%nat /\
  JS.includes "select Name, updated_at from Product" ";" = false /\
  JS.trim "select Name, updated_at from Product" = "select Name, updated_at from Product" /\
  JS.startsWith (JS.toUpperCase "select Name, updated_at from Product") "SELECT"
  || JS.startsWith (JS.toUpperCase "select Name, updated_at from Product") "WITH" = true /\
  (forall w, In w refusedWords ->
             ~ occursAsWord w (JS.toUpperCase "select Name, updated_at from Product")).
Proof.
  apply (guard_passed_statement_is_single_read
           "  select Name, updated_at from Product ; -- DROP it").
  reflexivity.
Defined.

(** ** Comment stripping *)

Lemma length_dropStr (n : nat) (s : string) :
  (String.length (dropStr n s) <= String.length s)%nat.
Proof.
  revert s. induction n as [|n IH]; intros s; [reflexivity|].
  destruct s as [|c r]; simpl; [lia|]. specialize (IH r). lia.
Qed.

Lemma replaceAllGo_skip (m : string -> option nat) (n : nat) (s : string) :
  JS.replaceAllGo m n s = JS.replaceAllGo m O (dropStr n s).
Proof.
  revert s. induction n as [|n IH]; intros s; [reflexivity|].
  destruct s as [|c r]; [reflexivity|]. simpl. apply IH.
Qed.

(** One step of the scan. *)
Lemma replaceAll_cons (m : string -> option nat) (c : ascii) (r : string) :
  JS.replaceAll m (String c r) =
    match m (String c r) with
    | Some (S n) => String " " (JS.replaceAll m (dropStr n r))
    | _ => String c (JS.replaceAll m r)
    end.
Proof.
  unfold JS.replaceAll. simpl. destruct (m (String c r)) as [[|n]|]; trivial.
  now rewrite replaceAllGo_skip.
Qed.

(** Text without a match is left as it is. *)
Lemma replaceAll_no_match (m : string -> option nat) (s : string) :
  matchesSomewhere m s = false -> JS.replaceAll m s = s.
Proof.
  induction s as [|c r IH]; [reflexivity|]. rewrite replaceAll_cons. simpl.
  intros H. apply orb_false_iff in H as [H1 H2].
  destruct (m (String c r)) as [[|n]|]; try discriminate; now rewrite IH.
Qed.

Lemma matchesSomewhere_dropStr (m : string -> option nat) (n : nat) (s : string) :
  matchesSomewhere m s = false -> matchesSomewhere m (dropStr n s) = false.
Proof.
  revert s. induction n as [|n IH]; intros s H; [exact H|].
  destruct s as [|c r]; [exact H|]. simpl. apply IH.
  simpl in H. now apply orb_false_iff in H as [_ H].
Qed.

Lemma matchesSomewhere_cons_None (m : string -> option nat) (c : ascii) (r : string) :
  m (String c r) = None -> matchesSomewhere m (String c r) = matchesSomewhere m r.
Proof. intros H. cbn [matchesSomewhere]. now rewrite H. Qed.

(** *** Line comments *)

Lemma lineCommentAt_Some (s : string) (n : nat) :
  JS.lineCommentAt s = Some n ->
  exists r, s = String "-" (String "-" r) /\ n = S (S (JS.lineRest r)).
Proof.
  unfold JS.lineCommentAt. intros H.
  destruct s as [|a s']; [discriminate H|].
  destruct a as [[] [] [] [] [] [] [] []]; try discriminate H.
  destruct s' as [|b r]; [discriminate H|].
  destruct b as [[] [] [] [] [] [] [] []]; try discriminate H.
  injection H as <-. now exists r.
Qed.

Lemma startsWith_empty (s : string) : JS.startsWith s "" = true.
Proof. now destruct s. Qed.

Lemma startsWith_two (s : string) (a b : ascii) :
  JS.startsWith s (String a (String b "")) = true <->
  exists r, s = String a (String b r).
Proof.
  split.
  - destruct s as [|x [|y r]]; simpl; try discriminate.
    + rewrite andb_false_r. discriminate.
    + rewrite !andb_true_iff, !Ascii.eqb_eq. intros (-> & -> & _). now exists r.
  - intros (r & ->). simpl. now rewrite !Ascii.eqb_refl, startsWith_empty.
Qed.

Lemma lineCommentAt_None (s : string) :
  JS.lineCommentAt s = None <-> JS.startsWith s "--" = false.
Proof.
  destruct (JS.startsWith s "--") eqn:S.
  - apply startsWith_two in S as (r & ->). split; discriminate.
  - split; [trivial | intros _].
    destruct (JS.lineCommentAt s) as [n|] eqn:E; [|reflexivity].
    apply lineCommentAt_Some in E as (r & -> & _).
    simpl in S. now rewrite startsWith_empty in S.
Qed.

(** What follows a line comment starts a new line or is empty. *)
Lemma headChar_after_line (r : string) :
  from_option JS.isLineTerminator true (JS.headChar (dropStr (JS.lineRest r) r)) = true.
Proof.
  induction r as [|c r IH]; [reflexivity|]. simpl.
  destruct (JS.isLineTerminator c) eqn:L; [simpl; exact L | exact IH].
Qed.

Lemma headChar_stripLine (s : string) :
  JS.headChar (JS.replaceAll JS.lineCommentAt s)
    = if JS.startsWith s "--" then Some " "%char else JS.headChar s.
Proof.
  destruct s as [|c r]; [reflexivity|]. rewrite replaceAll_cons.
  destruct (JS.lineCommentAt (String c r)) as [n|] eqn:E.
  - apply lineCommentAt_Some in E as (r' & E & ->). rewrite E. simpl.
    now rewrite startsWith_empty.
  - apply lineCommentAt_None in E. now rewrite E.
Qed.

Lemma stripLine_clean_bounded (n : nat) (s : string) :
  (String.length s <= n)%nat ->
  matchesSomewhere JS.lineCommentAt (JS.replaceAll JS.lineCommentAt s) = false.
Proof.
  revert s. induction n as [|n IH]; intros s Hn.
  - destruct s; [reflexivity | simpl in Hn; lia].
  - destruct s as [|c r]; [reflexivity|]. simpl in Hn. rewrite replaceAll_cons.
    destruct (JS.lineCommentAt (String c r)) as [k|] eqn:E.
    + apply lineCommentAt_Some in E as (r' & E & ->).
      rewrite matchesSomewhere_cons_None by reflexivity.
      apply IH. etransitivity; [apply length_dropStr | lia].
    + cbn [matchesSomewhere]. rewrite (IH r) by lia. rewrite orb_false_r.
      destruct (JS.lineCommentAt (String c (JS.replaceAll JS.lineCommentAt r)))
        as [k|] eqn:E'; [|reflexivity].
      apply lineCommentAt_Some in E' as (r' & E' & ->). injection E' as -> Hr.
      assert (JS.headChar (JS.replaceAll JS.lineCommentAt r) = Some "-"%char) as Hh
        by now rewrite Hr.
      rewrite headChar_stripLine in Hh.
      destruct (JS.startsWith r "--"); [discriminate Hh|].
      destruct r as [|b r0]; [discriminate Hh|]. injection Hh as ->.
      discriminate E.
Qed.

Lemma stripLine_clean (s : string) :
  matchesSomewhere JS.lineCommentAt (JS.replaceAll JS.lineCommentAt s) = false.
Proof. exact (stripLine_clean_bounded (String.length s) s (Nat.le_refl _)). Qed.

Lemma includes_dashes (s : string) :
  JS.includes s "--" = matchesSomewhere JS.lineCommentAt s.
Proof.
  unfold JS.includes. induction s as [|c r IH]; [reflexivity|].
  cbn [JS.indexOf matchesSomewhere].
  destruct (JS.lineCommentAt (String c r)) as [k|] eqn:E.
  - apply lineCommentAt_Some in E as (r' & E & ->). injection E as -> ->.
    simpl. now rewrite startsWith_empty.
  - apply lineCommentAt_None in E. rewrite E. simpl. rewrite <- IH.
    destruct (Z.ltb_spec (JS.indexOf r "--") 0) as [H|H]; simpl.
    + reflexivity.
    + destruct (Z.ltb_spec (JS.indexOf r "--" + 1) 0); [lia | reflexivity].
Qed.

(** *** Block comments *)

Lemma blockCommentAt_Some (s : string) (n : nat) :
  JS.blockCommentAt s = Some n ->
  exists r k, s = String "/" (String "*" r) /\ JS.findClose r = Some k
              /\ n = S (S (k + 2)).
Proof.
  unfold JS.blockCommentAt. intros H.
  destruct s as [|a s']; [discriminate H|].
  destruct a as [[] [] [] [] [] [] [] []]; try discriminate H.
  destruct s' as [|b r]; [discriminate H|].
  destruct b as [[] [] [] [] [] [] [] []]; try discriminate H.
  destruct (JS.findClose r) as [k|] eqn:F; [|discriminate H].
  injection H as <-. now exists r, k.
Qed.

Lemma blockCommentAt_open (r : string) :
  JS.blockCommentAt (String "/" (String "*" r))
    = option_map (fun k => (2 + k + 2)%nat) (JS.findClose r).
Proof. reflexivity. Qed.

Lemma findClose_cons_None (c : ascii) (r : string) :
  JS.findClose (String c r) = None <->
  JS.startsWith (String c r) "*/" = false /\ JS.findClose r = None.
Proof.
  cbn [JS.findClose]. destruct (JS.startsWith (String c r) "*/").
  - split; [discriminate | intros [? _]; discriminate].
  - destruct (JS.findClose r); simpl; split; try discriminate; auto.
    intros [_ ?]; discriminate.
Qed.

Lemma findClose_None_clean (r : string) :
  JS.findClose r = None -> matchesSomewhere JS.blockCommentAt r = false.
Proof.
  induction r as [|c r IH]; [reflexivity|]. intros H.
  apply findClose_cons_None in H as [_ H]. cbn [matchesSomewhere].
  rewrite (IH H), orb_false_r.
  destruct (JS.blockCommentAt (String c r)) as [n|] eqn:E; [|reflexivity].
  apply blockCommentAt_Some in E as (r' & k & E & F & ->). injection E as -> ->.
  apply findClose_cons_None in H as [_ H]. congruence.
Qed.

Lemma headChar_stripBlock (s : string) :
  JS.headChar (JS.replaceAll JS.blockCommentAt s)
    = match JS.blockCommentAt s with Some _ => Some " "%char | None => JS.headChar s end.
Proof.
  destruct s as [|c r]; [reflexivity|]. rewrite replaceAll_cons.
  destruct (JS.blockCommentAt (String c r)) as [n|] eqn:E; [|reflexivity].
  apply blockCommentAt_Some in E as (r' & k & _ & _ & ->). reflexivity.
Qed.

Lemma stripBlock_clean_bounded (n : nat) (s : string) :
  (String.length s <= n)%nat ->
  matchesSomewhere JS.blockCommentAt (JS.replaceAll JS.blockCommentAt s) = false.
Proof.
  revert s. induction n as [|n IH]; intros s Hn.
  - destruct s; [reflexivity | simpl in Hn; lia].
  - destruct s as [|c r]; [reflexivity|]. simpl in Hn. rewrite replaceAll_cons.
    destruct (JS.blockCommentAt (String c r)) as [k|] eqn:E.
    + apply blockCommentAt_Some in E as (r' & k' & E & _ & ->).
      rewrite matchesSomewhere_cons_None by reflexivity.
      apply IH. etransitivity; [apply length_dropStr | lia].
    + cbn [matchesSomewhere]. rewrite (IH r) by lia. rewrite orb_false_r.
      destruct (JS.blockCommentAt (String c (JS.replaceAll JS.blockCommentAt r)))
        as [k|] eqn:E'; [|reflexivity].
      apply blockCommentAt_Some in E' as (z & k' & E' & F & ->). injection E' as -> Hr.
      assert (JS.headChar (JS.replaceAll JS.blockCommentAt r) = Some "*"%char) as Hh
        by now rewrite Hr.
      rewrite headChar_stripBlock in Hh.
      destruct (JS.blockCommentAt r) eqn:Er; [discriminate Hh|].
      destruct r as [|b r0]; [discriminate Hh|]. injection Hh as ->.
      rewrite replaceAll_cons, Er in Hr. injection Hr as <-.
      rewrite blockCommentAt_open in E.
      destruct (JS.findClose r0) eqn:F0; [discriminate E|].
      rewrite (replaceAll_no_match _ r0 (findClose_None_clean r0 F0)) in F. congruence.
Qed.

Lemma stripBlock_clean (s : string) :
  matchesSomewhere JS.blockCommentAt (JS.replaceAll JS.blockCommentAt s) = false.
Proof. exact (stripBlock_clean_bounded (String.length s) s (Nat.le_refl _)). Qed.

Lemma findClose_dropStr (n : nat) (r : string) :
  JS.findClose r = None -> JS.findClose (dropStr n r) = None.
Proof.
  revert r. induction n as [|n IH]; intros r H; [exact H|].
  destruct r as [|c r]; [exact H|]. simpl. apply IH.
  now apply findClose_cons_None in H.
Qed.

(** Stripping line comments brings no [*/] into the text. *)
Lemma findClose_stripLine_bounded (n : nat) (r : string) :
  (String.length r <= n)%nat ->
  JS.findClose r = None -> JS.findClose (JS.replaceAll JS.lineCommentAt r) = None.
Proof.
  revert r. induction n as [|n IH]; intros r Hn F.
  - destruct r; [reflexivity | simpl in Hn; lia].
  - destruct r as [|c r1]; [reflexivity|]. simpl in Hn. rewrite replaceAll_cons.
    destruct (JS.lineCommentAt (String c r1)) as [k|] eqn:E.
    + apply lineCommentAt_Some in E as (r' & E & ->).
      apply findClose_cons_None. split; [reflexivity|].
      apply IH; [etransitivity; [apply length_dropStr | lia]|].
      apply findClose_dropStr. now apply findClose_cons_None in F.
    + apply findClose_cons_None in F as [S F]. apply findClose_cons_None.
      split; [|apply IH; [lia | exact F]].
      destruct (JS.startsWith (String c (JS.replaceAll JS.lineCommentAt r1)) "*/") eqn:S';
        [|reflexivity].
      apply startsWith_two in S' as (z & S'). injection S' as -> Hz.
      assert (JS.headChar (JS.replaceAll JS.lineCommentAt r1) = Some "/"%char) as Hh
        by now rewrite Hz.
      rewrite headChar_stripLine in Hh.
      destruct (JS.startsWith r1 "--"); [discriminate Hh|].
      destruct r1 as [|b r0]; [discriminate Hh|]. injection Hh as ->.
      simpl in S. now rewrite startsWith_empty in S.
Qed.

(** Stripping line comments closes no block comment. *)
Lemma stripLine_keeps_clean_bounded (n : nat) (s : string) :
  (String.length s <= n)%nat ->
  matchesSomewhere JS.blockCommentAt s = false ->
  matchesSomewhere JS.blockCommentAt (JS.replaceAll JS.lineCommentAt s) = false.
Proof.
  revert s. induction n as [|n IH]; intros s Hn M.
  - destruct s; [reflexivity | simpl in Hn; lia].
  - destruct s as [|c r]; [reflexivity|]. simpl in Hn.
    cbn [matchesSomewhere] in M. apply orb_false_iff in M as [M1 M2].
    rewrite replaceAll_cons.
    destruct (JS.lineCommentAt (String c r)) as [k|] eqn:E.
    + apply lineCommentAt_Some in E as (r' & E & ->).
      rewrite matchesSomewhere_cons_None by reflexivity.
      apply IH; [etransitivity; [apply length_dropStr | lia]|].
      now apply matchesSomewhere_dropStr.
    + cbn [matchesSomewhere]. rewrite (IH r) by (trivial; lia). rewrite orb_false_r.
      destruct (JS.blockCommentAt (String c (JS.replaceAll JS.lineCommentAt r)))
        as [k|] eqn:E'; [|reflexivity].
      apply blockCommentAt_Some in E' as (z & k' & E' & F & ->). injection E' as -> Hr.
      assert (JS.headChar (JS.replaceAll JS.lineCommentAt r) = Some "*"%char) as Hh
        by now rewrite Hr.
      rewrite headChar_stripLine in Hh.
      destruct (JS.startsWith r "--") eqn:Sd; [discriminate Hh|].
      destruct r as [|b r0]; [discriminate Hh|]. injection Hh as ->.
      rewrite replaceAll_cons in Hr.
      apply lineCommentAt_None in Sd. rewrite Sd in Hr. injection Hr as <-.
      rewrite blockCommentAt_open in M1.
      destruct (JS.findClose r0) eqn:F0; [discriminate M1|].
      rewrite (findClose_stripLine_bounded (String.length r0) r0 (Nat.le_refl _) F0) in F.
      discriminate F.
Qed.

Lemma stripComments_clean (s : string) :
  matchesSomewhere JS.lineCommentAt (stripComments s) = false /\
  matchesSomewhere JS.blockCommentAt (stripComments s) = false.
Proof.
  unfold stripComments. split; [apply stripLine_clean|].
  apply (stripLine_keeps_clean_bounded _ _ (Nat.le_refl _)), stripBlock_clean.
Qed.

Lemma stripComments_fixed (s : string) :
  matchesSomewhere JS.lineCommentAt s = false ->
  matchesSomewhere JS.blockCommentAt s = false ->
  stripComments s = s.
Proof.
  intros L B. unfold stripComments. now rewrite (replaceAll_no_match _ s B), replaceAll_no_match.
Qed.

(** *** Text without comments *)

Lemma includes_cons (c : ascii) (r p : string) :
  JS.includes (String c r) p = JS.startsWith (String c r) p || JS.includes r p.
Proof.
  unfold JS.includes. cbn [JS.indexOf].
  destruct (JS.startsWith (String c r) p); [reflexivity|]. simpl.
  destruct (Z.ltb_spec (JS.indexOf r p) 0) as [H|H]; simpl; [reflexivity|].
  destruct (Z.ltb_spec (JS.indexOf r p + 1) 0); [lia | reflexivity].
Qed.

Lemma includes_open_clean (s : string) :
  JS.includes s "/*" = false -> matchesSomewhere JS.blockCommentAt s = false.
Proof.
  induction s as [|c r IH]; [reflexivity|]. rewrite includes_cons.
  intros H. apply orb_false_iff in H as [S H]. cbn [matchesSomewhere].
  rewrite (IH H), orb_false_r.
  destruct (JS.blockCommentAt (String c r)) as [n|] eqn:E; [|reflexivity].
  apply blockCommentAt_Some in E as (r' & k & E & _). rewrite E in S.
  simpl in S. now rewrite startsWith_empty in S.
Qed.

Lemma includes_close_None (s : string) :
  JS.includes s "*/" = false -> JS.findClose s = None.
Proof.
  induction s as [|c r IH]; [reflexivity|]. rewrite includes_cons.
  intros H. apply orb_false_iff in H as [S H]. apply findClose_cons_None. auto.
Qed.

Lemma findClose_closed (body post : string) :
  JS.findClose (body +:+ "*/" +:+ post) <> None.
Proof.
  induction body as [|c body IH].
  - change ("" +:+ "*/" +:+ post) with (String "*" (String "/" post)).
    cbn [JS.findClose]. simpl. now rewrite startsWith_empty.
  - rewrite append_cons. intros H. now apply findClose_cons_None in H as [_ H].
Qed.

Lemma matchesSomewhere_append (m : string -> option nat) (pre s : string) :
  matchesSomewhere m s = true -> matchesSomewhere m (pre +:+ s) = true.
Proof.
  intros H. induction pre as [|c pre IH]; [exact H|].
  rewrite append_cons. cbn [matchesSomewhere]. rewrite IH. apply orb_true_r.
Qed.

(** X4.  What [stripComments] returns holds no line comment (no [--]) and
    no closed block comment, and stripping it again changes nothing. *)
Theorem stripComments_leaves_no_comment (s : string) :
  JS.includes (stripComments s) "--" = false /\
  (forall pre body post,
      stripComments s <> pre +:+ "/*" +:+ body +:+ "*/" +:+ post) /\
  stripComments (stripComments s) = stripComments s.
Proof.
  destruct (stripComments_clean s) as [L B]. split; [|split].
  - now rewrite includes_dashes.
  - intros pre body post E. rewrite E in B.
    rewrite matchesSomewhere_append in B; [discriminate B|].
    change ("/*" +:+ body +:+ "*/" +:+ post)
      with (String "/" (String "*" (body +:+ "*/" +:+ post))).
    cbn [matchesSomewhere]. rewrite blockCommentAt_open.
    destruct (JS.findClose (body +:+ "*/" +:+ post)) eqn:F; [reflexivity|].
    now apply findClose_closed in F.
  - now apply stripComments_fixed.
Qed.

(** X5.  A text without [--] that lacks either [/*] or [*/] comes back
    from [stripComments] as it is: single dashes, slashes and stars are
    left alone. *)
Theorem stripComments_keeps_comment_free_text (s : string) :
  JS.includes s "--" = false ->
  JS.includes s "/*" = false \/ JS.includes s "*/" = false ->
  stripComments s = s.
Proof.
  intros L B. apply stripComments_fixed.
  - now rewrite <- includes_dashes.
  - destruct B as [B|B]; [now apply includes_open_clean|].
    now apply findClose_None_clean, includes_close_None.
Qed.

Lemma stripComments_keeps_text_witness :
  stripComments "SELECT a/b - c*2, d /* unclosed FROM t WHERE e-1 > -2"
  = "SELECT a/b - c*2, d /* unclosed FROM t WHERE e-1 > -2".
Proof.
  apply stripComments_keeps_comment_free_text; [reflexivity | right; reflexivity].
Defined.

(** *** The statement that passed, read again *)

Lemma lineCommentAt_append (a b : string) (n : nat) :
  JS.lineCommentAt a = Some n -> exists k, JS.lineCommentAt (a +:+ b) = Some (S k).
Proof.
  intros H. apply lineCommentAt_Some in H as (r & -> & _).
  now exists (S (JS.lineRest (r +:+ b))).
Qed.

Lemma findClose_append (r b : string) (k : nat) :
  JS.findClose r = Some k -> JS.findClose (r +:+ b) = Some k.
Proof.
  revert k. induction r as [|c r IH]; intros k; [discriminate|].
  rewrite append_cons. cbn [JS.findClose].
  destruct (JS.startsWith (String c r) "*/") eqn:S.
  - apply startsWith_two in S as (z & E). injection E as -> ->.
    rewrite append_cons. simpl. now rewrite startsWith_empty.
  - destruct (JS.findClose r) as [j|] eqn:F; [|discriminate]. cbn [option_map].
    intros [= <-]. rewrite (IH j eq_refl). cbn [option_map].
    destruct (JS.startsWith (String c (r +:+ b)) "*/") eqn:S'; [|reflexivity].
    apply startsWith_two in S' as (z & E). injection E as -> E.
    destruct r as [|d r]; [discriminate F|]. rewrite append_cons in E.
    injection E as -> _. simpl in S. now rewrite startsWith_empty in S.
Qed.

Lemma blockCommentAt_append (a b : string) (n : nat) :
  JS.blockCommentAt a = Some n -> exists k, JS.blockCommentAt (a +:+ b) = Some (S k).
Proof.
  intros H. apply blockCommentAt_Some in H as (r & k & -> & F & _).
  rewrite !append_cons, blockCommentAt_open, (findClose_append r b k F).
  now exists (S (k + 2)).
Qed.

Lemma matchesSomewhere_prefix (m : string -> option nat) (a b : string) :
  (forall x y n, m x = Some n -> exists k, m (x +:+ y) = Some (S k)) ->
  matchesSomewhere m (a +:+ b) = false -> matchesSomewhere m a = false.
Proof.
  intros Hm. induction a as [|c a IH].
  - intros H. cbn [matchesSomewhere]. rewrite orb_false_r.
    destruct (m "") as [[|n]|] eqn:E; trivial.
    destruct (Hm "" b _ E) as (k & E'). change ("" +:+ b) with b in *.
    destruct b; cbn [matchesSomewhere] in H; rewrite E' in H; discriminate H.
  - rewrite append_cons. cbn [matchesSomewhere]. intros H.
    apply orb_false_iff in H as [H1 H2]. rewrite (IH H2), orb_false_r.
    destruct (m (String c a)) as [[|n]|] eqn:E; trivial.
    destruct (Hm _ b _ E) as (k & E'). rewrite append_cons in E'. now rewrite E' in H1.
Qed.

Lemma matchesSomewhere_trimStart (m : string -> option nat) (s : string) :
  matchesSomewhere m s = false -> matchesSomewhere m (JS.trimStart s) = false.
Proof.
  induction s as [|c r IH]; [trivial|]. simpl JS.trimStart.
  destruct (JS.isWhiteSpace c); [|trivial].
  intros H. apply IH. cbn [matchesSomewhere] in H. now apply orb_false_iff in H.
Qed.

Lemma trimEnd_prefix (s : string) : exists rest, s = JS.trimEnd s +:+ rest.
Proof.
  induction s as [|c r (rest & IH)]; [now exists ""|]. simpl.
  destruct (JS.trimEnd r) as [|d r'] eqn:E.
  - destruct (JS.isWhiteSpace c); [now exists (String c r) | now exists r].
  - exists rest. rewrite append_cons. now f_equal.
Qed.

Lemma sliceInit_prefix (s : string) : exists rest, s = JS.sliceInit s +:+ rest.
Proof.
  induction s as [|c r (rest & IH)]; [now exists ""|].
  destruct r as [|d r]; [now exists (String c "")|].
  exists rest. change (JS.sliceInit (String c (String d r)))
    with (String c (JS.sliceInit (String d r))).
  rewrite append_cons. now f_equal.
Qed.

(** Text free of comments stays so under [trim] and [slice(0, -1)]. *)
Lemma clean_trim (s : string) :
  matchesSomewhere JS.lineCommentAt s = false /\
  matchesSomewhere JS.blockCommentAt s = false ->
  matchesSomewhere JS.lineCommentAt (JS.trim s) = false /\
  matchesSomewhere JS.blockCommentAt (JS.trim s) = false.
Proof.
  intros [L B]. unfold JS.trim.
  destruct (trimEnd_prefix (JS.trimStart s)) as (rest & E).
  apply (matchesSomewhere_trimStart _ s) in L, B. rewrite E in L, B.
  split; eapply matchesSomewhere_prefix; eauto using lineCommentAt_append, blockCommentAt_append.
Qed.

Lemma clean_sliceInit (s : string) :
  matchesSomewhere JS.lineCommentAt s = false /\
  matchesSomewhere JS.blockCommentAt s = false ->
  matchesSomewhere JS.lineCommentAt (JS.sliceInit s) = false /\
  matchesSomewhere JS.blockCommentAt (JS.sliceInit s) = false.
Proof.
  intros [L B]. destruct (sliceInit_prefix s) as (rest & E). rewrite E in L, B.
  split; eapply matchesSomewhere_prefix; eauto using lineCommentAt_append, blockCommentAt_append.
Qed.

Lemma passed_statement_clean (sql q : string) :
  guard sql = Passed q -> stripComments q = q /\ singleStatement q = Some q.
Proof.
  intros G.
  destruct (singleStatement sql) as [q0|] eqn:Q;
    [|rewrite (guard_no_statement sql Q) in G; discriminate G].
  rewrite (guard_statement sql q0 Q) in G.
  assert (q0 = q) as ->.
  { destruct (checkStatement_cases q0) as [[_ E] | [(_ & _ & E) | (_ & _ & E)]];
      rewrite E in G; congruence. }
  destruct (singleStatement_shape sql q Q) as [C T].
  assert (stripComments q = q) as F.
  { pose proof (clean_trim _ (stripComments_clean sql)) as K.
    revert Q. unfold singleStatement. destruct (JS.includes _ ";").
    - destruct (negb _); [discriminate|]. intros [= <-].
      apply clean_sliceInit, clean_trim in K as [K1 K2]. now apply stripComments_fixed.
    - intros [= <-]. destruct K as [K1 K2]. now apply stripComments_fixed. }
  split; [exact F|].
  unfold singleStatement. rewrite F, T, includes_char, C. reflexivity.
Qed.

(** X6.  The statement the guard lets pass is a fixed point: it holds no
    comment, and given to the guard again it passes unchanged. *)
Theorem guard_passed_statement_is_fixed (sql q : string) :
  guard sql = Passed q ->
  stripComments q = q /\ singleStatement q = Some q /\ guard q = Passed q.
Proof.
  intros G. destruct (passed_statement_clean sql q G) as [F S].
  split; [exact F|]. split; [exact S|].
  rewrite (guard_statement q q S).
  destruct (singleStatement sql) as [q0|] eqn:Q;
    [|rewrite (guard_no_statement sql Q) in G; discriminate G].
  rewrite (guard_statement sql q0 Q) in G.
  destruct (checkStatement_cases q0) as [[_ E] | [(_ & _ & E) | (_ & _ & E)]];
    rewrite E in G; congruence.
Qed.

Lemma guard_passed_statement_is_fixed_witness :
  stripComments "WITH t AS (SELECT 1 AS a) SELECT a FROM t" = "WITH t AS (SELECT 1 AS a) SELECT a FROM t" /\
  singleStatement "WITH t AS (SELECT 1 AS a) SELECT a FROM t"
    = Some "WITH t AS (SELECT 1 AS a) SELECT a FROM t" /\
  guard "WITH t AS (SELECT 1 AS a) SELECT a FROM t"
    = Passed "WITH t AS (SELECT 1 AS a) SELECT a FROM t".
Proof.
  apply (guard_passed_statement_is_fixed
           " /* cte */ WITH t AS (SELECT 1 AS a) SELECT a FROM t ; -- DROP").
  reflexivity.
Defined.

(** ** Failed lookups *)

(** X7.  A call of [getTables] that is rejected found the table cache
    empty, sent the one table-list request, carries the message of the
    executor and leaves both caches as they were: the error is not cached,
    the next call asks again. *)
Theorem getTables_failure_is_not_cached
    {World : Type} (host : Host World) (p : Process World) (e : string) :
  fst (getTables host p) = Rejected e ->
  tablesCache (caches p) = None /\
  fst (queryTableInfo host (tablesRequest (getTargetSchema host)) (world p)) = inl e /\
  caches (snd (getTables host p)) = caches p /\
  sent (snd (getTables host p)) = sent p ++ [tablesRequest (getTargetSchema host)].
Proof.
  destruct (tablesCache (caches p)) as [v|] eqn:C.
  - rewrite (getTables_hit host p v C). discriminate.
  - rewrite (getTables_miss host p C).
    destruct (queryTableInfo host _ (world p)) as [[e'|v] w]; simpl; [|discriminate].
    intros [= <-]. auto.
Qed.

(** X8.  A call of [getTableSchema] that is rejected stores no columns:
    the column cache is as it was, without an entry for the table.  The
    message is the one of the table-list request, the not-found message, or
    the one of the column request. *)
Theorem getTableSchema_failure_is_not_cached
    {World : Type} (host : Host World) (t : string) (p : Process World) (e : string) :
  fst (getTableSchema host t p) = Rejected e ->
  columnsCache (caches p) !! cacheKey (getTargetSchema host) t = None /\
  columnsCache (caches (snd (getTableSchema host t p))) = columnsCache (caches p) /\
  (fst (getTables host p) = Rejected e \/
   e = notFoundMessage (getTargetSchema host) t \/
   fst (queryColumnInfo host (columnsRequest (getTargetSchema host) t) (world (snd (getTables host p))))
     = inl e).
Proof.
  destruct (columnsCache (caches p) !! cacheKey (getTargetSchema host) t) as [v|] eqn:C.
  - rewrite (getTableSchema_hit host t p v C). discriminate.
  - rewrite (getTableSchema_miss host t p C).
    pose proof (getTables_columnsCache host p) as K.
    destruct (getTables host p) as [[tables|e'] p1]; simpl in *.
    + destruct (listed (getTargetSchema host) t tables).
      * destruct (queryColumnInfo host _ (world p1)) as [[e'|v] w]; simpl; [|discriminate].
        intros [= <-]. auto.
      * simpl. intros [= <-]. auto.
    + intros [= <-]. auto.
Qed.

Section LookupFacts.
Context {World : Type} (host : Host World).

Local Abbreviation schema := (getTargetSchema host).

(** The outcome of a call that misses the column cache. *)
Lemma getTableSchema_miss_result (t : string) (p : Process World) :
  columnsCache (caches p) !! cacheKey schema t = None ->
  fst (getTableSchema host t p) =
    match fst (getTables host p) with
    | Rejected e => Rejected e
    | Resolved tables =>
        if listed schema t tables
        then settle (fst (queryColumnInfo host (columnsRequest schema t)
                            (world (snd (getTables host p)))))
        else Rejected (notFoundMessage schema t)
    end.
Proof.
  intros C. rewrite (getTableSchema_miss host t p C).
  destruct (getTables host p) as [[tables|e] p1]; simpl; [|reflexivity].
  destruct (listed schema t tables); [|reflexivity].
  now destruct (queryColumnInfo host _ (world p1)) as [[e|v] w].
Qed.

End LookupFacts.

(** The database is out of reach. *)
Lemma getTables_failure_witness :
  tablesCache (caches (initial 0%nat)) = None /\
  fst (queryTableInfo Outage.host (tablesRequest (getTargetSchema Outage.host))
         (world (initial 0%nat))) = inl "Connection lost." /\
  caches (snd (getTables Outage.host (initial 0%nat))) = caches (initial 0%nat) /\
  sent (snd (getTables Outage.host (initial 0%nat)))
    = sent (initial 0%nat) ++ [tablesRequest (getTargetSchema Outage.host)].
Proof.
  apply (getTables_failure_is_not_cached Outage.host (initial 0%nat) "Connection lost.").
  reflexivity.
Defined.

(** The column request for [Detail] runs into a timeout. *)
Lemma getTableSchema_failure_witness :
  columnsCache (caches (initial 0%nat)) !! cacheKey (getTargetSchema Steady.host) "Detail"
    = None /\
  columnsCache (caches (snd (getTableSchema Steady.host "Detail" (initial 0%nat))))
    = columnsCache (caches (initial 0%nat)) /\
  (fst (getTables Steady.host (initial 0%nat)) = Rejected "Timeout." \/
   "Timeout." = notFoundMessage (getTargetSchema Steady.host) "Detail" \/
   fst (queryColumnInfo Steady.host (columnsRequest (getTargetSchema Steady.host) "Detail")
          (world (snd (getTables Steady.host (initial 0%nat)))))
     = inl "Timeout.").
Proof.
  apply (getTableSchema_failure_is_not_cached Steady.host "Detail" (initial 0%nat) "Timeout.").
  reflexivity.
Defined.

(** ** The cache and an unchanging schema *)

Section Coherence.
Context {World : Type} (host : Host World).
Hypothesis stable : stableSchema host.

Local Abbreviation schema := (getTargetSchema host).

Lemma getTables_coherent (p : Process World) :
  cachesCoherent host (caches p) -> cachesCoherent host (caches (snd (getTables host p))).
Proof.
  intros I. destruct (tablesCache (caches p)) as [v0|] eqn:C.
  - now rewrite (getTables_hit host p v0 C).
  - rewrite (getTables_miss host p C).
    destruct (queryTableInfo host _ (world p)) as [[e|v] w] eqn:Q; simpl; [exact I|].
    destruct I as [T K]. split; simpl; [|exact K].
    intros v' [= <-] w'. rewrite (proj1 stable _ w' (world p)), Q. reflexivity.
Qed.

Lemma getTableSchema_coherent (t : string) (p : Process World) :
  cachesCoherent host (caches p) ->
  cachesCoherent host (caches (snd (getTableSchema host t p))).
Proof.
  intros I. destruct (columnsCache (caches p) !! cacheKey schema t) as [v0|] eqn:C.
  - now rewrite (getTableSchema_hit host t p v0 C).
  - rewrite (getTableSchema_miss host t p C).
    pose proof (getTables_coherent p I) as I1.
    destruct (getTables host p) as [[tables|e] p1]; simpl in I1; [|exact I1].
    destruct (listed schema t tables); [|exact I1].
    destruct (queryColumnInfo host _ (world p1)) as [[e|v] w] eqn:Q; simpl; [exact I1|].
    destruct I1 as [T K]. split; simpl; [exact T|].
    intros t' v' L w'. destruct (decide (t = t')) as [<-|Hne].
    + rewrite lookup_insert_eq in L. injection L as <-.
      rewrite (proj2 stable _ w' (world p1)), Q. reflexivity.
    + rewrite lookup_insert_ne in L; [now apply K|].
      intros E. now apply cacheKey_inj in E.
Qed.

Lemma step_coherent (p : Process World) (op : Op World) :
  cachesCoherent host (caches p) -> cachesCoherent host (caches (step host p op)).
Proof.
  intros I. destruct op; simpl.
  - now apply getTables_coherent.
  - now apply getTableSchema_coherent.
  - now rewrite getPrimaryKeys_caches.
  - now rewrite getForeignKeys_caches.
  - split; simpl; [discriminate|]. intros t v L. now rewrite lookup_empty in L.
  - rewrite db_describeTable_snd, getPrimaryKeys_caches. now apply getTableSchema_coherent.
  - rewrite db_getDatabaseContext_snd, getForeignKeys_caches, getPrimaryKeys_caches.
    now apply getTables_coherent.
  - now rewrite db_select_caches.
  - exact I.
  - exact I.
Qed.

Lemma reachable_coherent (p : Process World) :
  reachable host p -> cachesCoherent host (caches p).
Proof.
  intros (w & ops & ->). unfold run.
  assert (cachesCoherent host (caches (initial w))) as I.
  { split; simpl; [discriminate|]. intros t v L. now rewrite lookup_empty in L. }
  revert I. generalize (initial w). induction ops as [|op ops IH]; simpl; intros p I.
  - exact I.
  - apply IH. now apply step_coherent.
Qed.

Lemma getTables_cleared (p : Process World) :
  fst (getTables host (cleared p))
    = settle (fst (queryTableInfo host (tablesRequest schema) (world p))).
Proof.
  rewrite (getTables_miss host (cleared p) eq_refl). simpl.
  now destruct (queryTableInfo host _ (world p)) as [[e|v] w].
Qed.

End Coherence.

(** X9.  While the schema does not change, the caches cannot be told from
    the outside: in every state the process can reach, [getTables] and
    [getTableSchema] give what they give with both caches emptied first. *)
Theorem lookups_do_not_depend_on_the_caches
    {World : Type} (host : Host World) (p : Process World) :
  stableSchema host ->
  reachable host p ->
  fst (getTables host p) = fst (getTables host (cleared p)) /\
  forall t, fst (getTableSchema host t p) = fst (getTableSchema host t (cleared p)).
Proof.
  intros stable R.
  pose proof (reachable_coherent host stable p R) as [T K].
  pose proof (reachable_consistent host p R) as I.
  assert (fst (getTables host p) = fst (getTables host (cleared p))) as ET.
  { rewrite getTables_cleared. destruct (tablesCache (caches p)) as [v|] eqn:C.
    - rewrite (getTables_hit host p v C), (T v eq_refl). reflexivity.
    - rewrite (getTables_miss host p C).
      now destruct (queryTableInfo host _ (world p)) as [[e|v] w]. }
  split; [exact ET|]. intros t.
  rewrite (getTableSchema_miss_result host t (cleared p)) by apply lookup_empty.
  rewrite <- ET.
  destruct (columnsCache (caches p) !! cacheKey (getTargetSchema host) t) as [v|] eqn:C.
  - rewrite (getTableSchema_hit host t p v C). simpl.
    destruct (I t) as (tables & E & L); [now rewrite C|].
    rewrite (getTables_hit host p tables E). simpl. now rewrite L, (K t v C).
  - rewrite (getTableSchema_miss_result host t p C).
    destruct (fst (getTables host p)) as [tables|e]; [|reflexivity].
    destruct (listed (getTargetSchema host) t tables); [|reflexivity].
    now rewrite (proj2 stable _ _ (world (snd (getTables host (cleared p))))).
Qed.

Lemma Steady_stable : stableSchema Steady.host.
Proof. split; intros req w w'; reflexivity. Qed.

(** After two lookups and a change of the database state. *)
Lemma lookups_do_not_depend_on_the_caches_witness :
  fst (getTables Steady.host
         (run Steady.host [GetTableSchema "Product"; DatabaseChanges 7%nat] (initial 0%nat)))
  = fst (getTables Steady.host
           (cleared (run Steady.host [GetTableSchema "Product"; DatabaseChanges 7%nat]
                       (initial 0%nat)))) /\
  forall t,
    fst (getTableSchema Steady.host t
           (run Steady.host [GetTableSchema "Product"; DatabaseChanges 7%nat] (initial 0%nat)))
    = fst (getTableSchema Steady.host t
             (cleared (run Steady.host [GetTableSchema "Product"; DatabaseChanges 7%nat]
                         (initial 0%nat)))).
Proof.
  apply (lookups_do_not_depend_on_the_caches Steady.host).
  - exact Steady_stable.
  - exists 0%nat, [GetTableSchema "Product"; DatabaseChanges 7%nat]. reflexivity.
Defined.

(** ** The handler of [db.getDatabaseContext] *)

Lemma all3_Resolved {World A B C : Type} (first : World -> bool)
    (m1 : Async World A) (m2 : Async World B)
    (m3 : Async World C) (p p' : Process World) (a : A) (b : B) (c : C) :
  all3 first m1 m2 m3 p = (Resolved (a, b, c), p') ->
  m1 p = (Resolved a, snd (m1 p)) /\
  m2 (snd (m1 p)) = (Resolved b, snd (m2 (snd (m1 p)))) /\
  m3 (snd (m2 (snd (m1 p)))) = (Resolved c, p').
Proof.
  unfold all3. destruct (all2 first m1 m2 p) as [r12 p2] eqn:H12.
  destruct (m3 p2) as [r3 p3] eqn:H3.
  destruct r12 as [[a' b']|e], r3 as [c'|e']; intros H; inversion H; subst.
  apply all2_Resolved in H12 as [H1 H2]. rewrite H1 in H2 |- *. simpl in *.
  rewrite H2. simpl. auto.
Qed.

Lemma slice0_prefix {A : Type} (l : list A) (e : Z) :
  exists rest, l = slice0 l e ++ rest.
Proof.
  unfold slice0. destruct (0 <=? e); eexists; symmetry; apply firstn_skipn.
Qed.

Lemma slice0_length {A : Type} (l : list A) (e : Z) :
  0 <= e -> List.length (slice0 l e) = Nat.min (Z.to_nat e) (List.length l).
Proof.
  intros H. unfold slice0. apply Z.leb_le in H. rewrite H. apply List.length_firstn.
Qed.

(** X10.  A response of [db.getDatabaseContext] to arguments of the
    declared shape carries the first [maxTables] entries of the table list,
    in its order (the whole list when [maxTables] is left out or larger
    than the list), and the primary-key and foreign-key lists exactly as
    [getPrimaryKeys] and [getForeignKeys] returned them. *)
Theorem db_getDatabaseContext_lists_a_prefix
    {World : Type} (host : Host World) (maxTables : option Z)
    (p p' : Process World) (r : ToolResult) :
  zodAccepts (z_optional (z_number_int 1 200)) (JNum <$> maxTables) = true ->
  db_getDatabaseContext host maxTables p = (Resolved r, p') ->
  exists tablesAll tables rest primaryKeys foreignKeys,
    fst (getTables host p) = Resolved tablesAll /\
    fst (getPrimaryKeys host (snd (getTables host p))) = Resolved primaryKeys /\
    fst (getForeignKeys host (snd (getPrimaryKeys host (snd (getTables host p)))))
      = Resolved foreignKeys /\
    r = textResult (JSON_stringify
          (ContextPayload (default "SalesLT" (envAtCall host)) tables primaryKeys
             foreignKeys "All results are filtered to the configured schema.")) /\
    tablesAll = tables ++ rest /\
    (maxTables = None -> rest = []) /\
    (forall n, maxTables = Some n ->
       List.length tables = Nat.min (Z.to_nat n) (List.length tablesAll) /\
       (List.length tables <= 200)%nat).
Proof.
  intros V H. unfold db_getDatabaseContext, bind in H.
  destruct (all3 _ _ _ _ p) as [[[[tablesAll pks] fks]|e] p3] eqn:A; [|discriminate H].
  unfold ret in H. injection H as <- <-.
  apply all3_Resolved in A as (H1 & H2 & H3).
  assert (fst (getTables host p) = Resolved tablesAll) as F1 by now rewrite H1.
  assert (fst (getPrimaryKeys host (snd (getTables host p))) = Resolved pks) as F2
    by now rewrite H2.
  assert (fst (getForeignKeys host (snd (getPrimaryKeys host (snd (getTables host p)))))
          = Resolved fks) as F3 by now rewrite H3.
  clear H1 H2 H3.
  destruct maxTables as [n|]; simpl in V.
  - apply andb_true_iff in V as [V1 V2]. apply Z.leb_le in V1, V2.
    destruct (Z.eqb_spec n 0) as [->|_]; [lia|].
    destruct (slice0_prefix tablesAll n) as (rest & E).
    exists tablesAll, (slice0 tablesAll n), rest, pks, fks.
    repeat split; trivial; try discriminate.
    + injection H as <-. apply slice0_length. lia.
    + injection H as <-. rewrite slice0_length by lia. lia.
  - exists tablesAll, tablesAll, [], pks, fks.
    repeat split; trivial; try discriminate.
    now rewrite app_nil_r.
Qed.

(** The first two of the three tables of the example database. *)
Lemma db_getDatabaseContext_prefix_witness :
  exists tablesAll tables rest primaryKeys foreignKeys,
    fst (getTables Fixture.host Fixture.start) = Resolved tablesAll /\
    fst (getPrimaryKeys Fixture.host (snd (getTables Fixture.host Fixture.start)))
      = Resolved primaryKeys /\
    fst (getForeignKeys Fixture.host
           (snd (getPrimaryKeys Fixture.host (snd (getTables Fixture.host Fixture.start)))))
      = Resolved foreignKeys /\
    textResult (JSON_stringify
      (ContextPayload "SalesLT"
         [TableInfo.mk "Customer" "SalesLT"; TableInfo.mk "Detail" "SalesLT"]
         Fixture.primaryKeys [] "All results are filtered to the configured schema."))
    = textResult (JSON_stringify
          (ContextPayload (default "SalesLT" (envAtCall Fixture.host)) tables primaryKeys
             foreignKeys "All results are filtered to the configured schema.")) /\
    tablesAll = tables ++ rest /\
    (Some 2 = None -> rest = []) /\
    (forall n, Some 2 = Some n ->
       List.length tables = Nat.min (Z.to_nat n) (List.length tablesAll) /\
       (List.length tables <= 200)%nat).
Proof.
  apply (db_getDatabaseContext_lists_a_prefix Fixture.host (Some 2) Fixture.start
           (snd (db_getDatabaseContext Fixture.host (Some 2) Fixture.start)));
    reflexivity.
Defined.

(** ** Requests of the schema tools *)

Section RequestFacts.
Context {World : Type} (host : Host World).

Local Abbreviation schema := (getTargetSchema host).

Lemma getPrimaryKeys_sent (p : Process World) :
  sent (snd (getPrimaryKeys host p)) = sent p ++ [primaryKeysRequest schema].
Proof.
  unfold getPrimaryKeys, SQLClient_query.
  now destruct (queryPrimaryKeyInfo host _ (world p)).
Qed.

Lemma getForeignKeys_sent (p : Process World) :
  sent (snd (getForeignKeys host p)) = sent p ++ [foreignKeysRequest schema].
Proof.
  unfold getForeignKeys, SQLClient_query.
  now destruct (queryForeignKeyInfo host _ (world p)).
Qed.

Lemma getTableSchema_sent_warm (t : string) (p : Process World) (tables : list TableInfo.t) :
  tablesCache (caches p) = Some tables ->
  sent (snd (getTableSchema host t p)) = sent p \/
  sent (snd (getTableSchema host t p)) = sent p ++ [columnsRequest schema t].
Proof.
  intros T. destruct (columnsCache (caches p) !! cacheKey schema t) as [v|] eqn:C.
  - rewrite (getTableSchema_hit host t p v C). now left.
  - rewrite (getTableSchema_miss host t p C), (getTables_hit host p tables T).
    destruct (listed schema t tables); [|now left].
    right. now destruct (queryColumnInfo host _ (world p)) as [[e|v] w].
Qed.

(** The column lookup sends table-list and column requests only. *)
Lemma getTableSchema_sends_no_key_request (t : string) (p : Process World) :
  List.filter isPrimaryKeysRequest (sent (snd (getTableSchema host t p)))
  = List.filter isPrimaryKeysRequest (sent p).
Proof.
  destruct (columnsCache (caches p) !! cacheKey schema t) as [v|] eqn:C.
  - now rewrite (getTableSchema_hit host t p v C).
  - rewrite (getTableSchema_miss host t p C).
    assert (List.filter isPrimaryKeysRequest (sent (snd (getTables host p)))
            = List.filter isPrimaryKeysRequest (sent p)) as T.
    { destruct (getTables_sent host p) as [-> | ->]; [reflexivity|].
      rewrite List.filter_app. simpl. apply app_nil_r. }
    destruct (getTables host p) as [[tables|e] p1]; simpl in T; [|exact T].
    destruct (listed schema t tables); [|exact T].
    destruct (queryColumnInfo host _ (world p1)) as [[e|v] w]; simpl;
      rewrite List.filter_app; simpl; now rewrite app_nil_r.
Qed.

(** With a table list in the cache, no event but [clearCache] sends the
    table-list request. *)
Lemma step_sends_no_tables_request (p : Process World) (op : Op World)
    (tables : list TableInfo.t) :
  tablesCache (caches p) = Some tables ->
  isClearCache op = false ->
  List.filter isTablesRequest (sent (step host p op)) = List.filter isTablesRequest (sent p).
Proof.
  intros T N.
  assert (forall t, List.filter isTablesRequest (sent (snd (getTableSchema host t p)))
                    = List.filter isTablesRequest (sent p)) as GTS.
  { intros t. destruct (getTableSchema_sent_warm t p tables T) as [-> | ->]; [reflexivity|].
    rewrite List.filter_app. simpl. apply app_nil_r. }
  destruct op; simpl; try discriminate N.
  - now rewrite (getTables_hit host p tables T).
  - apply GTS.
  - rewrite getPrimaryKeys_sent, List.filter_app. simpl. apply app_nil_r.
  - rewrite getForeignKeys_sent, List.filter_app. simpl. apply app_nil_r.
  - rewrite db_describeTable_snd, getPrimaryKeys_sent, List.filter_app. simpl.
    rewrite app_nil_r. apply GTS.
  - rewrite db_getDatabaseContext_snd, getForeignKeys_sent, getPrimaryKeys_sent,
      (getTables_hit host p tables T), !List.filter_app. simpl. now rewrite !app_nil_r.
  - destruct (guard sql) as [text|q] eqn:G.
    + now rewrite (db_select_refused host sql maxRows text p G).
    + rewrite (db_select_passed host sql maxRows q p G). simpl.
      rewrite List.filter_app. simpl. apply app_nil_r.
  - reflexivity.
  - reflexivity.
Qed.

Lemma run_sends_no_tables_request (ops : list (Op World)) (p : Process World)
    (tables : list TableInfo.t) :
  tablesCache (caches p) = Some tables ->
  forallb (fun op => negb (isClearCache op)) ops = true ->
  List.filter isTablesRequest (sent (run host ops p)) = List.filter isTablesRequest (sent p).
Proof.
  revert p. induction ops as [|op ops IH]; simpl; intros p T H; [reflexivity|].
  apply andb_true_iff in H as [H1 H2]. apply negb_true_iff in H1.
  rewrite IH; trivial.
  - now apply (step_sends_no_tables_request p op tables).
  - now apply (step_kept host p op H1).
Qed.

End RequestFacts.

(** X11.  The key lists are never cached.  Every call of [db.describeTable]
    sends the primary-key request, once, beside whatever its column lookup
    sends and also when that lookup fails, and every call of
    [db.getDatabaseContext] sends the primary-key and the foreign-key
    request; with warm caches these are the only requests. *)
Theorem schema_tools_ask_for_keys_at_every_call
    {World : Type} (host : Host World) :
  (forall t p,
      List.filter isPrimaryKeysRequest (sent (snd (db_describeTable host t p)))
        = List.filter isPrimaryKeysRequest (sent p)
            ++ [primaryKeysRequest (getTargetSchema host)] /\
      List.filter (fun r => negb (isPrimaryKeysRequest r))
        (sent (snd (db_describeTable host t p)))
        = List.filter (fun r => negb (isPrimaryKeysRequest r))
            (sent (snd (getTableSchema host t p)))) /\
  (forall n p,
      sent (snd (db_getDatabaseContext host n p))
        = sent (snd (getTables host p))
            ++ [primaryKeysRequest (getTargetSchema host); foreignKeysRequest (getTargetSchema host)]) /\
  (forall t p columns,
      columnsCache (caches p) !! cacheKey (getTargetSchema host) t = Some columns ->
      sent (snd (db_describeTable host t p)) = sent p ++ [primaryKeysRequest (getTargetSchema host)] /\
      caches (snd (db_describeTable host t p)) = caches p) /\
  (forall n p tables,
      tablesCache (caches p) = Some tables ->
      sent (snd (db_getDatabaseContext host n p))
        = sent p ++ [primaryKeysRequest (getTargetSchema host); foreignKeysRequest (getTargetSchema host)] /\
      caches (snd (db_getDatabaseContext host n p)) = caches p).
Proof.
  assert (forall n p, sent (snd (db_getDatabaseContext host n p))
            = sent (snd (getTables host p))
                ++ [primaryKeysRequest (getTargetSchema host); foreignKeysRequest (getTargetSchema host)]) as C.
  { intros n p. rewrite db_getDatabaseContext_snd, getForeignKeys_sent, getPrimaryKeys_sent.
    now rewrite <- app_assoc. }
  split; [|split; [exact C|split]].
  - intros t p. rewrite db_describeTable_snd, getPrimaryKeys_sent, !List.filter_app. simpl.
    rewrite app_nil_r. split; [|reflexivity]. f_equal.
    apply getTableSchema_sends_no_key_request.
  - intros t p columns H.
    rewrite db_describeTable_snd, getPrimaryKeys_sent, getPrimaryKeys_caches.
    now rewrite (getTableSchema_hit host t p columns H).
  - intros n p tables H. rewrite C, db_getDatabaseContext_snd, getForeignKeys_caches,
      getPrimaryKeys_caches. now rewrite (getTables_hit host p tables H).
Qed.

(** ** Start-up *)

(** X12.  When [bootstrap] reaches [app.listen], the table cache holds the
    list the database gave at start-up.  From then on, as long as
    [clearCache] is not called, no tool call and no lookup sends the
    table-list request again, and [getTables] keeps giving that list,
    whatever happens to the database. *)
Theorem bootstrap_fixes_the_table_list
    {World : Type} (host : Host World) (p0 p : Process World) (ops : list (Op World)) :
  bootstrap host p0 = (Listening, p) ->
  forallb (fun op => negb (isClearCache op)) ops = true ->
  exists tables,
    fst (getTables host p0) = Resolved tables /\
    tablesCache (caches p) = Some tables /\
    getTables host (run host ops p) = (Resolved tables, run host ops p) /\
    List.filter isTablesRequest (sent (run host ops p))
      = List.filter isTablesRequest (sent p).
Proof.
  unfold bootstrap. intros B N.
  destruct (getTables host p0) as [[tables|e] p1] eqn:G; [|discriminate B].
  injection B as <-. exists tables.
  pose proof (getTables_populates host p0 p1 tables G) as T.
  split; [reflexivity|]. split; [exact T|]. split.
  - apply getTables_hit. now apply (run_kept host ops p1 N).
  - now apply (run_sends_no_tables_request host ops p1 tables).
Qed.

(** The example database gains a table after start-up; the tools keep the
    list of start-up. *)
Lemma bootstrap_fixes_the_table_list_witness :
  exists tables,
    fst (getTables Fixture.host (initial 0%nat)) = Resolved tables /\
    tablesCache (caches (snd (bootstrap Fixture.host (initial 0%nat)))) = Some tables /\
    getTables Fixture.host
      (run Fixture.host [DescribeTable "Late"; GetDatabaseContext None; Select "SELECT 1" None]
         (snd (bootstrap Fixture.host (initial 0%nat))))
    = (Resolved tables,
       run Fixture.host [DescribeTable "Late"; GetDatabaseContext None; Select "SELECT 1" None]
         (snd (bootstrap Fixture.host (initial 0%nat)))) /\
    List.filter isTablesRequest
      (sent (run Fixture.host
               [DescribeTable "Late"; GetDatabaseContext None; Select "SELECT 1" None]
               (snd (bootstrap Fixture.host (initial 0%nat)))))
    = List.filter isTablesRequest (sent (snd (bootstrap Fixture.host (initial 0%nat)))).
Proof.
  apply (bootstrap_fixes_the_table_list Fixture.host (initial 0%nat)); reflexivity.
Defined.

(** ** Everything that reaches the database *)

Section GuardedRequests.
Context {World : Type} (host : Host World).

Local Abbreviation schema := (getTargetSchema host).
Local Abbreviation guarded := (List.Forall (guardedRequest schema)).

Lemma guarded_snoc (l : list SqlRequest) (r : SqlRequest) :
  guarded l -> guardedRequest schema r -> guarded (l ++ [r]).
Proof. intros H G. apply List.Forall_app. split; [exact H | now constructor]. Qed.

Lemma getTables_guarded (p : Process World) :
  guarded (sent p) -> guarded (sent (snd (getTables host p))).
Proof.
  intros H. destruct (getTables_sent host p) as [-> | ->]; [exact H|].
  now apply guarded_snoc.
Qed.

Lemma getTableSchema_guarded (t : string) (p : Process World) :
  guarded (sent p) -> guarded (sent (snd (getTableSchema host t p))).
Proof.
  intros H. destruct (columnsCache (caches p) !! cacheKey schema t) as [v|] eqn:C.
  - now rewrite (getTableSchema_hit host t p v C).
  - rewrite (getTableSchema_miss host t p C).
    pose proof (getTables_guarded p H) as H1.
    destruct (getTables host p) as [[tables|e] p1]; simpl in H1; [|exact H1].
    destruct (listed schema t tables); [|exact H1].
    destruct (queryColumnInfo host _ (world p1)) as [[e|v] w]; simpl;
      (apply guarded_snoc; [exact H1 | now exists t]).
Qed.

Lemma getPrimaryKeys_guarded (p : Process World) :
  guarded (sent p) -> guarded (sent (snd (getPrimaryKeys host p))).
Proof. intros H. rewrite getPrimaryKeys_sent. now apply guarded_snoc. Qed.

Lemma getForeignKeys_guarded (p : Process World) :
  guarded (sent p) -> guarded (sent (snd (getForeignKeys host p))).
Proof. intros H. rewrite getForeignKeys_sent. now apply guarded_snoc. Qed.

Lemma step_guarded (p : Process World) (op : Op World) :
  guarded (sent p) -> guarded (sent (step host p op)).
Proof.
  intros H. destruct op; simpl; trivial.
  - now apply getTables_guarded.
  - now apply getTableSchema_guarded.
  - now apply getPrimaryKeys_guarded.
  - now apply getForeignKeys_guarded.
  - rewrite db_describeTable_snd. now apply getPrimaryKeys_guarded, getTableSchema_guarded.
  - rewrite db_getDatabaseContext_snd.
    now apply getForeignKeys_guarded, getPrimaryKeys_guarded, getTables_guarded.
  - destruct (guard sql) as [text|q] eqn:G.
    + now rewrite (db_select_refused host sql maxRows text p G).
    + rewrite (db_select_passed host sql maxRows q p G). simpl.
      apply guarded_snoc; [exact H|]. unfold guardedRequest. simpl.
      split; [|split; [apply rowLimit_le_200 | reflexivity]].
      destruct (passed_statement_clean sql q G) as [_ S].
      rewrite (guard_statement q q S).
      destruct (singleStatement sql) as [q0|] eqn:Q;
        [|rewrite (guard_no_statement sql Q) in G; discriminate G].
      rewrite (guard_statement sql q0 Q) in G.
      destruct (checkStatement_cases q0) as [[_ E] | [(_ & _ & E) | (_ & _ & E)]];
        rewrite E in G; congruence.
Qed.

End GuardedRequests.

(** X13.  Whatever calls are made, in whatever order, every request the
    process has sent to the database is one of the four metadata
    statements, with the configured schema (and a table name) as
    parameters, or a capped batch whose row limit is at most 200 and whose
    statement passes the guard. *)
Theorem only_guarded_requests_reach_the_database
    {World : Type} (host : Host World) (p : Process World) :
  reachable host p ->
  List.Forall (guardedRequest (getTargetSchema host)) (sent p).
Proof.
  intros (w & ops & ->). unfold run.
  assert (List.Forall (guardedRequest (getTargetSchema host)) (sent (initial w))) as I
    by constructor.
  revert I. generalize (initial w). induction ops as [|op ops IH]; simpl; intros p I.
  - exact I.
  - apply IH. now apply step_guarded.
Qed.

(** A refused text, an accepted one and two schema calls. *)
Lemma only_guarded_requests_witness :
  List.Forall (guardedRequest (getTargetSchema Fixture.host))
    (sent (run Fixture.host
             [Select "SELECT 1; DROP TABLE Product" None; Select "select 1 ;" (Some 5000);
              DescribeTable "Person"; GetDatabaseContext (Some 1); ClearCache;
              GetTableSchema "Product"]
             Fixture.start)).
Proof.
  apply (only_guarded_requests_reach_the_database Fixture.host).
  exists 0%nat,
    [Select "SELECT 1; DROP TABLE Product" None; Select "select 1 ;" (Some 5000);
     DescribeTable "Person"; GetDatabaseContext (Some 1); ClearCache;
     GetTableSchema "Product"].
  reflexivity.
Defined.

(** ** Lookups and handlers at their [await]s *)

(** X14.  A lookup whose answers arrive before anything else happens is
    the call: [getTables] started and resumed at once, and [getTableSchema]
    started and resumed at once at each of its [await]s, leave the process
    as the calls of these methods leave it, and nothing in flight. *)
Theorem lookup_without_overlap_is_the_call
    {World : Type} (host : Host World) (s : Overlapped World) :
  runOverlapped host [StartsGetTables; Resumes (List.length (waiting s))] s
    = mkOverlapped (snd (getTables host (process s))) (waiting s) /\
  forall t,
    runOverlapped host
      [StartsGetTableSchema t; Resumes (List.length (waiting s));
       Resumes (List.length (waiting s)); Resumes (List.length (waiting s))] s
    = mkOverlapped (snd (getTableSchema host t (process s))) (waiting s).
Proof.
  destruct s as [p l]. split.
  - simpl. unfold startGetTables. simpl.
    destruct (tablesCache (caches p)) as [tables|] eqn:C.
    + rewrite (getTables_hit host p tables C). simpl. apply resume_done.
    + rewrite (getTables_miss host p C). unfold sendRequest.
      destruct (queryTableInfo host _ (world p)) as [[e|v] w]; simpl;
        now rewrite resume_last.
  - intros t. simpl. unfold startGetTableSchema. simpl.
    destruct (columnsCache (caches p) !! cacheKey (getTargetSchema host) t)
      as [cached|] eqn:C.
    + rewrite (getTableSchema_hit host t p cached C). simpl.
      now rewrite !resume_done.
    + rewrite (getTableSchema_miss host t p C).
      destruct (tablesCache (caches p)) as [tables|] eqn:T.
      * rewrite (getTables_hit host p tables T). simpl. rewrite resume_last.
        destruct (listed (getTargetSchema host) t tables); [|now rewrite !resume_done].
        unfold sendRequest.
        destruct (queryColumnInfo host _ (world p)) as [[e|v] w]; simpl;
          now rewrite resume_last, resume_done.
      * rewrite (getTables_miss host p T). unfold sendRequest.
        destruct (queryTableInfo host _ (world p)) as [[e|tables] w]; simpl;
          rewrite resume_last; [now rewrite !resume_done|].
        rewrite resume_last. simpl.
        destruct (listed (getTargetSchema host) t tables); [|now rewrite resume_done].
        unfold sendRequest. simpl.
        destruct (queryColumnInfo host _ w) as [[e|v] w']; simpl;
          now rewrite resume_last.
Qed.

Lemma sendRequest_sent {World T : Type} (exec : SqlRequest -> World -> (string + T) * World)
    (req : SqlRequest) (p : Process World) :
  sent (snd (sendRequest exec req p)) = sent p ++ [req].
Proof. unfold sendRequest. now destruct (exec req (world p)). Qed.

(** X15.  The requests of a [db.describeTable] call leave in the order of
    the [await]s, not of the array of [Promise.all]: when the handler
    reaches its [await], the primary-key request has left and no column
    request has; the column request follows when the lookup resumes.  With
    the table list cached the call sends the primary-key request and then
    the column request; with nothing cached it sends the table-list
    request, the primary-key request and then the column request. *)
Theorem db_describeTable_sends_keys_before_columns
    {World : Type} (host : Host World) (t : string) (s : Overlapped World) :
  sent (process (startDescribeTable host t s))
    = sent (process (snd (startGetTableSchema host t s)))
        ++ [primaryKeysRequest (getTargetSchema host)] /\
  List.filter isColumnsRequest (sent (process (startDescribeTable host t s)))
    = List.filter isColumnsRequest (sent (process s)) /\
  (forall tables,
     columnsCache (caches (process s)) !! cacheKey (getTargetSchema host) t = None ->
     tablesCache (caches (process s)) = Some tables ->
     listed (getTargetSchema host) t tables = true ->
     sent (process (resume host (List.length (waiting s)) (startDescribeTable host t s)))
       = sent (process s)
           ++ [primaryKeysRequest (getTargetSchema host);
               columnsRequest (getTargetSchema host) t]) /\
  (forall tables,
     columnsCache (caches (process s)) !! cacheKey (getTargetSchema host) t = None ->
     tablesCache (caches (process s)) = None ->
     fst (queryTableInfo host (tablesRequest (getTargetSchema host)) (world (process s)))
       = inr tables ->
     listed (getTargetSchema host) t tables = true ->
     sent (process
             (resume host (List.length (waiting s))
                (resume host (List.length (waiting s)) (startDescribeTable host t s))))
       = sent (process s)
           ++ [tablesRequest (getTargetSchema host);
               primaryKeysRequest (getTargetSchema host);
               columnsRequest (getTargetSchema host) t]).
Proof.
  destruct s as [p l].
  assert (sent (process (startDescribeTable host t (mkOverlapped p l)))
          = sent (process (snd (startGetTableSchema host t (mkOverlapped p l))))
              ++ [primaryKeysRequest (getTargetSchema host)]) as S.
  { unfold startDescribeTable. simpl. apply sendRequest_sent. }
  split; [exact S|]. split; [|split].
  - rewrite S, List.filter_app. simpl. rewrite app_nil_r.
    unfold startGetTableSchema. simpl.
    destruct (columnsCache _ !! _); [reflexivity|].
    destruct (tablesCache _); [reflexivity|].
    pose proof (sendRequest_sent (queryTableInfo host) (tablesRequest (getTargetSchema host)) p)
      as Q.
    destruct (sendRequest _ _ p) as [answer p1]. simpl in *.
    rewrite Q, List.filter_app. simpl. apply app_nil_r.
  - intros tables C T L. simpl in C, T. unfold startDescribeTable, startGetTableSchema. simpl.
    rewrite C, T. simpl. rewrite resume_last, L. simpl.
    rewrite !sendRequest_sent. now rewrite <- List.app_assoc.
  - intros tables C T A L. simpl in C, T, A.
    unfold startDescribeTable, startGetTableSchema. simpl.
    rewrite C, T. unfold sendRequest at 2 3.
    destruct (queryTableInfo host _ (world p)) as [answer w]. simpl in A. subst answer.
    simpl. rewrite resume_last, resume_last, L. simpl.
    rewrite ?sendRequest_sent. simpl. rewrite ?sendRequest_sent. simpl.
    now rewrite <- !List.app_assoc.
Qed.

(** On the example database: nothing cached, then the table list cached. *)
Example db_describeTable_request_order :
  map queryText
    (sent (process
       (runOverlapped Fixture.host [Resumes 0; Resumes 0]
          (startDescribeTable Fixture.host "Product" (mkOverlapped Fixture.start [])))))
    = [TablesQuery; PrimaryKeysQuery; ColumnsQuery] /\
  map queryText
    (sent (process
       (runOverlapped Fixture.host [Resumes 0]
          (startDescribeTable Fixture.host "Product"
             (mkOverlapped (mkProcess (mkCaches (Some (Fixture.tables 0)) ∅) 0%nat []) [])))))
    = [PrimaryKeysQuery; ColumnsQuery].
Proof. split; reflexivity. Qed.
